(** * crontab: the worker's scheduler, its log sink, and the master's worker list

    A shallow embedding of [worker/Scheduler.go], [worker/LogSink.go] and
    [master/WorkerMgr.go].  Go maps are [gmap]s keyed by job name, channels
    are bounded FIFO queues, pointers to heap objects ([*LogBatch],
    [*time.Timer], cancellation contexts) are addresses into explicit
    stores, and calls into collaborators (the executor, the Mongo
    collection, standard output) are recorded in call logs carried by the
    state. *)

From Stdlib Require Import ZArith Lia.
From stdpp Require Import base option list gmap strings.

Local Open Scope Z_scope.

(** ** Package [time] *)

Module time.

(** An instant, in nanoseconds since the Unix epoch. *)
Definition Time := Z.

(** [time.Duration] is an [int64] count of nanoseconds. *)
Definition Duration := Z.

Definition minDuration : Duration := - 2 ^ 63.
Definition maxDuration : Duration := 2 ^ 63 - 1.

Definition Millisecond : Duration := 1000000.
Definition Second : Duration := 1000000000.

Definition Before (t u : Time) : bool := t <? u.
Definition Equal (t u : Time) : bool := t =? u.

(** [t.Sub(u)]: the difference, saturated to the range of [Duration]. *)
Definition Sub (t u : Time) : Duration :=
  let d := t - u in
  if d <? minDuration then minDuration
  else if maxDuration <? d then maxDuration
  else d.

(** Two's complement reading of an integer as an [int64]. *)
Definition wrap64 (z : Z) : Z := (z + 2 ^ 63) mod 2 ^ 64 - 2 ^ 63.

Definition UnixNano (t : Time) : Z := wrap64 t.

(** The zero [Time]: January 1, year 1, 00:00:00 UTC. *)
Definition zeroTime : Time := -62135596800 * 1000000000.

End time.

(** ** Package [common] *)

Module common.

Record Job := mkJob {
  Job_Name : string;
  Job_Command : string;
  Job_CronExpr : string
}.

(** A parsed trigger expression ([*cronexpr.Expression]), seen through its
    one method used here: [Next], the next activation after an instant.
    The library returns the zero [Time] when there is none. *)
Record Expression := mkExpression {
  Next : time.Time -> time.Time
}.

Record JobsSchedulerPlan := mkPlan {
  Plan_Job : Job;
  Plan_Expr : Expression;
  Plan_NextTime : time.Time
}.

(** [CancelFunc] is the cancel half of a [context.WithCancel]; the context
    it cancels is identified by its address. *)
Record JobExecuteInfo := mkInfo {
  Info_Job : Job;
  Info_PlanTime : time.Time;
  Info_RealTime : time.Time;
  Info_CancelCtx : nat
}.

(** Values of the interface [error]: the sentinel
    [ERR_LOCK_ALREADY_REQUIRED], compared by identity, and any other
    error, with its text. *)
Inductive error :=
| ERR_LOCK_ALREADY_REQUIRED
| errorString (s : string).

#[global] Instance error_eq_dec : EqDecision error.
Proof. solve_decision. Defined.

Record JobExecuteResult := mkResult {
  Result_ExecuteInfo : JobExecuteInfo;
  Result_Output : string;
  Result_Err : option error;
  Result_StartTime : time.Time;
  Result_EndTime : time.Time
}.

Record JobLog := mkJobLog {
  JobLog_JobName : string;
  JobLog_Command : string;
  JobLog_Err : string;
  JobLog_Output : string;
  JobLog_PlanTime : Z;
  JobLog_SchedulerTime : Z;
  JobLog_StartTime : Z;
  JobLog_EndTime : Z
}.

(** [LogBatch] values live on the heap and are compared by address. *)
Record LogBatch := mkLogBatch {
  Logs : list JobLog
}.

(** The event kinds; [JOB_EVENT_OTHER] stands for every integer that is
    none of the three constants. *)
Inductive EventType :=
| JOB_EVENT_SAVE
| JOB_EVENT_DELETE
| JOB_EVENT_KILLER
| JOB_EVENT_OTHER.

Record JobEvent := mkJobEvent {
  Event_EventType : EventType;
  Event_Job : Job
}.

(** Modelled from the spec: [common.BulidJobSchedulerPlan] is declared in
    package [common], outside the files at hand.  It builds a plan from a
    definition, computing the first next-fire time from the trigger
    expression evaluated against the current time, and fails when the
    trigger expression does not parse.  [Parse] is the trigger-expression
    parser; [now] is the clock reading taken once parsing succeeded. *)
Definition BulidJobSchedulerPlan
    (Parse : string -> option Expression) (now : time.Time) (job : Job)
  : option JobsSchedulerPlan :=
  match Parse (Job_CronExpr job) with
  | None => None
  | Some expr => Some (mkPlan job expr (Next expr now))
  end.

(** Modelled from the spec: [common.BuildJobExecuteInfo] is declared in
    package [common], outside the files at hand.  It builds the handle of
    one dispatch: the job, the planned fire time, the actual dispatch time
    [now], and a fresh cancellation control [ctx]. *)
Definition BuildJobExecuteInfo
    (jobPlan : JobsSchedulerPlan) (now : time.Time) (ctx : nat)
  : JobExecuteInfo :=
  mkInfo (Plan_Job jobPlan) (Plan_NextTime jobPlan) now ctx.

(** The text of an error, [err.Error()].  The text of the sentinel is
    declared outside the files at hand; the worker never reads it. *)
Definition Error (lockText : string) (e : error) : string :=
  match e with
  | ERR_LOCK_ALREADY_REQUIRED => lockText
  | errorString s => s
  end.

End common.

(** ** Go runtime objects shared by both packages *)

(** A buffered channel: the queued values, oldest first, and the capacity
    given to [make]. *)
Module channel.

Record chan (A : Type) := mkChan {
  buf : list A;
  cap : nat
}.
Arguments mkChan {A} _ _.
Arguments buf {A} _.
Arguments cap {A} _.

Definition make {A : Type} (n : nat) : chan A := mkChan [] n.

Definition full {A : Type} (c : chan A) : bool :=
  bool_decide (cap c ≤ length (buf c))%nat.

(** [c <- x] when it can complete at once; [None] when the sender would
    have to wait. *)
Definition send {A : Type} (c : chan A) (x : A) : option (chan A) :=
  if full c then None else Some (mkChan (buf c ++ [x]) (cap c)).

(** [<-c] when a value is queued; [None] when the receiver would have to
    wait. *)
Definition recv {A : Type} (c : chan A) : option (A * chan A) :=
  match buf c with
  | [] => None
  | x :: rest => Some (x, mkChan rest (cap c))
  end.

End channel.

(** The wall clock: [time.Now()] consumes one reading of an arbitrary
    sequence of instants. *)
Module wallclock.

Record Clock := mkClock {
  readings : nat -> time.Time;
  reads : nat
}.

Definition Now (c : Clock) : time.Time * Clock :=
  (readings c (reads c), mkClock (readings c) (S (reads c))).

End wallclock.

(** A Go slice is either [nil] or a (possibly empty) run of elements. *)
Module slice.

Inductive slice (A : Type) :=
| nil_slice
| elems (l : list A).
Arguments nil_slice {A}.
Arguments elems {A} _.

Definition make {A : Type} : slice A := elems [].

Definition to_list {A : Type} (s : slice A) : list A :=
  match s with
  | nil_slice => []
  | elems l => l
  end.

Definition len {A : Type} (s : slice A) : nat := length (to_list s).

Definition is_nil {A : Type} (s : slice A) : bool :=
  match s with
  | nil_slice => true
  | elems _ => false
  end.

Definition append {A : Type} (s : slice A) (x : A) : slice A :=
  elems (to_list s ++ [x]).

End slice.

(** ** Package [worker] *)

Module worker.
Import common.

Record Config := mkConfig {
  JobLogCommitTimeout : Z;
  JobLogBatchSize : Z
}.

(** The Mongo collection behind [logCollection]: whether the k-th bulk write
    will succeed, the bulk writes attempted so far, and the documents
    stored. *)
Record Collection := mkCollection {
  outcomes : nat -> bool;
  calls : list (list JobLog);
  documents : list JobLog
}.

(** [collection.InsertMany(ctx, docs)]; the boolean is [err == nil]. *)
Definition InsertMany (c : Collection) (docs : list JobLog)
  : Collection * bool :=
  let ok := outcomes c (length (calls c)) in
  (mkCollection (outcomes c) (calls c ++ [docs])
     (if ok then documents c ++ docs else documents c),
   ok).

(** A timer made by [time.AfterFunc(d, f)], where [f] sends the batch it
    captured to [autoCommitChan].  The wall clock being free, an armed timer
    may expire at any point of a run. *)
Record Timer := mkTimer {
  Timer_d : time.Duration;
  Timer_batch : nat;
  Timer_active : bool
}.

(** What [TryStartJob] prints after its label. *)
Record PrintedLine := mkLine {
  Line_Name : string;
  Line_PlanTime : time.Time;
  Line_RealTime : time.Time
}.

(** The state of a worker process: the fields of its two singletons, the
    locals of the log sink's loop, the heap, and the outside world. *)
Record World := mkWorld {
  (** [G_config]: the loaded configuration *)
  G_config : Config;
  (** [G_scheduler.jobEventChan] *)
  jobEventChan : channel.chan JobEvent;
  (** [G_scheduler.jobPlanTable] *)
  jobPlanTable : gmap string JobsSchedulerPlan;
  (** [G_scheduler.jobExecutingTable] *)
  jobExecutingTable : gmap string JobExecuteInfo;
  (** [G_scheduler.jobResultChan] *)
  jobResultChan : channel.chan JobExecuteResult;
  (** [schedulerLoop]'s local [schedulerAfter]: the delay its timer was last set to *)
  schedulerAfter : time.Duration;
  (** [G_logSink.logChan] *)
  logChan : channel.chan JobLog;
  (** [G_logSink.autoCommitChan], of batch addresses *)
  autoCommitChan : channel.chan nat;
  (** [G_logSink.logCollection] *)
  logCollection : Collection;
  (** [writeLoop]'s local [logBatch]: [nil] or an address *)
  logBatch : option nat;
  (** [writeLoop]'s local [commitTimer]: [nil] or an address *)
  commitTimer : option nat;
  (** the [LogBatch] objects allocated so far, by address *)
  batches : list LogBatch;
  (** the [time.Timer] objects allocated so far, by address *)
  timers : list Timer;
  (** timer goroutines standing at [autoCommitChan <- batch] *)
  sending : list nat;
  (** the number of cancellation contexts created so far *)
  contexts : nat;
  (** the contexts whose [CancelFunc] was called, oldest first *)
  cancelled : list nat;
  (** the handles given to [G_executor.ExecuteJob], oldest first *)
  G_executor : list JobExecuteInfo;
  (** the lines printed on standard output, oldest first *)
  stdout : list PrintedLine;
  (** the wall clock *)
  clock : wallclock.Clock;
  (** the batch addresses given to [saveLogs], oldest first *)
  saved : list nat
}.

(** Assignment to one field, the others kept. *)
Definition upd_jobEventChan (f : channel.chan JobEvent -> channel.chan JobEvent)
    (w : World) : World :=
  mkWorld (G_config w) (f (jobEventChan w)) (jobPlanTable w)
    (jobExecutingTable w) (jobResultChan w) (schedulerAfter w) (logChan w)
    (autoCommitChan w) (logCollection w) (logBatch w) (commitTimer w)
    (batches w) (timers w) (sending w) (contexts w) (cancelled w)
    (G_executor w) (stdout w) (clock w) (saved w).

Definition upd_jobPlanTable (f : gmap string JobsSchedulerPlan -> gmap string JobsSchedulerPlan)
    (w : World) : World :=
  mkWorld (G_config w) (jobEventChan w) (f (jobPlanTable w))
    (jobExecutingTable w) (jobResultChan w) (schedulerAfter w) (logChan w)
    (autoCommitChan w) (logCollection w) (logBatch w) (commitTimer w)
    (batches w) (timers w) (sending w) (contexts w) (cancelled w)
    (G_executor w) (stdout w) (clock w) (saved w).

Definition upd_jobExecutingTable (f : gmap string JobExecuteInfo -> gmap string JobExecuteInfo)
    (w : World) : World :=
  mkWorld (G_config w) (jobEventChan w) (jobPlanTable w) (f
    (jobExecutingTable w)) (jobResultChan w) (schedulerAfter w) (logChan w)
    (autoCommitChan w) (logCollection w) (logBatch w) (commitTimer w)
    (batches w) (timers w) (sending w) (contexts w) (cancelled w)
    (G_executor w) (stdout w) (clock w) (saved w).

Definition upd_jobResultChan (f : channel.chan JobExecuteResult -> channel.chan JobExecuteResult)
    (w : World) : World :=
  mkWorld (G_config w) (jobEventChan w) (jobPlanTable w)
    (jobExecutingTable w) (f (jobResultChan w)) (schedulerAfter w)
    (logChan w) (autoCommitChan w) (logCollection w) (logBatch w)
    (commitTimer w) (batches w) (timers w) (sending w) (contexts w)
    (cancelled w) (G_executor w) (stdout w) (clock w) (saved w).

Definition upd_schedulerAfter (f : time.Duration -> time.Duration)
    (w : World) : World :=
  mkWorld (G_config w) (jobEventChan w) (jobPlanTable w)
    (jobExecutingTable w) (jobResultChan w) (f (schedulerAfter w))
    (logChan w) (autoCommitChan w) (logCollection w) (logBatch w)
    (commitTimer w) (batches w) (timers w) (sending w) (contexts w)
    (cancelled w) (G_executor w) (stdout w) (clock w) (saved w).

Definition upd_logChan (f : channel.chan JobLog -> channel.chan JobLog)
    (w : World) : World :=
  mkWorld (G_config w) (jobEventChan w) (jobPlanTable w)
    (jobExecutingTable w) (jobResultChan w) (schedulerAfter w) (f
    (logChan w)) (autoCommitChan w) (logCollection w) (logBatch w)
    (commitTimer w) (batches w) (timers w) (sending w) (contexts w)
    (cancelled w) (G_executor w) (stdout w) (clock w) (saved w).

Definition upd_autoCommitChan (f : channel.chan nat -> channel.chan nat)
    (w : World) : World :=
  mkWorld (G_config w) (jobEventChan w) (jobPlanTable w)
    (jobExecutingTable w) (jobResultChan w) (schedulerAfter w) (logChan w)
    (f (autoCommitChan w)) (logCollection w) (logBatch w) (commitTimer w)
    (batches w) (timers w) (sending w) (contexts w) (cancelled w)
    (G_executor w) (stdout w) (clock w) (saved w).

Definition upd_logCollection (f : Collection -> Collection)
    (w : World) : World :=
  mkWorld (G_config w) (jobEventChan w) (jobPlanTable w)
    (jobExecutingTable w) (jobResultChan w) (schedulerAfter w) (logChan w)
    (autoCommitChan w) (f (logCollection w)) (logBatch w) (commitTimer w)
    (batches w) (timers w) (sending w) (contexts w) (cancelled w)
    (G_executor w) (stdout w) (clock w) (saved w).

Definition upd_logBatch (f : option nat -> option nat)
    (w : World) : World :=
  mkWorld (G_config w) (jobEventChan w) (jobPlanTable w)
    (jobExecutingTable w) (jobResultChan w) (schedulerAfter w) (logChan w)
    (autoCommitChan w) (logCollection w) (f (logBatch w)) (commitTimer w)
    (batches w) (timers w) (sending w) (contexts w) (cancelled w)
    (G_executor w) (stdout w) (clock w) (saved w).

Definition upd_commitTimer (f : option nat -> option nat)
    (w : World) : World :=
  mkWorld (G_config w) (jobEventChan w) (jobPlanTable w)
    (jobExecutingTable w) (jobResultChan w) (schedulerAfter w) (logChan w)
    (autoCommitChan w) (logCollection w) (logBatch w) (f (commitTimer w))
    (batches w) (timers w) (sending w) (contexts w) (cancelled w)
    (G_executor w) (stdout w) (clock w) (saved w).

Definition upd_batches (f : list LogBatch -> list LogBatch)
    (w : World) : World :=
  mkWorld (G_config w) (jobEventChan w) (jobPlanTable w)
    (jobExecutingTable w) (jobResultChan w) (schedulerAfter w) (logChan w)
    (autoCommitChan w) (logCollection w) (logBatch w) (commitTimer w) (f
    (batches w)) (timers w) (sending w) (contexts w) (cancelled w)
    (G_executor w) (stdout w) (clock w) (saved w).

Definition upd_timers (f : list Timer -> list Timer)
    (w : World) : World :=
  mkWorld (G_config w) (jobEventChan w) (jobPlanTable w)
    (jobExecutingTable w) (jobResultChan w) (schedulerAfter w) (logChan w)
    (autoCommitChan w) (logCollection w) (logBatch w) (commitTimer w)
    (batches w) (f (timers w)) (sending w) (contexts w) (cancelled w)
    (G_executor w) (stdout w) (clock w) (saved w).

Definition upd_sending (f : list nat -> list nat)
    (w : World) : World :=
  mkWorld (G_config w) (jobEventChan w) (jobPlanTable w)
    (jobExecutingTable w) (jobResultChan w) (schedulerAfter w) (logChan w)
    (autoCommitChan w) (logCollection w) (logBatch w) (commitTimer w)
    (batches w) (timers w) (f (sending w)) (contexts w) (cancelled w)
    (G_executor w) (stdout w) (clock w) (saved w).

Definition upd_contexts (f : nat -> nat)
    (w : World) : World :=
  mkWorld (G_config w) (jobEventChan w) (jobPlanTable w)
    (jobExecutingTable w) (jobResultChan w) (schedulerAfter w) (logChan w)
    (autoCommitChan w) (logCollection w) (logBatch w) (commitTimer w)
    (batches w) (timers w) (sending w) (f (contexts w)) (cancelled w)
    (G_executor w) (stdout w) (clock w) (saved w).

Definition upd_cancelled (f : list nat -> list nat)
    (w : World) : World :=
  mkWorld (G_config w) (jobEventChan w) (jobPlanTable w)
    (jobExecutingTable w) (jobResultChan w) (schedulerAfter w) (logChan w)
    (autoCommitChan w) (logCollection w) (logBatch w) (commitTimer w)
    (batches w) (timers w) (sending w) (contexts w) (f (cancelled w))
    (G_executor w) (stdout w) (clock w) (saved w).

Definition upd_G_executor (f : list JobExecuteInfo -> list JobExecuteInfo)
    (w : World) : World :=
  mkWorld (G_config w) (jobEventChan w) (jobPlanTable w)
    (jobExecutingTable w) (jobResultChan w) (schedulerAfter w) (logChan w)
    (autoCommitChan w) (logCollection w) (logBatch w) (commitTimer w)
    (batches w) (timers w) (sending w) (contexts w) (cancelled w) (f
    (G_executor w)) (stdout w) (clock w) (saved w).

Definition upd_stdout (f : list PrintedLine -> list PrintedLine)
    (w : World) : World :=
  mkWorld (G_config w) (jobEventChan w) (jobPlanTable w)
    (jobExecutingTable w) (jobResultChan w) (schedulerAfter w) (logChan w)
    (autoCommitChan w) (logCollection w) (logBatch w) (commitTimer w)
    (batches w) (timers w) (sending w) (contexts w) (cancelled w)
    (G_executor w) (f (stdout w)) (clock w) (saved w).

Definition upd_clock (f : wallclock.Clock -> wallclock.Clock)
    (w : World) : World :=
  mkWorld (G_config w) (jobEventChan w) (jobPlanTable w)
    (jobExecutingTable w) (jobResultChan w) (schedulerAfter w) (logChan w)
    (autoCommitChan w) (logCollection w) (logBatch w) (commitTimer w)
    (batches w) (timers w) (sending w) (contexts w) (cancelled w)
    (G_executor w) (stdout w) (f (clock w)) (saved w).

Definition upd_saved (f : list nat -> list nat)
    (w : World) : World :=
  mkWorld (G_config w) (jobEventChan w) (jobPlanTable w)
    (jobExecutingTable w) (jobResultChan w) (schedulerAfter w) (logChan w)
    (autoCommitChan w) (logCollection w) (logBatch w) (commitTimer w)
    (batches w) (timers w) (sending w) (contexts w) (cancelled w)
    (G_executor w) (stdout w) (clock w) (f (saved w)).

(** *** The scheduler *)

Section Scheduler.

(** The trigger-expression parser ([cronexpr.Parse]); [None] is a parse
    error. *)
Context (Parse : string -> option Expression).

(** The text of [ERR_LOCK_ALREADY_REQUIRED]. *)
Context (lockText : string).

(** [time.Now()] *)
Definition time_Now (w : World) : time.Time * World :=
  let '(t, c) := wallclock.Now (clock w) in
  (t, upd_clock (fun _ => c) w).

(** [jobExecuteInfo.CancelFunc()] *)
Definition CancelFunc (jobExecuteInfo : JobExecuteInfo) (w : World) : World :=
  upd_cancelled (fun l => l ++ [Info_CancelCtx jobExecuteInfo]) w.

(** [G_executor.ExecuteJob(info)]: the executor starts its own goroutine;
    the scheduler only hands the handle over. *)
Definition ExecuteJob (info : JobExecuteInfo) (w : World) : World :=
  upd_G_executor (fun l => l ++ [info]) w.

Definition Println (line : PrintedLine) (w : World) : World :=
  upd_stdout (fun l => l ++ [line]) w.

(** [logSink.Append]: a [select] with a [default] case. *)
Definition Append (w : World) (jobLog : JobLog) : World :=
  match channel.send (logChan w) jobLog with
  | Some c => upd_logChan (fun _ => c) w
  | None => w
  end.

Definition handleJobEvent (w : World) (jobEvent : JobEvent) : World :=
  let name := Job_Name (Event_Job jobEvent) in
  match Event_EventType jobEvent with
  | JOB_EVENT_SAVE =>
      let '(now, w') := time_Now w in
      match BulidJobSchedulerPlan Parse now (Event_Job jobEvent) with
      | None => w
      | Some jobSchedulerPlan =>
          upd_jobPlanTable (fun t => <[name := jobSchedulerPlan]> t) w'
      end
  | JOB_EVENT_DELETE =>
      match jobPlanTable w !! name with
      | Some _ => upd_jobPlanTable (fun t => delete name t) w
      | None => w
      end
  | JOB_EVENT_KILLER =>
      match jobExecutingTable w !! name with
      | Some jobExecuteInfo => CancelFunc jobExecuteInfo w
      | None => w
      end
  | JOB_EVENT_OTHER => w
  end.

Definition TryStartJob (w : World) (jobPlan : JobsSchedulerPlan) : World :=
  let name := Job_Name (Plan_Job jobPlan) in
  match jobExecutingTable w !! name with
  | Some _ => w
  | None =>
      let '(now, w) := time_Now w in
      let jobExecuteInfo := BuildJobExecuteInfo jobPlan now (contexts w) in
      let w := upd_contexts S w in
      let w := upd_jobExecutingTable (fun t => <[name := jobExecuteInfo]> t) w in
      let w := Println (mkLine (Job_Name (Info_Job jobExecuteInfo))
                          (Info_PlanTime jobExecuteInfo)
                          (Info_RealTime jobExecuteInfo)) w in
      ExecuteJob jobExecuteInfo w
  end.

(** One turn of the [range] loop of [TryScheduler], on the entry [key] of the
    plan table; [nearTime] is [nil] or the instant it points to. *)
Definition TryScheduler_visit (now : time.Time)
    (acc : World * option time.Time) (entry : string * JobsSchedulerPlan)
  : World * option time.Time :=
  let '(w, nearTime) := acc in
  let '(key, jobPlan) := entry in
  let '(w, jobPlan) :=
    if time.Before (Plan_NextTime jobPlan) now
       || time.Equal (Plan_NextTime jobPlan) now
    then
      let w := TryStartJob w jobPlan in
      let jobPlan :=
        mkPlan (Plan_Job jobPlan) (Plan_Expr jobPlan)
               (Next (Plan_Expr jobPlan) now) in
      (upd_jobPlanTable (fun t => <[key := jobPlan]> t) w, jobPlan)
    else (w, jobPlan) in
  let nearTime :=
    match nearTime with
    | None => Some (Plan_NextTime jobPlan)
    | Some t =>
        if time.Before (Plan_NextTime jobPlan) t
        then Some (Plan_NextTime jobPlan)
        else Some t
    end in
  (w, nearTime).

(** [TryScheduler], the table being ranged over in the order [entries]. *)
Definition TryScheduler_over (entries : list (string * JobsSchedulerPlan))
    (w : World) : World * time.Duration :=
  if bool_decide (size (jobPlanTable w) = 0%nat) then (w, 1 * time.Second)
  else
    let '(now, w) := time_Now w in
    let '(w, nearTime) :=
      fold_left (TryScheduler_visit now) entries (w, None) in
    match nearTime with
    | Some t => (w, time.Sub t now)
    | None => (w, 0) (* not reached: the table is not empty *)
    end.

(** The order in which [range] visits a map is not specified: [order]
    lists the keys of the table in the order the runtime picks, each key
    once. *)
Definition range_order (order : list string)
    (t : gmap string JobsSchedulerPlan) : Prop :=
  NoDup order ∧ list_to_set (C := gset string) order = dom t.

#[global] Instance range_order_dec (order : list string)
    (t : gmap string JobsSchedulerPlan) : Decision (range_order order t).
Proof. unfold range_order. apply _. Defined.

(** The entries of the table under the keys [order], in that order. *)
Definition range_in (order : list string)
    (t : gmap string JobsSchedulerPlan) : list (string * JobsSchedulerPlan) :=
  omap (fun key => (fun jobPlan => (key, jobPlan)) <$> t !! key) order.

Definition TryScheduler (order : list string) (w : World)
  : World * time.Duration :=
  TryScheduler_over (range_in order (jobPlanTable w)) w.

Definition handleJobResult (w : World) (result : JobExecuteResult) : World :=
  let info := Result_ExecuteInfo result in
  let w := upd_jobExecutingTable (fun t => delete (Job_Name (Info_Job info)) t) w in
  if bool_decide (Result_Err result ≠ Some ERR_LOCK_ALREADY_REQUIRED) then
    let jobLog :=
      mkJobLog
        (Job_Name (Info_Job info))
        (Job_Command (Info_Job info))
        (match Result_Err result with
         | Some e => Error lockText e
         | None => EmptyString
         end)
        (Result_Output result)
        (time.UnixNano (Info_PlanTime info) ÷ 1000 ÷ 1000)
        (time.UnixNano (Info_RealTime info) ÷ 1000 ÷ 1000)
        (time.UnixNano (Result_StartTime result) ÷ 1000 ÷ 1000)
        (time.UnixNano (Result_EndTime result) ÷ 1000 ÷ 1000) in
    Append w jobLog
  else w.

End Scheduler.

Section SchedulerLoop.

Context (Parse : string -> option Expression).
Context (lockText : string).

(** The case a [select] of [schedulerLoop] takes. *)
Inductive schedulerLoop_case :=
| case_jobEventChan
| case_schedulerTimer
| case_jobResultChan.

(** [TryScheduler], then the timer set to its result
    ([time.NewTimer(schedulerAfter)], [schedulerTimer.Reset(schedulerAfter)]). *)
Definition set_timer (order : list string) (w : World) : World :=
  let '(w, after) := TryScheduler order w in
  upd_schedulerAfter (fun _ => after) w.

(** The same when [order] is an order [range] can take, [None] otherwise. *)
Definition reschedule (order : list string) (w : World) : option World :=
  if bool_decide (range_order order (jobPlanTable w))
  then Some (set_timer order w)
  else None.

(** One turn of the [for] loop of [schedulerLoop] taking the case [c], the
    plan table being ranged over in the order [order]; [None] when that case
    cannot be taken because its channel is empty.  The timer case is taken
    whenever the runtime delivers the tick. *)
Definition schedulerLoop_turn (w : World) (c : schedulerLoop_case)
    (order : list string) : option World :=
  match c with
  | case_jobEventChan =>
      match channel.recv (jobEventChan w) with
      | None => None
      | Some (jobEvent, ch) =>
          let w := upd_jobEventChan (fun _ => ch) w in
          reschedule order (handleJobEvent Parse w jobEvent)
      end
  | case_schedulerTimer => reschedule order w
  | case_jobResultChan =>
      match channel.recv (jobResultChan w) with
      | None => None
      | Some (jobResult, ch) =>
          let w := upd_jobResultChan (fun _ => ch) w in
          reschedule order (handleJobResult lockText w jobResult)
      end
  end.

(** [scheduler.PushJobEvent]: a plain send, which waits while the channel
    is full. *)
Definition PushJobEvent (w : World) (jobEvent : JobEvent) : option World :=
  match channel.send (jobEventChan w) jobEvent with
  | None => None
  | Some ch => Some (upd_jobEventChan (fun _ => ch) w)
  end.

(** [scheduler.PushJobResult] *)
Definition PushJobResult (w : World) (jobResult : JobExecuteResult)
  : option World :=
  match channel.send (jobResultChan w) jobResult with
  | None => None
  | Some ch => Some (upd_jobResultChan (fun _ => ch) w)
  end.

End SchedulerLoop.

(** *** The log sink *)

(** [logSink.saveLogs(batch)]: the results of [InsertMany] are dropped. *)
Definition saveLogs (w : World) (batch : nat) : World :=
  match batches w !! batch with
  | Some b =>
      let '(c, _) := InsertMany (logCollection w) (Logs b) in
      upd_saved (fun l => l ++ [batch]) (upd_logCollection (fun _ => c) w)
  | None => w (* not reached: [batch] is an allocated address *)
  end.

(** [time.AfterFunc(d, func() { autoCommitChan <- batch })] *)
Definition time_AfterFunc (d : time.Duration) (batch : nat) (w : World)
  : nat * World :=
  (length (timers w), upd_timers (fun h => h ++ [mkTimer d batch true]) w).

Definition disarm (t : Timer) : Timer :=
  mkTimer (Timer_d t) (Timer_batch t) false.

(** [commitTimer.Stop()] *)
Definition Timer_Stop (commitTimer : option nat) (w : World) : World :=
  match commitTimer with
  | Some t => upd_timers (alter disarm t) w
  | None => w (* not reached: the timer was set with the batch *)
  end.

(** [len(logBatch.Logs)] *)
Definition len_Logs (w : World) (batch : nat) : Z :=
  match batches w !! batch with
  | Some b => Z.of_nat (length (Logs b))
  | None => 0
  end.

(** The case [log = <-logSink.logChan] of [writeLoop]. *)
Definition writeLoop_log (w : World) (log : JobLog) : World :=
  let w :=
    match logBatch w with
    | None =>
        let batch := length (batches w) in
        let w := upd_batches (fun h => h ++ [mkLogBatch []]) w in
        let w := upd_logBatch (fun _ => Some batch) w in
        let d := time.wrap64
                   (time.wrap64 (JobLogCommitTimeout (G_config w))
                    * time.Millisecond) in
        let '(t, w) := time_AfterFunc d batch w in
        upd_commitTimer (fun _ => Some t) w
    | Some _ => w
    end in
  match logBatch w with
  | None => w (* not reached *)
  | Some batch =>
      let w :=
        upd_batches (alter (fun b => mkLogBatch (Logs b ++ [log])) batch) w in
      if bool_decide (JobLogBatchSize (G_config w) ≤ len_Logs w batch) then
        let w := saveLogs w batch in
        let w := upd_logBatch (fun _ => None) w in
        Timer_Stop (commitTimer w) w
      else w
  end.

(** The case [timeoutBatch = <-logSink.autoCommitChan] of [writeLoop]. *)
Definition writeLoop_timeout (w : World) (timeoutBatch : nat) : World :=
  if bool_decide (Some timeoutBatch ≠ logBatch w) then w
  else
    let w := saveLogs w timeoutBatch in
    upd_logBatch (fun _ => None) w.

Inductive writeLoop_case :=
| case_logChan
| case_autoCommitChan.

(** One turn of the [for] loop of [writeLoop] taking the case [c]; [None]
    when that case cannot be taken because its channel is empty. *)
Definition writeLoop_turn (w : World) (c : writeLoop_case) : option World :=
  match c with
  | case_logChan =>
      match channel.recv (logChan w) with
      | None => None
      | Some (log, ch) =>
          Some (writeLoop_log (upd_logChan (fun _ => ch) w) log)
      end
  | case_autoCommitChan =>
      match channel.recv (autoCommitChan w) with
      | None => None
      | Some (timeoutBatch, ch) =>
          Some (writeLoop_timeout (upd_autoCommitChan (fun _ => ch) w)
                  timeoutBatch)
      end
  end.

(** The runtime lets the armed timer [t] expire: it is armed no more, and a
    goroutine starts running its function. *)
Definition timer_expires (w : World) (t : nat) : option World :=
  match timers w !! t with
  | Some tm =>
      if Timer_active tm then
        Some (upd_sending (fun l => l ++ [Timer_batch tm])
                (upd_timers (alter disarm t) w))
      else None
  | None => None
  end.

(** The [i]-th waiting timer goroutine completes its send. *)
Definition timer_sends (w : World) (i : nat) : option World :=
  match sending w !! i with
  | Some batch =>
      match channel.send (autoCommitChan w) batch with
      | Some ch =>
          Some (upd_autoCommitChan (fun _ => ch)
                  (upd_sending (fun l => delete i l) w))
      | None => None
      end
  | None => None
  end.

(** *** The process *)

(** The worker after [InitLogSink] and [InitScheduler], before either loop
    has run. *)
Definition boot (cfg : Config) (storeOutcomes : nat -> bool)
    (instants : nat -> time.Time) : World :=
  mkWorld cfg (channel.make 1000) ∅ ∅ (channel.make 1000) 0
    (channel.make 1000) (channel.make 1000)
    (mkCollection storeOutcomes [] []) None None [] [] [] 0%nat [] [] []
    (wallclock.mkClock instants 0) [].

(** What can happen next in the process. *)
Inductive Action :=
| watcher_pushes (jobEvent : JobEvent)
| executor_pushes (jobResult : JobExecuteResult)
| scheduler_turn (c : schedulerLoop_case) (order : list string)
| sink_turn (c : writeLoop_case)
| runtime_expires (t : nat)
| runtime_sends (i : nat).

Section Process.

Context (Parse : string -> option Expression).
Context (lockText : string).

Definition step (w : World) (a : Action) : option World :=
  match a with
  | watcher_pushes jobEvent => PushJobEvent w jobEvent
  | executor_pushes jobResult => PushJobResult w jobResult
  | scheduler_turn c order => schedulerLoop_turn Parse lockText w c order
  | sink_turn c => writeLoop_turn w c
  | runtime_expires t => timer_expires w t
  | runtime_sends i => timer_sends w i
  end.

(** The actions taken in turn; [None] as soon as one of them cannot be. *)
Fixpoint run (w : World) (actions : list Action) : option World :=
  match actions with
  | [] => Some w
  | a :: rest =>
      match step w a with
      | Some w' => run w' rest
      | None => None
      end
  end.

(** [schedulerLoop] before its first [select]: one [TryScheduler], whose
    result sets the timer. *)
Definition started (cfg : Config) (storeOutcomes : nat -> bool)
    (instants : nat -> time.Time) : World :=
  set_timer [] (boot cfg storeOutcomes instants).

End Process.

End worker.

(** ** Package [master] *)

Module master.
Import common.

(** [mvccpb.KeyValue], with the key read as a string. *)
Record KeyValue := mkKeyValue {
  Key : string;
  Value : string
}.

Record GetResponse := mkGetResponse {
  Kvs : slice.slice KeyValue
}.

(** The coordination store behind [workerMgr.kv]: what a prefix read of a
    directory answers, a response or an error. *)
Record WorkerMgr := mkWorkerMgr {
  kv_Get : string -> error + GetResponse
}.

Section ListWorkers.

(** [common.JOB_WORKER_DIR] and [common.ExtractWorkerIP] are declared in
    package [common], outside the files at hand. *)
Context (JOB_WORKER_DIR : string).
Context (ExtractWorkerIP : string -> string).

Definition ListWorkers (workerMgr : WorkerMgr)
  : slice.slice string * option error :=
  let workerArr := slice.make in
  match kv_Get workerMgr JOB_WORKER_DIR with
  | inl err => (workerArr, Some err)
  | inr getResp =>
      (fold_left
         (fun workerArr kv => slice.append workerArr (ExtractWorkerIP (Key kv)))
         (slice.to_list (Kvs getResp)) workerArr,
       None)
  end.

End ListWorkers.

End master.

(** ** Vocabulary of the properties *)

Module props.
Import common worker.

(** The log record [handleJobResult] derives from a result. *)
Definition jobLog_of (lockText : string) (result : JobExecuteResult) : JobLog :=
  let info := Result_ExecuteInfo result in
  mkJobLog
    (Job_Name (Info_Job info))
    (Job_Command (Info_Job info))
    (match Result_Err result with
     | Some e => Error lockText e
     | None => EmptyString
     end)
    (Result_Output result)
    (time.UnixNano (Info_PlanTime info) ÷ 1000 ÷ 1000)
    (time.UnixNano (Info_RealTime info) ÷ 1000 ÷ 1000)
    (time.UnixNano (Result_StartTime result) ÷ 1000 ÷ 1000)
    (time.UnixNano (Result_EndTime result) ÷ 1000 ÷ 1000).

(** What only the scheduler's loop, its producers and its collaborators
    write. *)
Definition scheduler_side (w : World) :=
  (jobEventChan w, jobPlanTable w, jobExecutingTable w, jobResultChan w,
   schedulerAfter w, contexts w, cancelled w, G_executor w, stdout w, clock w).

(** What only the log sink's loop, its timers and its store write. *)
Definition sink_side (w : World) :=
  (autoCommitChan w, logCollection w, logBatch w, commitTimer w, batches w,
   timers w, sending w, saved w).

(** Every handle of the tracker is filed under the name of its own job. *)
Definition tracker_keyed (w : World) : Prop :=
  ∀ key jobExecuteInfo,
    jobExecutingTable w !! key = Some jobExecuteInfo ->
    Job_Name (Info_Job jobExecuteInfo) = key.

(** The handles the tracker holds for a job name. *)
Definition handles_of (name : string) (w : World) : list JobExecuteInfo :=
  filter (fun jobExecuteInfo => Job_Name (Info_Job jobExecuteInfo) = name)
    ((map_to_list (jobExecutingTable w)).*2).

(** The open batch is allocated and not saved yet, and no batch was saved
    twice. *)
Definition sink_consistent (w : World) : Prop :=
  NoDup (saved w)
  ∧ (∀ batch, batch ∈ saved w -> (batch < length (batches w))%nat)
  ∧ (∀ batch, logBatch w = Some batch ->
       (batch < length (batches w))%nat ∧ batch ∉ saved w).

(** A plan is due at [now]. *)
Definition due (now : time.Time) (jobPlan : JobsSchedulerPlan) : bool :=
  time.Before (Plan_NextTime jobPlan) now
  || time.Equal (Plan_NextTime jobPlan) now.

(** A plan after [TryScheduler] has visited it at [now]. *)
Definition advance (now : time.Time) (jobPlan : JobsSchedulerPlan)
  : JobsSchedulerPlan :=
  if due now jobPlan then
    mkPlan (Plan_Job jobPlan) (Plan_Expr jobPlan)
      (Next (Plan_Expr jobPlan) now)
  else jobPlan.

(** The reading the next [time.Now()] returns. *)
Definition next_reading (w : World) : time.Time :=
  wallclock.readings (clock w) (wallclock.reads (clock w)).

(** [writeLoop]'s log case once a batch is open. *)
Definition add_to_batch (w : World) (batch : nat) (log : JobLog) : World :=
  let w :=
    upd_batches (alter (fun b => mkLogBatch (Logs b ++ [log])) batch) w in
  if bool_decide (JobLogBatchSize (G_config w) ≤ len_Logs w batch) then
    Timer_Stop (commitTimer w) (upd_logBatch (fun _ => None) (saveLogs w batch))
  else w.

(** [writeLoop]'s opening of a batch and arming of its timer. *)
Definition open_batch (w : World) : World :=
  mkWorld (G_config w) (jobEventChan w) (jobPlanTable w)
    (jobExecutingTable w) (jobResultChan w) (schedulerAfter w) (logChan w)
    (autoCommitChan w) (logCollection w) (Some (length (batches w)))
    (Some (length (timers w))) (batches w ++ [mkLogBatch []])
    (timers w ++
       [mkTimer (time.wrap64 (time.wrap64 (JobLogCommitTimeout (G_config w))
                              * time.Millisecond))
          (length (batches w)) true])
    (sending w) (contexts w) (cancelled w) (G_executor w) (stdout w)
    (clock w) (saved w).

(** The earlier of an instant and what [nearTime] points to, if anything. *)
Definition earlier (t : time.Time) (nearTime : option time.Time) : time.Time :=
  match nearTime with
  | None => t
  | Some u => if time.Before t u then t else u
  end.

(** Everything of a worker but the store behind [logCollection]: all the
    worker itself holds, prints or hands to its other collaborators. *)
Definition outside_store (w : World) :=
  (G_config w, scheduler_side w, logChan w, autoCommitChan w, logBatch w,
   commitTimer w, batches w, timers w, sending w, saved w).

(** The next bulk write on the store will fail. *)
Definition store_failing (w : World) : Prop :=
  outcomes (logCollection w) (length (calls (logCollection w))) = false.

(** How many times [ExecuteJob] was called for a job name. *)
Definition dispatches (name : string) (w : World) : nat :=
  length (filter (fun jobExecuteInfo : JobExecuteInfo =>
                    Job_Name (Info_Job jobExecuteInfo) = name)
            (G_executor w)).

(** The results for a job name among a list of results. *)
Definition results_for (name : string) (l : list JobExecuteResult) : nat :=
  length (filter (fun jobResult : JobExecuteResult =>
                    Job_Name (Info_Job (Result_ExecuteInfo jobResult)) = name)
            l).

(** The results for a job name the executor pushes in a run. *)
Fixpoint pushed (name : string) (actions : list Action) : nat :=
  match actions with
  | [] => 0
  | executor_pushes jobResult :: rest =>
      results_for name [jobResult] + pushed name rest
  | _ :: rest => pushed name rest
  end.

(** One when the tracker has no handle under the name, zero when it has. *)
Definition idle_slot (name : string) (w : World) : nat :=
  match jobExecutingTable w !! name with
  | Some _ => 0
  | None => 1
  end.

(** Dispatches made, results still queued, and the free slot, for a name. *)
Definition ledger (name : string) (w : World) : nat :=
  dispatches name w
  + results_for name (channel.buf (jobResultChan w))
  + idle_slot name w.

(** A trigger whose next activation is always after the instant asked
    about. *)
Definition strict (e : Expression) : Prop := ∀ t, t < Next e t.

(** Every plan of the table has such a trigger. *)
Definition plans_strict (w : World) : Prop :=
  ∀ key jobPlan, jobPlanTable w !! key = Some jobPlan ->
                 strict (Plan_Expr jobPlan).

(** A channel made with room for a thousand values and holding no more. *)
Definition chan_bounded {A : Type} (c : channel.chan A) : Prop :=
  channel.cap c = 1000%nat ∧ (length (channel.buf c) ≤ 1000)%nat.

(** The four channels of the worker. *)
Definition channels_bounded (w : World) : Prop :=
  chan_bounded (jobEventChan w) ∧ chan_bounded (jobResultChan w)
  ∧ chan_bounded (logChan w) ∧ chan_bounded (autoCommitChan w).

(** Every handle of the tracker and every context cancelled belongs to an
    execution handed to the executor. *)
Definition all_dispatched (w : World) : Prop :=
  (∀ key jobExecuteInfo,
     jobExecutingTable w !! key = Some jobExecuteInfo ->
     jobExecuteInfo ∈ G_executor w)
  ∧ (∀ ctx, ctx ∈ cancelled w ->
       ∃ jobExecuteInfo,
         jobExecuteInfo ∈ G_executor w
         ∧ Info_CancelCtx jobExecuteInfo = ctx).

(** The records of the open batch, none when no batch is open. *)
Definition open_logs (w : World) : list JobLog :=
  match logBatch w with
  | Some batch =>
      match batches w !! batch with
      | Some b => Logs b
      | None => []
      end
  | None => []
  end.

(** The records on their way, oldest first: those given to the store in
    bulk, those of the open batch, those still queued in the log channel. *)
Definition pipeline (w : World) : list JobLog :=
  concat (calls (logCollection w)) ++ open_logs w ++ channel.buf (logChan w).

(** The actions of the log sink's loop and of its timers. *)
Definition sink_action (a : Action) : Prop :=
  match a with
  | sink_turn _ | runtime_expires _ | runtime_sends _ => True
  | _ => False
  end.

#[global] Instance sink_action_dec (a : Action) : Decision (sink_action a).
Proof. destruct a; apply _. Defined.

(** The timeout of a batch is on its way: its timer is armed, or the timer's
    goroutine stands at its send, or its address is queued for the loop. *)
Definition timeout_pending (batch : nat) (w : World) : Prop :=
  (∃ t tm, timers w !! t = Some tm ∧ Timer_active tm = true
           ∧ Timer_batch tm = batch)
  ∨ batch ∈ sending w
  ∨ batch ∈ channel.buf (autoCommitChan w).

(** The open batch holds at least one record and fewer than the batch size,
    and its timeout is on its way. *)
Definition open_batch_sound (w : World) : Prop :=
  ∀ batch, logBatch w = Some batch ->
    (∃ cur, batches w !! batch = Some (mkLogBatch cur) ∧ cur ≠ []
            ∧ Z.of_nat (length cur) < JobLogBatchSize (G_config w))
    ∧ timeout_pending batch w.

(** Every bulk write made so far had at least one record and no more than
    the batch size, or one when the batch size is below one. *)
Definition bulk_writes_sound (w : World) : Prop :=
  Forall (fun docs : list JobLog =>
            docs ≠ []
            ∧ Z.of_nat (length docs)
              ≤ Z.max 1 (JobLogBatchSize (G_config w)))
    (calls (logCollection w)).

(** An instant that [UnixNano] can tell. *)
Definition in_int64 (t : time.Time) : Prop := - 2 ^ 63 ≤ t < 2 ^ 63.

(** Reading the fields of a worker written out in full. *)
Ltac world_simpl :=
  cbv beta iota delta
    [open_batch upd_jobEventChan upd_jobPlanTable upd_jobExecutingTable
     upd_jobResultChan upd_schedulerAfter upd_logChan upd_autoCommitChan
     upd_logCollection upd_logBatch upd_commitTimer upd_batches upd_timers
     upd_sending upd_contexts upd_cancelled upd_G_executor upd_stdout
     upd_clock upd_saved
     G_config jobEventChan jobPlanTable jobExecutingTable jobResultChan
     schedulerAfter logChan autoCommitChan logCollection logBatch
     commitTimer batches timers sending contexts cancelled G_executor
     stdout clock saved].

End props.

(** ** Sample inputs *)

Module samples.
Import common worker master props.

Definition job (name : string) : Job :=
  mkJob name "echo hello" "*/5 * * * * * *".

(** A trigger whose next activation is one second after the instant
    asked about. *)
Definition every_second : Expression :=
  mkExpression (fun t => t + time.Second).

(** A trigger with no activation left, such as one whose year field lies in
    the past: [Next] answers the zero [Time]. *)
Definition never_again : Expression :=
  mkExpression (fun _ => time.zeroTime).

(** A parser that accepts exactly the expression of [job]. *)
Definition parse (s : string) : option Expression :=
  if bool_decide (s = "*/5 * * * * * *") then Some every_second else None.

Definition config : Config := mkConfig 1000 3.

(** A clock that advances by a quarter of a second per reading. *)
Definition instants (n : nat) : time.Time := 250000000 * Z.of_nat n.

Definition idle : World := boot config (fun _ => true) instants.

Definition info (name : string) : JobExecuteInfo :=
  mkInfo (job name) 1000000000 1000250000 0.

Definition result (name : string) (err : option error) : JobExecuteResult :=
  mkResult (info name) "hello" err 1000300000 1000900000.

Definition record (n : Z) : JobLog :=
  mkJobLog "backup" "echo hello" EmptyString "hello" n n n n.

(** A worker that has the plan of one job, due at the first clock reading. *)
Definition one_plan (e : Expression) : World :=
  upd_jobPlanTable (fun t => <["backup" := mkPlan (job "backup") e 0]> t) idle.

(** A worker on which the job "backup" is running. *)
Definition running : World :=
  upd_jobExecutingTable (fun t => <["backup" := info "backup"]> t)
    (one_plan every_second).

(** A worker whose log channel is full. *)
Definition log_chan_full : World :=
  upd_logChan (fun c => channel.mkChan (replicate 1000 (record 0))
                          (channel.cap c)) idle.

Definition workers_dir : string := "/cron/workers/".

Definition extract_ip (key : string) : string :=
  String.substring (String.length workers_dir)
    (String.length key - String.length workers_dir) key.

Definition no_workers : WorkerMgr :=
  mkWorkerMgr (fun _ => inr (mkGetResponse slice.nil_slice)).

Definition store_unreachable : WorkerMgr :=
  mkWorkerMgr (fun _ => inl (errorString "context deadline exceeded")).

Definition two_workers : WorkerMgr :=
  mkWorkerMgr (fun _ =>
    inr (mkGetResponse
           (slice.elems [mkKeyValue "/cron/workers/10.0.0.1" "up";
                         mkKeyValue "/cron/workers/10.0.0.2" "up"]))).

(** A run in which the job "backup" is saved, comes due at the third tick
    of the scheduler's timer and is dispatched. *)
Definition dispatch_run : list Action :=
  [watcher_pushes (mkJobEvent JOB_EVENT_SAVE (job "backup"));
   scheduler_turn case_jobEventChan ["backup"];
   scheduler_turn case_schedulerTimer ["backup"];
   scheduler_turn case_schedulerTimer ["backup"];
   scheduler_turn case_schedulerTimer ["backup"]].

Definition dispatched : World :=
  default idle
    (run parse "busy" (started config (fun _ => true) instants) dispatch_run).

(** A run in which three results come back and are logged. *)
Definition logged_run : list Action :=
  [executor_pushes (result "backup" None);
   executor_pushes (result "backup" (Some (errorString "exit status 1")));
   executor_pushes (result "backup" None);
   scheduler_turn case_jobResultChan [];
   scheduler_turn case_jobResultChan [];
   scheduler_turn case_jobResultChan []].

Definition logged : World :=
  default idle
    (run parse "busy" (started config (fun _ => true) instants) logged_run).

Definition logged_records : list JobLog :=
  [jobLog_of "busy" (result "backup" None);
   jobLog_of "busy" (result "backup" (Some (errorString "exit status 1")));
   jobLog_of "busy" (result "backup" None)].

(** A run up to a flush by timeout: one result is logged, the sink opens a
    batch for it, and the batch's timer expires and sends.  [store_up]
    tells whether the store's writes succeed. *)
Definition timeout_run : list Action :=
  [executor_pushes (result "backup" None);
   scheduler_turn case_jobResultChan [];
   sink_turn case_logChan;
   runtime_expires 0;
   runtime_sends 0].

Definition before_flush (store_up : bool) : World :=
  default idle
    (run parse "busy" (started config (fun _ => store_up) instants)
       timeout_run).

(** The same run with the flush. *)
Definition after_flush (store_up : bool) : World :=
  default idle
    (run parse "busy" (before_flush store_up) [sink_turn case_autoCommitChan]).

(** A run in which one result comes back and is logged. *)
Definition one_result_run : list Action :=
  [executor_pushes (result "backup" None);
   scheduler_turn case_jobResultChan []].

Definition one_result : World :=
  default idle
    (run parse "busy" (started config (fun _ => true) instants)
       one_result_run).

(** The worker of [logged] after the sink has taken its three records. *)
Definition flushed : World :=
  default idle
    (run parse "busy" logged (replicate 3 (sink_turn case_logChan))).

End samples.

(** ** Properties *)

Import common worker master props.

(** *** handleJobEvent *)

(** C6: a SAVE event whose trigger expression does not parse leaves the
    whole worker as it was: no plan is created, the plan table is unchanged
    and nothing else records the failure. *)
Theorem handleJobEvent_save_unparsable
    (Parse : string -> option Expression) (w : World) (jobEvent : JobEvent) :
  Event_EventType jobEvent = JOB_EVENT_SAVE ->
  Parse (Job_CronExpr (Event_Job jobEvent)) = None ->
  handleJobEvent Parse w jobEvent = w.
Proof.
  intros Hty Hparse. unfold handleJobEvent. rewrite Hty.
  destruct (time_Now w) as [now w'].
  unfold BulidJobSchedulerPlan. by rewrite Hparse.
Qed.

Lemma handleJobEvent_save_unparsable_witness :
  handleJobEvent samples.parse samples.idle
    (mkJobEvent JOB_EVENT_SAVE (mkJob "backup" "echo hello" "every day"))
  = samples.idle.
Proof.
  apply handleJobEvent_save_unparsable; reflexivity.
Defined.

(** C8: a DELETE event for a name with no plan, and a FORCE-KILL event for a
    name with no handle, leave the whole worker as it was. *)
Theorem handleJobEvent_unknown_name
    (Parse : string -> option Expression) (w : World) (jobEvent : JobEvent) :
  (Event_EventType jobEvent = JOB_EVENT_DELETE
   ∧ jobPlanTable w !! Job_Name (Event_Job jobEvent) = None)
  ∨ (Event_EventType jobEvent = JOB_EVENT_KILLER
     ∧ jobExecutingTable w !! Job_Name (Event_Job jobEvent) = None) ->
  handleJobEvent Parse w jobEvent = w.
Proof.
  intros [[Hty Hnone] | [Hty Hnone]];
    unfold handleJobEvent; rewrite Hty; by rewrite Hnone.
Qed.

Lemma handleJobEvent_unknown_name_witness :
  handleJobEvent samples.parse samples.running
    (mkJobEvent JOB_EVENT_DELETE (samples.job "cleanup")) = samples.running
  ∧ handleJobEvent samples.parse samples.running
      (mkJobEvent JOB_EVENT_KILLER (samples.job "cleanup")) = samples.running.
Proof.
  split; apply handleJobEvent_unknown_name.
  - left. split; [reflexivity | vm_compute; reflexivity].
  - right. split; [reflexivity | vm_compute; reflexivity].
Defined.

(** C9: a FORCE-KILL event changes neither table; when the named job has a
    handle, the one effect is a call of that handle's cancel function, and
    otherwise there is no effect at all. *)
Theorem handleJobEvent_kill_frame
    (Parse : string -> option Expression) (w : World) (jobEvent : JobEvent) :
  Event_EventType jobEvent = JOB_EVENT_KILLER ->
  jobPlanTable (handleJobEvent Parse w jobEvent) = jobPlanTable w
  ∧ jobExecutingTable (handleJobEvent Parse w jobEvent) = jobExecutingTable w
  ∧ handleJobEvent Parse w jobEvent =
      match jobExecutingTable w !! Job_Name (Event_Job jobEvent) with
      | Some jobExecuteInfo =>
          upd_cancelled (fun l => l ++ [Info_CancelCtx jobExecuteInfo]) w
      | None => w
      end.
Proof.
  intros Hty. unfold handleJobEvent. rewrite Hty.
  destruct (jobExecutingTable w !! Job_Name (Event_Job jobEvent)); done.
Qed.

Lemma handleJobEvent_kill_frame_witness :
  let w := handleJobEvent samples.parse samples.running
             (mkJobEvent JOB_EVENT_KILLER (samples.job "backup")) in
  jobPlanTable w = jobPlanTable samples.running
  ∧ jobExecutingTable w = jobExecutingTable samples.running
  ∧ w = upd_cancelled (fun l => l ++ [0%nat]) samples.running.
Proof.
  apply (handleJobEvent_kill_frame samples.parse samples.running
           (mkJobEvent JOB_EVENT_KILLER (samples.job "backup"))).
  reflexivity.
Defined.

(** *** Append *)

(** C7: [Append] always returns, where the plain send of [PushJobEvent] may
    have to wait.  When the log channel is full, so that a send would wait,
    [Append] returns at once with the record dropped and the worker
    unchanged; otherwise the record is queued behind the others. *)
Theorem Append_never_blocks (w : World) (jobLog : JobLog) :
  (channel.send (logChan w) jobLog = None <-> channel.full (logChan w) = true)
  ∧ (channel.full (logChan w) = true -> Append w jobLog = w)
  ∧ (channel.full (logChan w) = false ->
     Append w jobLog =
       upd_logChan
         (fun c => channel.mkChan (channel.buf c ++ [jobLog]) (channel.cap c))
         w).
Proof.
  unfold Append, channel.send.
  destruct (channel.full (logChan w)); repeat split; done.
Qed.

Lemma Append_never_blocks_witness :
  Append samples.log_chan_full (samples.record 7) = samples.log_chan_full
  ∧ Append samples.idle (samples.record 7) =
      upd_logChan (fun c => channel.mkChan [samples.record 7] (channel.cap c))
        samples.idle.
Proof.
  split.
  - apply Append_never_blocks. vm_compute. reflexivity.
  - apply (Append_never_blocks samples.idle (samples.record 7)).
    vm_compute. reflexivity.
Defined.

(** *** handleJobResult *)

(** C4: on a lock-busy result [handleJobResult] only forgets the handle:
    [Append] is not called and the log channel is as it was.  On any other
    result, success or failure, it forgets the handle and calls [Append]
    with the record built from the result. *)
Theorem handleJobResult_logging
    (lockText : string) (w : World) (result : JobExecuteResult) :
  let name := Job_Name (Info_Job (Result_ExecuteInfo result)) in
  let forgotten := upd_jobExecutingTable (fun t => delete name t) w in
  (Result_Err result = Some ERR_LOCK_ALREADY_REQUIRED ->
   handleJobResult lockText w result = forgotten
   ∧ logChan (handleJobResult lockText w result) = logChan w)
  ∧ (Result_Err result ≠ Some ERR_LOCK_ALREADY_REQUIRED ->
     handleJobResult lockText w result
     = Append forgotten (jobLog_of lockText result)).
Proof.
  intros name forgotten. unfold handleJobResult. split; intros Herr.
  - rewrite bool_decide_eq_false_2; [done | by intros []].
  - by rewrite bool_decide_eq_true_2.
Qed.

Lemma handleJobResult_logging_witness :
  logChan (handleJobResult "busy" samples.running
             (samples.result "backup" (Some ERR_LOCK_ALREADY_REQUIRED)))
  = logChan samples.running
  ∧ channel.buf
      (logChan (handleJobResult "busy" samples.running
                  (samples.result "backup" None)))
    = [mkJobLog "backup" "echo hello" EmptyString "hello"
         1000 1000 1000 1000]
  ∧ channel.buf
      (logChan (handleJobResult "busy" samples.running
                  (samples.result "backup" (Some (errorString "exit status 1")))))
    = [mkJobLog "backup" "echo hello" "exit status 1" "hello"
         1000 1000 1000 1000].
Proof.
  split; [| split].
  - apply (handleJobResult_logging "busy" samples.running
             (samples.result "backup" (Some ERR_LOCK_ALREADY_REQUIRED))).
    reflexivity.
  - rewrite (proj2 (handleJobResult_logging "busy" samples.running
                      (samples.result "backup" None))).
    + vm_compute. reflexivity.
    + discriminate.
  - rewrite (proj2 (handleJobResult_logging "busy" samples.running
                      (samples.result "backup"
                         (Some (errorString "exit status 1"))))).
    + vm_compute. reflexivity.
    + discriminate.
Defined.

(** *** ListWorkers *)

Lemma ListWorkers_fold (ExtractWorkerIP : string -> string)
    (kvs : list KeyValue) (acc : list string) :
  fold_left
    (fun workerArr kv => slice.append workerArr (ExtractWorkerIP (Key kv)))
    kvs (slice.elems acc)
  = slice.elems (acc ++ map (fun kv => ExtractWorkerIP (Key kv)) kvs).
Proof.
  revert acc. induction kvs as [| kv kvs IH]; intros acc; simpl.
  - by rewrite app_nil_r.
  - unfold slice.append at 2. simpl. rewrite IH. by rewrite <- app_assoc.
Qed.

(** C10: the list [ListWorkers] returns is never [nil].  When the directory
    holds no key the list is empty and there is no error; when the read
    fails the error comes back with the empty list.  In general the list
    holds the address of every key read, in order. *)
Theorem ListWorkers_non_nil
    (JOB_WORKER_DIR : string) (ExtractWorkerIP : string -> string)
    (workerMgr : WorkerMgr) :
  let '(workerArr, err) :=
    ListWorkers JOB_WORKER_DIR ExtractWorkerIP workerMgr in
  slice.is_nil workerArr = false
  ∧ match kv_Get workerMgr JOB_WORKER_DIR with
    | inl e => workerArr = slice.elems [] ∧ err = Some e
    | inr getResp =>
        workerArr =
          slice.elems (map (fun kv => ExtractWorkerIP (Key kv))
                         (slice.to_list (Kvs getResp)))
        ∧ err = None
        ∧ (slice.len (Kvs getResp) = 0%nat -> workerArr = slice.elems [])
    end.
Proof.
  unfold ListWorkers.
  destruct (kv_Get workerMgr JOB_WORKER_DIR) as [e | getResp].
  - done.
  - unfold slice.make. rewrite ListWorkers_fold. simpl.
    repeat split. unfold slice.len. intros Hlen.
    apply length_zero_iff_nil in Hlen. by rewrite Hlen.
Qed.

Lemma ListWorkers_non_nil_witness :
  ListWorkers samples.workers_dir samples.extract_ip samples.no_workers
  = (slice.elems [], None)
  ∧ ListWorkers samples.workers_dir samples.extract_ip
      samples.store_unreachable
    = (slice.elems [], Some (errorString "context deadline exceeded"))
  ∧ ListWorkers samples.workers_dir samples.extract_ip samples.two_workers
    = (slice.elems ["10.0.0.1"; "10.0.0.2"], None).
Proof.
  pose proof (ListWorkers_non_nil samples.workers_dir samples.extract_ip
                samples.no_workers) as Hnone.
  pose proof (ListWorkers_non_nil samples.workers_dir samples.extract_ip
                samples.store_unreachable) as Hdown.
  pose proof (ListWorkers_non_nil samples.workers_dir samples.extract_ip
                samples.two_workers) as Htwo.
  destruct (ListWorkers _ _ samples.no_workers) as [arr1 err1].
  destruct (ListWorkers _ _ samples.store_unreachable) as [arr2 err2].
  destruct (ListWorkers _ _ samples.two_workers) as [arr3 err3].
  cbn in Hnone, Hdown, Htwo.
  destruct Hnone as (_ & -> & -> & _), Hdown as (_ & -> & ->),
    Htwo as (_ & -> & -> & _).
  done.
Defined.

(** *** Who writes what *)

Lemma time_Now_eq (w : World) :
  time_Now w
  = (next_reading w,
     upd_clock (fun c => wallclock.mkClock (wallclock.readings c)
                           (S (wallclock.reads c))) w).
Proof. reflexivity. Qed.

Lemma TryStartJob_sink_side (w : World) (jobPlan : JobsSchedulerPlan) :
  sink_side (TryStartJob w jobPlan) = sink_side w
  ∧ logChan (TryStartJob w jobPlan) = logChan w
  ∧ G_config (TryStartJob w jobPlan) = G_config w
  ∧ jobPlanTable (TryStartJob w jobPlan) = jobPlanTable w.
Proof.
  unfold TryStartJob.
  destruct (jobExecutingTable w !! Job_Name (Plan_Job jobPlan)); done.
Qed.

Lemma TryScheduler_visit_sink_side (now : time.Time)
    (w w' : World) (nearTime nearTime' : option time.Time)
    (entry : string * JobsSchedulerPlan) :
  TryScheduler_visit now (w, nearTime) entry = (w', nearTime') ->
  sink_side w' = sink_side w ∧ logChan w' = logChan w
  ∧ G_config w' = G_config w.
Proof.
  destruct entry as [key jobPlan]. unfold TryScheduler_visit.
  destruct (TryStartJob_sink_side w jobPlan) as (Hs & Hl & Hc & _).
  destruct (time.Before (Plan_NextTime jobPlan) now
            || time.Equal (Plan_NextTime jobPlan) now);
    intros [= <- _]; done.
Qed.

Lemma TryScheduler_fold_sink_side (now : time.Time)
    (entries : list (string * JobsSchedulerPlan))
    (w w' : World) (nearTime nearTime' : option time.Time) :
  fold_left (TryScheduler_visit now) entries (w, nearTime) = (w', nearTime') ->
  sink_side w' = sink_side w ∧ logChan w' = logChan w
  ∧ G_config w' = G_config w.
Proof.
  revert w nearTime.
  induction entries as [| entry entries IH]; intros w nearTime;
    cbn [fold_left].
  - by intros [= <- _].
  - destruct (TryScheduler_visit now (w, nearTime) entry) as [w1 near1] eqn:E.
    intros Hfold. destruct (IH _ _ Hfold) as (Hs & Hl & Hc).
    destruct (TryScheduler_visit_sink_side _ _ _ _ _ _ E) as (Hs1 & Hl1 & Hc1).
    rewrite Hs, Hl, Hc. done.
Qed.

Lemma TryScheduler_over_sink_side
    (entries : list (string * JobsSchedulerPlan)) (w w' : World)
    (after : time.Duration) :
  TryScheduler_over entries w = (w', after) ->
  sink_side w' = sink_side w ∧ logChan w' = logChan w
  ∧ G_config w' = G_config w.
Proof.
  unfold TryScheduler_over. case_bool_decide; [by intros [= <- _] |].
  rewrite time_Now_eq.
  match goal with |- context [fold_left ?f ?l (?a, ?b)] =>
    destruct (fold_left f l (a, b)) as [w1 near1] eqn:E end.
  apply TryScheduler_fold_sink_side in E.
  destruct near1; intros [= <- _]; done.
Qed.

Lemma set_timer_sink_side (order : list string) (w : World) :
  sink_side (set_timer order w) = sink_side w
  ∧ logChan (set_timer order w) = logChan w
  ∧ G_config (set_timer order w) = G_config w.
Proof.
  unfold set_timer, TryScheduler.
  destruct (TryScheduler_over (range_in order (jobPlanTable w)) w)
    as [w1 d] eqn:E.
  apply TryScheduler_over_sink_side in E. done.
Qed.

Lemma reschedule_sink_side (order : list string) (w w' : World) :
  reschedule order w = Some w' ->
  sink_side w' = sink_side w ∧ logChan w' = logChan w
  ∧ G_config w' = G_config w.
Proof.
  unfold reschedule. case_bool_decide; [| done]. intros [= <-].
  apply set_timer_sink_side.
Qed.

Lemma handleJobEvent_sink_side
    (Parse : string -> option Expression) (w : World) (jobEvent : JobEvent) :
  sink_side (handleJobEvent Parse w jobEvent) = sink_side w
  ∧ logChan (handleJobEvent Parse w jobEvent) = logChan w
  ∧ G_config (handleJobEvent Parse w jobEvent) = G_config w.
Proof.
  unfold handleJobEvent.
  destruct (Event_EventType jobEvent); try done.
  - rewrite time_Now_eq.
    destruct (BulidJobSchedulerPlan _ _ _); done.
  - destruct (jobPlanTable w !! _); done.
  - destruct (jobExecutingTable w !! _); done.
Qed.

Lemma Append_sink_side (w : World) (jobLog : JobLog) :
  sink_side (Append w jobLog) = sink_side w
  ∧ scheduler_side (Append w jobLog) = scheduler_side w
  ∧ G_config (Append w jobLog) = G_config w.
Proof.
  unfold Append. destruct (channel.send (logChan w) jobLog); done.
Qed.

Lemma handleJobResult_sink_side
    (lockText : string) (w : World) (result : JobExecuteResult) :
  sink_side (handleJobResult lockText w result) = sink_side w
  ∧ G_config (handleJobResult lockText w result) = G_config w.
Proof.
  unfold handleJobResult. case_bool_decide; [| done].
  match goal with |- context [Append ?a ?b] =>
    destruct (Append_sink_side a b) as (Hs & _ & Hc) end.
  rewrite Hs, Hc. done.
Qed.

(** The scheduler's loop and its producers never write what belongs to the
    log sink. *)
Lemma scheduler_actions_sink_side
    (Parse : string -> option Expression) (lockText : string)
    (w w' : World) (a : Action) :
  match a with
  | watcher_pushes _ | executor_pushes _ | scheduler_turn _ _ => True
  | _ => False
  end ->
  step Parse lockText w a = Some w' ->
  sink_side w' = sink_side w ∧ G_config w' = G_config w.
Proof.
  destruct a as [jobEvent | jobResult | c order | | |]; try done;
    intros _; simpl.
  - unfold PushJobEvent. destruct (channel.send _ _); [| done].
    by intros [= <-].
  - unfold PushJobResult. destruct (channel.send _ _); [| done].
    by intros [= <-].
  - destruct c; simpl.
    + destruct (channel.recv (jobEventChan w)) as [[jobEvent ch] |]; [| done].
      intros Hre.
      destruct (reschedule_sink_side _ _ _ Hre) as (Hs & _ & Hc).
      rewrite Hs, Hc.
      match goal with |- context [handleJobEvent ?p ?x ?e] =>
        destruct (handleJobEvent_sink_side p x e) as (Hs' & _ & Hc') end.
      rewrite Hs', Hc'. done.
    + intros Hre.
      destruct (reschedule_sink_side _ _ _ Hre) as (Hs & _ & Hc). done.
    + destruct (channel.recv (jobResultChan w)) as [[jobResult ch] |]; [| done].
      intros Hre.
      destruct (reschedule_sink_side _ _ _ Hre) as (Hs & _ & Hc).
      rewrite Hs, Hc.
      match goal with |- context [handleJobResult ?p ?x ?e] =>
        destruct (handleJobResult_sink_side p x e) as (Hs' & Hc') end.
      rewrite Hs', Hc'. done.
Qed.

Lemma saveLogs_scheduler_side (w : World) (batch : nat) :
  scheduler_side (saveLogs w batch) = scheduler_side w
  ∧ logChan (saveLogs w batch) = logChan w
  ∧ G_config (saveLogs w batch) = G_config w.
Proof.
  unfold saveLogs. destruct (batches w !! batch) as [b |]; [| done].
  destruct (InsertMany (logCollection w) (Logs b)). done.
Qed.

Lemma Timer_Stop_scheduler_side (t : option nat) (w : World) :
  scheduler_side (Timer_Stop t w) = scheduler_side w
  ∧ logChan (Timer_Stop t w) = logChan w
  ∧ G_config (Timer_Stop t w) = G_config w.
Proof. destruct t; done. Qed.

Lemma saveLogs_commitTimer (w : World) (batch : nat) :
  commitTimer (saveLogs w batch) = commitTimer w.
Proof.
  unfold saveLogs. destruct (batches w !! batch) as [b |]; [| done].
  by destruct (InsertMany _ _).
Qed.

Lemma writeLoop_log_open (w : World) (batch : nat) (log : JobLog) :
  logBatch w = Some batch ->
  writeLoop_log w log = add_to_batch w batch log.
Proof.
  intros E. unfold writeLoop_log, add_to_batch. rewrite E. cbn zeta.
  rewrite E. case_bool_decide; [| done].
  cbn [upd_logBatch commitTimer]. by rewrite saveLogs_commitTimer.
Qed.

Lemma writeLoop_log_idle (w : World) (log : JobLog) :
  logBatch w = None ->
  writeLoop_log w log = add_to_batch (open_batch w) (length (batches w)) log.
Proof.
  intros E. unfold writeLoop_log. rewrite E.
  cbn [time_AfterFunc upd_commitTimer upd_timers upd_logBatch upd_batches
       logBatch G_config timers].
  apply (writeLoop_log_open (open_batch w)). reflexivity.
Qed.

Lemma add_to_batch_scheduler_side (w : World) (batch : nat) (log : JobLog) :
  scheduler_side (add_to_batch w batch log) = scheduler_side w
  ∧ logChan (add_to_batch w batch log) = logChan w
  ∧ G_config (add_to_batch w batch log) = G_config w.
Proof.
  unfold add_to_batch. cbn zeta. case_bool_decide; [| done].
  match goal with |- context [Timer_Stop ?t ?x] =>
    destruct (Timer_Stop_scheduler_side t x) as (-> & -> & ->) end.
  match goal with |- context [saveLogs ?x ?b] =>
    destruct (saveLogs_scheduler_side x b) as (Hs & Hl & Hc) end.
  unfold scheduler_side in *. cbn in *. split_and!; congruence.
Qed.

Lemma writeLoop_log_scheduler_side (w : World) (log : JobLog) :
  scheduler_side (writeLoop_log w log) = scheduler_side w
  ∧ logChan (writeLoop_log w log) = logChan w
  ∧ G_config (writeLoop_log w log) = G_config w.
Proof.
  destruct (logBatch w) as [batch |] eqn:E.
  - rewrite (writeLoop_log_open _ _ _ E). apply add_to_batch_scheduler_side.
  - rewrite (writeLoop_log_idle _ _ E).
    destruct (add_to_batch_scheduler_side (open_batch w)
                (length (batches w)) log) as (-> & -> & ->).
    done.
Qed.

Lemma writeLoop_timeout_scheduler_side (w : World) (timeoutBatch : nat) :
  scheduler_side (writeLoop_timeout w timeoutBatch) = scheduler_side w
  ∧ logChan (writeLoop_timeout w timeoutBatch) = logChan w
  ∧ G_config (writeLoop_timeout w timeoutBatch) = G_config w.
Proof.
  unfold writeLoop_timeout. case_bool_decide; [done |].
  destruct (saveLogs_scheduler_side w timeoutBatch) as (Hs & Hl & Hc).
  unfold scheduler_side in *. cbn in *. split_and!; congruence.
Qed.

(** The log sink's loop and its timers never write what belongs to the
    scheduler. *)
Lemma sink_actions_scheduler_side
    (Parse : string -> option Expression) (lockText : string)
    (w w' : World) (a : Action) :
  match a with
  | sink_turn _ | runtime_expires _ | runtime_sends _ => True
  | _ => False
  end ->
  step Parse lockText w a = Some w' ->
  scheduler_side w' = scheduler_side w ∧ G_config w' = G_config w.
Proof.
  destruct a as [| | | c | t | i]; try done; intros _; simpl.
  - destruct c; simpl.
    + destruct (channel.recv (logChan w)) as [[log ch] |]; [| done].
      intros [= <-].
      match goal with |- context [writeLoop_log ?x ?l] =>
        destruct (writeLoop_log_scheduler_side x l) as (-> & _ & ->) end.
      done.
    + destruct (channel.recv (autoCommitChan w)) as [[b ch] |]; [| done].
      intros [= <-].
      match goal with |- context [writeLoop_timeout ?x ?l] =>
        destruct (writeLoop_timeout_scheduler_side x l) as (-> & _ & ->) end.
      done.
  - unfold timer_expires. destruct (timers w !! t) as [tm |]; [| done].
    destruct (Timer_active tm); [| done]. by intros [= <-].
  - unfold timer_sends. destruct (sending w !! i) as [b |]; [| done].
    destruct (channel.send _ _); [| done]. by intros [= <-].
Qed.

(** *** The tracker *)

Lemma TryStartJob_tracker_keyed (w : World) (jobPlan : JobsSchedulerPlan) :
  tracker_keyed w -> tracker_keyed (TryStartJob w jobPlan).
Proof.
  intros Hkeyed. unfold TryStartJob.
  destruct (jobExecutingTable w !! Job_Name (Plan_Job jobPlan)) eqn:E;
    [done |].
  intros key jobExecuteInfo. rewrite time_Now_eq.
  cbn [ExecuteJob Println upd_G_executor upd_stdout upd_jobExecutingTable
       upd_contexts upd_clock jobExecutingTable].
  destruct (decide (key = Job_Name (Plan_Job jobPlan))) as [-> | Hne].
  - rewrite lookup_insert_eq. by intros [= <-].
  - rewrite lookup_insert_ne by done. apply Hkeyed.
Qed.

Lemma TryScheduler_fold_tracker_keyed (now : time.Time)
    (entries : list (string * JobsSchedulerPlan))
    (w w' : World) (nearTime nearTime' : option time.Time) :
  fold_left (TryScheduler_visit now) entries (w, nearTime) = (w', nearTime') ->
  tracker_keyed w -> tracker_keyed w'.
Proof.
  revert w nearTime.
  induction entries as [| [key jobPlan] entries IH]; intros w nearTime;
    cbn [fold_left].
  - by intros [= <- _].
  - destruct (TryScheduler_visit now (w, nearTime) (key, jobPlan))
      as [w1 near1] eqn:E.
    intros Hfold Hkeyed. apply (IH _ _ Hfold).
    unfold TryScheduler_visit in E.
    destruct (time.Before (Plan_NextTime jobPlan) now
              || time.Equal (Plan_NextTime jobPlan) now);
      injection E as <- _; [| done].
    apply (TryStartJob_tracker_keyed _ jobPlan) in Hkeyed. exact Hkeyed.
Qed.

Lemma set_timer_tracker_keyed (order : list string) (w : World) :
  tracker_keyed w -> tracker_keyed (set_timer order w).
Proof.
  intros Hkeyed. unfold set_timer, TryScheduler, TryScheduler_over.
  case_bool_decide; [done |]. rewrite time_Now_eq.
  match goal with |- context [fold_left ?f ?l (?a, ?b)] =>
    destruct (fold_left f l (a, b)) as [w1 near1] eqn:E end.
  apply TryScheduler_fold_tracker_keyed in E; [| done].
  destruct near1; exact E.
Qed.

Lemma reschedule_tracker_keyed (order : list string) (w w' : World) :
  reschedule order w = Some w' -> tracker_keyed w -> tracker_keyed w'.
Proof.
  unfold reschedule. case_bool_decide; [| done]. intros [= <-].
  apply set_timer_tracker_keyed.
Qed.

Lemma handleJobEvent_tracker
    (Parse : string -> option Expression) (w : World) (jobEvent : JobEvent) :
  jobExecutingTable (handleJobEvent Parse w jobEvent) = jobExecutingTable w.
Proof.
  unfold handleJobEvent. destruct (Event_EventType jobEvent); try done.
  - rewrite time_Now_eq. by destruct (BulidJobSchedulerPlan _ _ _).
  - by destruct (jobPlanTable w !! _).
  - by destruct (jobExecutingTable w !! _).
Qed.

Lemma handleJobResult_tracker
    (lockText : string) (w : World) (result : JobExecuteResult) :
  jobExecutingTable (handleJobResult lockText w result)
  = delete (Job_Name (Info_Job (Result_ExecuteInfo result)))
      (jobExecutingTable w).
Proof.
  unfold handleJobResult. case_bool_decide; [| done].
  unfold Append. by destruct (channel.send _ _).
Qed.

Lemma scheduler_side_tracker (w w' : World) :
  scheduler_side w' = scheduler_side w ->
  jobExecutingTable w' = jobExecutingTable w.
Proof. unfold scheduler_side. congruence. Qed.

Lemma step_tracker_keyed
    (Parse : string -> option Expression) (lockText : string)
    (w w' : World) (a : Action) :
  step Parse lockText w a = Some w' -> tracker_keyed w -> tracker_keyed w'.
Proof.
  intros Hstep Hkeyed.
  destruct a as [jobEvent | jobResult | c order | c | t | i].
  4-6: apply sink_actions_scheduler_side in Hstep as [Hside _]; [| done];
       unfold tracker_keyed; by rewrite (scheduler_side_tracker _ _ Hside).
  - simpl in Hstep. unfold PushJobEvent in Hstep.
    destruct (channel.send _ _); by simplify_eq.
  - simpl in Hstep. unfold PushJobResult in Hstep.
    destruct (channel.send _ _); by simplify_eq.
  - destruct c; simpl in Hstep.
    + destruct (channel.recv (jobEventChan w)) as [[jobEvent ch] |];
        [| done].
      apply (reschedule_tracker_keyed _ _ _ Hstep).
      unfold tracker_keyed. by rewrite handleJobEvent_tracker.
    + by apply (reschedule_tracker_keyed _ _ _ Hstep).
    + destruct (channel.recv (jobResultChan w)) as [[jobResult ch] |];
        [| done].
      apply (reschedule_tracker_keyed _ _ _ Hstep).
      unfold tracker_keyed. rewrite handleJobResult_tracker.
      intros key jobExecuteInfo Hlookup.
      apply lookup_delete_Some in Hlookup as [_ Hlookup].
      by apply Hkeyed.
Qed.

(** A property kept by every action holds at the end of every run. *)
Lemma run_invariant
    (Parse : string -> option Expression) (lockText : string)
    (P : World -> Prop) :
  (∀ w a w', step Parse lockText w a = Some w' -> P w -> P w') ->
  ∀ actions w w', run Parse lockText w actions = Some w' -> P w -> P w'.
Proof.
  intros Hstep actions.
  induction actions as [| a actions IH]; intros w w'; simpl.
  - by intros [= <-].
  - destruct (step Parse lockText w a) as [w1 |] eqn:E; [| done].
    intros Hrun HP. apply (IH _ _ Hrun). by apply (Hstep _ _ _ E).
Qed.

Lemma started_tracker_keyed (cfg : Config) (storeOutcomes : nat -> bool)
    (instants : nat -> time.Time) :
  tracker_keyed (started cfg storeOutcomes instants).
Proof. apply set_timer_tracker_keyed. by intros key jobExecuteInfo. Qed.

Lemma handles_of_absent (name : string)
    (l : list (string * JobExecuteInfo)) :
  (∀ key jobExecuteInfo, (key, jobExecuteInfo) ∈ l ->
     Job_Name (Info_Job jobExecuteInfo) = key) ->
  name ∉ l.*1 ->
  filter (fun jobExecuteInfo => Job_Name (Info_Job jobExecuteInfo) = name)
    (l.*2) = [].
Proof.
  induction l as [| [key jobExecuteInfo] l IH]; intros Hkeyed Hnotin; [done |].
  cbn [fmap list_fmap snd]. rewrite filter_cons.
  destruct (decide (Job_Name (Info_Job jobExecuteInfo) = name)) as [Heq | _].
  - exfalso. apply Hnotin. rewrite <- Heq.
    rewrite (Hkeyed key jobExecuteInfo) by apply list_elem_of_here.
    apply list_elem_of_here.
  - apply IH.
    + intros key' info' Hin. apply Hkeyed. by apply list_elem_of_further.
    + intros Hin. apply Hnotin. by apply list_elem_of_further.
Qed.

Lemma handles_of_at_most_one (name : string) (w : World) :
  tracker_keyed w -> (length (handles_of name w) ≤ 1)%nat.
Proof.
  intros Hkeyed. unfold handles_of.
  assert (Hin : ∀ key jobExecuteInfo,
             (key, jobExecuteInfo) ∈ map_to_list (jobExecutingTable w) ->
             Job_Name (Info_Job jobExecuteInfo) = key).
  { intros key jobExecuteInfo Hin. apply Hkeyed.
    by apply elem_of_map_to_list. }
  pose proof (NoDup_fst_map_to_list (jobExecutingTable w)) as Hnodup.
  induction (map_to_list (jobExecutingTable w)) as [| [key info] l IH];
    [simpl; lia |].
  cbn [fmap list_fmap fst snd] in *. apply NoDup_cons in Hnodup as [Hnotin Hnodup].
  rewrite filter_cons.
  destruct (decide (Job_Name (Info_Job info) = name)) as [Heq | _].
  - rewrite handles_of_absent; [simpl; lia | |].
    + intros key' info' Hin'. apply Hin. by apply list_elem_of_further.
    + rewrite <- Heq. by rewrite (Hin key info) by apply list_elem_of_here.
  - apply IH; [| done].
    intros key' info' Hin'. apply Hin. by apply list_elem_of_further.
Qed.

(** C1: a dispatch attempt for a plan whose job name has a handle in the
    tracker changes nothing, whatever the state: no handle is inserted,
    nothing is printed and [ExecuteJob] is not called.  And in every state
    the worker can reach, the tracker holds at most one handle for each job
    name. *)
Theorem TryStartJob_at_most_one
    (Parse : string -> option Expression) (lockText : string)
    (cfg : Config) (storeOutcomes : nat -> bool)
    (instants : nat -> time.Time) (actions : list Action) (w : World) :
  run Parse lockText (started cfg storeOutcomes instants) actions = Some w ->
  (∀ name, (length (handles_of name w) ≤ 1)%nat)
  ∧ (∀ (w0 : World) (jobPlan : JobsSchedulerPlan),
       is_Some (jobExecutingTable w0 !! Job_Name (Plan_Job jobPlan)) ->
       TryStartJob w0 jobPlan = w0
       ∧ jobExecutingTable (TryStartJob w0 jobPlan) = jobExecutingTable w0
       ∧ G_executor (TryStartJob w0 jobPlan) = G_executor w0).
Proof.
  intros Hrun. split.
  - intros name. apply handles_of_at_most_one.
    apply (run_invariant Parse lockText tracker_keyed
             (fun w a w' => step_tracker_keyed Parse lockText w w' a)
             _ _ _ Hrun).
    apply started_tracker_keyed.
  - intros w0 jobPlan [jobExecuteInfo Hsome]. unfold TryStartJob.
    by rewrite Hsome.
Qed.

Example dispatched_handle :
  jobExecutingTable samples.dispatched !! "backup"
  = Some (mkInfo (samples.job "backup") 1000000000 1250000000 0).
Proof. vm_compute. reflexivity. Qed.

Lemma TryStartJob_at_most_one_witness :
  (∀ name, (length (handles_of name samples.dispatched) ≤ 1)%nat)
  ∧ TryStartJob samples.dispatched
      (mkPlan (samples.job "backup") samples.every_second 2000000000)
    = samples.dispatched.
Proof.
  destruct (TryStartJob_at_most_one samples.parse "busy" samples.config
              (fun _ => true) samples.instants samples.dispatch_run
              samples.dispatched) as [Hone Hnoop].
  - vm_compute. reflexivity.
  - split; [exact Hone |]. apply Hnoop. vm_compute. eauto.
Defined.

(** *** One execution at a time *)

Lemma TryStartJob_ledger (name : string) (w : World)
    (jobPlan : JobsSchedulerPlan) :
  ledger name (TryStartJob w jobPlan) = ledger name w.
Proof.
  unfold TryStartJob.
  destruct (jobExecutingTable w !! Job_Name (Plan_Job jobPlan)) eqn:E;
    [done |].
  rewrite time_Now_eq. unfold ledger, dispatches, idle_slot.
  cbn [ExecuteJob Println upd_G_executor upd_stdout upd_jobExecutingTable
       upd_contexts upd_clock jobExecutingTable G_executor jobResultChan].
  rewrite filter_app, length_app, filter_cons, filter_nil.
  cbn [BuildJobExecuteInfo Info_Job].
  destruct (decide (Job_Name (Plan_Job jobPlan) = name)) as [<- | Hne].
  - rewrite lookup_insert_eq, E. cbn [length]. lia.
  - rewrite lookup_insert_ne by done. cbn [length]. lia.
Qed.

Lemma TryScheduler_fold_ledger (name : string) (now : time.Time)
    (entries : list (string * JobsSchedulerPlan))
    (w w' : World) (nearTime nearTime' : option time.Time) :
  fold_left (TryScheduler_visit now) entries (w, nearTime) = (w', nearTime') ->
  ledger name w' = ledger name w.
Proof.
  revert w nearTime.
  induction entries as [| [key jobPlan] entries IH]; intros w nearTime;
    cbn [fold_left].
  - by intros [= <- _].
  - destruct (TryScheduler_visit now (w, nearTime) (key, jobPlan))
      as [w1 near1] eqn:E.
    intros Hfold. rewrite (IH _ _ Hfold).
    unfold TryScheduler_visit in E.
    destruct (time.Before (Plan_NextTime jobPlan) now
              || time.Equal (Plan_NextTime jobPlan) now);
      injection E as <- _; [| done].
    apply (TryStartJob_ledger name w jobPlan).
Qed.

Lemma reschedule_ledger (name : string) (order : list string)
    (w w' : World) :
  reschedule order w = Some w' -> ledger name w' = ledger name w.
Proof.
  unfold reschedule. case_bool_decide; [| done]. intros [= <-].
  unfold set_timer, TryScheduler, TryScheduler_over.
  case_bool_decide; [done |]. rewrite time_Now_eq.
  match goal with |- context [fold_left ?f ?l (?a, ?b)] =>
    destruct (fold_left f l (a, b)) as [w1 near1] eqn:E end.
  apply (TryScheduler_fold_ledger name) in E. by destruct near1.
Qed.

Lemma handleJobEvent_ledger (name : string)
    (Parse : string -> option Expression) (w : World) (jobEvent : JobEvent) :
  ledger name (handleJobEvent Parse w jobEvent) = ledger name w.
Proof.
  unfold handleJobEvent. destruct (Event_EventType jobEvent); try done.
  - rewrite time_Now_eq. by destruct (BulidJobSchedulerPlan _ _ _).
  - by destruct (jobPlanTable w !! _).
  - by destruct (jobExecutingTable w !! _).
Qed.

Lemma handleJobResult_ledger (name : string) (lockText : string)
    (w : World) (jobResult : JobExecuteResult) :
  (ledger name (handleJobResult lockText w jobResult)
   ≤ ledger name w + results_for name [jobResult])%nat.
Proof.
  assert (Hrest : dispatches name (handleJobResult lockText w jobResult)
                  = dispatches name w
                  ∧ jobResultChan (handleJobResult lockText w jobResult)
                    = jobResultChan w).
  { unfold handleJobResult. case_bool_decide; [| done].
    unfold Append. by destruct (channel.send _ _). }
  destruct Hrest as [Hd Hc]. unfold ledger. rewrite Hd, Hc.
  unfold idle_slot. rewrite handleJobResult_tracker.
  unfold results_for. rewrite filter_cons, filter_nil.
  destruct (decide (Job_Name (Info_Job (Result_ExecuteInfo jobResult)) = name))
    as [-> | Hne].
  - rewrite lookup_delete_eq. destruct (jobExecutingTable w !! _); simpl; lia.
  - rewrite lookup_delete_ne by done. simpl. lia.
Qed.

Lemma scheduler_side_ledger (name : string) (w w' : World) :
  scheduler_side w' = scheduler_side w -> ledger name w' = ledger name w.
Proof.
  unfold scheduler_side, ledger, dispatches, idle_slot.
  by intros [= _ _ -> -> _ _ _ ->].
Qed.

Lemma step_ledger
    (Parse : string -> option Expression) (lockText : string)
    (name : string) (w w' : World) (a : Action) :
  step Parse lockText w a = Some w' ->
  (ledger name w' ≤ ledger name w + pushed name [a])%nat.
Proof.
  intros Hstep.
  destruct a as [jobEvent | jobResult | c order | c | t | i].
  4-6: cbn [pushed];
       apply sink_actions_scheduler_side in Hstep as [Hside _]; [| done];
       rewrite (scheduler_side_ledger _ _ _ Hside); lia.
  - simpl in Hstep. unfold PushJobEvent in Hstep.
    destruct (channel.send _ _); [| done]. injection Hstep as <-.
    cbn [pushed]. unfold ledger, dispatches, idle_slot. cbn. lia.
  - simpl in Hstep. unfold PushJobResult, channel.send in Hstep.
    destruct (channel.full _); [done |]. injection Hstep as <-.
    cbn [pushed]. unfold ledger, dispatches, idle_slot, results_for.
    cbn [upd_jobResultChan jobResultChan G_executor jobExecutingTable
         channel.buf].
    rewrite filter_app, length_app. lia.
  - cbn [pushed]. destruct c; simpl in Hstep.
    + destruct (channel.recv (jobEventChan w)) as [[jobEvent ch] |];
        [| done].
      rewrite (reschedule_ledger _ _ _ _ Hstep), handleJobEvent_ledger.
      unfold ledger, dispatches, idle_slot. cbn. lia.
    + rewrite (reschedule_ledger _ _ _ _ Hstep). lia.
    + unfold channel.recv in Hstep.
      destruct (channel.buf (jobResultChan w)) as [| jobResult l] eqn:Ebuf;
        [done |].
      rewrite (reschedule_ledger _ _ _ _ Hstep).
      etrans; [apply handleJobResult_ledger |].
      unfold ledger, dispatches, idle_slot, results_for.
      cbn [upd_jobResultChan jobResultChan G_executor jobExecutingTable
           channel.buf].
      rewrite Ebuf. rewrite (filter_cons _ jobResult l).
      rewrite filter_cons, filter_nil.
      destruct (decide _); cbn [length]; lia.
Qed.

Lemma pushed_cons (name : string) (a : Action) (actions : list Action) :
  pushed name (a :: actions) = (pushed name [a] + pushed name actions)%nat.
Proof. destruct a; cbn [pushed]; lia. Qed.

Lemma run_ledger
    (Parse : string -> option Expression) (lockText : string)
    (name : string) (actions : list Action) (w w' : World) :
  run Parse lockText w actions = Some w' ->
  (ledger name w' ≤ ledger name w + pushed name actions)%nat.
Proof.
  revert w. induction actions as [| a actions IH]; intros w.
  - intros [= <-]. cbn [pushed]. lia.
  - cbn [run]. destruct (step Parse lockText w a) as [w1 |] eqn:E; [| done].
    intros Hrun. apply IH in Hrun.
    apply (step_ledger _ _ name) in E. rewrite pushed_cons. lia.
Qed.

(** X1: at most one execution of a job is under way.  In every run, the
    calls of [ExecuteJob] for a job name exceed by at most one the results
    for that name that the scheduler has taken from its result channel. *)
Theorem dispatches_bounded
    (Parse : string -> option Expression) (lockText : string)
    (cfg : Config) (storeOutcomes : nat -> bool)
    (instants : nat -> time.Time) (actions : list Action) (w : World)
    (name : string) :
  run Parse lockText (started cfg storeOutcomes instants) actions = Some w ->
  (dispatches name w + results_for name (channel.buf (jobResultChan w))
   ≤ pushed name actions + 1)%nat.
Proof.
  intros Hrun. apply (run_ledger _ _ name) in Hrun.
  assert (Hstart : ledger name (started cfg storeOutcomes instants) = 1%nat)
    by reflexivity.
  unfold ledger in *. lia.
Qed.

(** *** TryScheduler *)

Lemma elem_of_range_in (order : list string)
    (t : gmap string JobsSchedulerPlan) (key : string)
    (jobPlan : JobsSchedulerPlan) :
  (key, jobPlan) ∈ range_in order t <-> key ∈ order ∧ t !! key = Some jobPlan.
Proof.
  unfold range_in. rewrite list_elem_of_omap. split.
  - intros (key' & Hin & Hsome).
    destruct (t !! key') as [jobPlan' |] eqn:E; simplify_eq/=. done.
  - intros [Hin Hsome]. exists key. by rewrite Hsome.
Qed.

Lemma range_in_keys_NoDup (order : list string)
    (t : gmap string JobsSchedulerPlan) :
  NoDup order -> NoDup (range_in order t).*1.
Proof.
  induction 1 as [| key order Hnotin Hnodup IH]; [constructor |].
  unfold range_in. cbn [omap list_omap].
  destruct (t !! key) as [jobPlan |] eqn:E; cbn [fmap option_fmap option_map];
    [| exact IH].
  cbn [fmap list_fmap fst]. constructor; [| exact IH].
  intros Hin. apply list_elem_of_fmap in Hin as ([key' jobPlan'] & -> & Hin).
  by apply elem_of_range_in in Hin as [Hin _].
Qed.

Lemma TryScheduler_visit_eq (now : time.Time) (w w' : World)
    (nearTime nearTime' : option time.Time) (key : string)
    (jobPlan : JobsSchedulerPlan) :
  TryScheduler_visit now (w, nearTime) (key, jobPlan) = (w', nearTime') ->
  jobPlanTable w' =
    (if due now jobPlan then <[key := advance now jobPlan]> (jobPlanTable w)
     else jobPlanTable w)
  ∧ nearTime' = Some (earlier (Plan_NextTime (advance now jobPlan)) nearTime).
Proof.
  unfold TryScheduler_visit, advance, due.
  destruct (TryStartJob_sink_side w jobPlan) as (_ & _ & _ & Hplans).
  destruct (time.Before (Plan_NextTime jobPlan) now
            || time.Equal (Plan_NextTime jobPlan) now);
    intros [= <- <-]; cbn [upd_jobPlanTable jobPlanTable Plan_NextTime];
    rewrite ?Hplans; (split; [done |]); unfold earlier;
    destruct nearTime as [u |]; [| done | | done];
    by destruct (time.Before _ u).
Qed.

Lemma advance_not_due (now : time.Time) (jobPlan : JobsSchedulerPlan) :
  due now jobPlan = false -> advance now jobPlan = jobPlan.
Proof. unfold advance. by intros ->. Qed.

(** After the loop, each plan visited has been advanced and the others are as
    they were. *)
Lemma TryScheduler_fold_plans (now : time.Time)
    (entries : list (string * JobsSchedulerPlan))
    (w w' : World) (nearTime nearTime' : option time.Time) :
  fold_left (TryScheduler_visit now) entries (w, nearTime) = (w', nearTime') ->
  NoDup entries.*1 ->
  (∀ key jobPlan, (key, jobPlan) ∈ entries ->
     jobPlanTable w !! key = Some jobPlan) ->
  ∀ key,
    jobPlanTable w' !! key =
      if decide (key ∈ entries.*1)
      then advance now <$> jobPlanTable w !! key
      else jobPlanTable w !! key.
Proof.
  revert w nearTime.
  induction entries as [| [key0 jobPlan0] entries IH]; intros w nearTime;
    cbn [fold_left].
  - intros [= <- _] _ _ key. rewrite decide_False; [done | by inversion 1].
  - destruct (TryScheduler_visit now (w, nearTime) (key0, jobPlan0))
      as [w1 near1] eqn:E.
    intros Hfold Hnodup Hentries key.
    cbn [fmap list_fmap fst] in Hnodup.
    apply NoDup_cons in Hnodup as [Hnotin Hnodup].
    apply TryScheduler_visit_eq in E as [Hplans1 _].
    assert (Hplans1' : jobPlanTable w1
                       = <[key0 := advance now jobPlan0]> (jobPlanTable w)).
    { rewrite Hplans1. destruct (due now jobPlan0) eqn:Hdue; [done |].
      rewrite advance_not_due by done. symmetry. apply insert_id.
      apply Hentries, list_elem_of_here. }
    clear Hplans1.
    rewrite (IH _ _ Hfold Hnodup); cycle 1.
    { intros key' jobPlan' Hin. rewrite Hplans1'.
      rewrite lookup_insert_ne.
      - by apply Hentries, list_elem_of_further.
      - intros ->. apply Hnotin. apply list_elem_of_fmap.
        by exists (key', jobPlan'). }
    rewrite Hplans1'. cbn [fmap list_fmap fst].
    destruct (decide (key = key0)) as [-> | Hne].
    + rewrite lookup_insert_eq. rewrite decide_False by done.
      rewrite decide_True by apply list_elem_of_here.
      by rewrite (Hentries key0 jobPlan0) by apply list_elem_of_here.
    + rewrite lookup_insert_ne by done.
      destruct (decide (key ∈ entries.*1)) as [Hin | Hnin].
      * rewrite decide_True; [done | by apply list_elem_of_further].
      * rewrite decide_False; [done |].
        intros [-> | Hin]%elem_of_cons; done.
Qed.

Lemma earlier_le (t : time.Time) (nearTime : option time.Time) :
  earlier t nearTime ≤ t
  ∧ (∀ u, nearTime = Some u -> earlier t nearTime ≤ u)
  ∧ (earlier t nearTime = t ∨ nearTime = Some (earlier t nearTime)).
Proof.
  unfold earlier, time.Before. destruct nearTime as [u |].
  - destruct (Z.ltb_spec t u) as [Hlt | Hge].
    + split_and!; [lia | intros ? [= <-]; lia | by left].
    + split_and!; [lia | intros ? [= <-]; lia | by right].
  - split_and!; [lia | done | by left].
Qed.

(** After the loop, [nearTime] points to the earliest next-fire time among
    the advanced plans and what it pointed to before. *)
Lemma TryScheduler_fold_nearTime (now : time.Time)
    (entries : list (string * JobsSchedulerPlan))
    (w w' : World) (nearTime nearTime' : option time.Time) :
  fold_left (TryScheduler_visit now) entries (w, nearTime) = (w', nearTime') ->
  (entries = [] ∧ nearTime' = nearTime)
  ∨ (∃ t, nearTime' = Some t
       ∧ (∀ key jobPlan, (key, jobPlan) ∈ entries ->
            t ≤ Plan_NextTime (advance now jobPlan))
       ∧ (∀ u, nearTime = Some u -> t ≤ u)
       ∧ (nearTime = Some t
          ∨ ∃ key jobPlan, (key, jobPlan) ∈ entries
              ∧ t = Plan_NextTime (advance now jobPlan))).
Proof.
  revert w nearTime.
  induction entries as [| [key0 jobPlan0] entries IH]; intros w nearTime;
    cbn [fold_left].
  - intros [= <- <-]. by left.
  - destruct (TryScheduler_visit now (w, nearTime) (key0, jobPlan0))
      as [w1 near1] eqn:E.
    intros Hfold. right.
    apply TryScheduler_visit_eq in E as [_ ->].
    set (t0 := Plan_NextTime (advance now jobPlan0)) in *.
    destruct (earlier_le t0 nearTime) as (Hle0 & Hleu & Hor).
    destruct (IH _ _ Hfold) as [[-> ->] | (t & -> & Hall & Hprev & Hfrom)].
    + exists (earlier t0 nearTime). split_and!; [done | | done |].
      * intros key jobPlan [[= -> ->] | Hin]%elem_of_cons; [done |].
        by inversion Hin.
      * destruct Hor as [Heq | Heq]; [right | by left].
        exists key0, jobPlan0. split; [apply list_elem_of_here | done].
    + specialize (Hprev _ eq_refl).
      exists t. split_and!; [done | | |].
      * intros key jobPlan [[= -> ->] | Hin]%elem_of_cons; [fold t0; lia |].
        by apply (Hall key).
      * intros u Hu. specialize (Hleu u Hu). lia.
      * destruct Hfrom as [[= Heq] | (key & jobPlan & Hin & Heq)].
        -- destruct Hor as [Heq' | Heq'];
             [right | left; rewrite <- Heq; exact Heq'].
           exists key0, jobPlan0.
           split; [apply list_elem_of_here | by rewrite <- Heq].
        -- right. exists key, jobPlan.
           split; [by apply list_elem_of_further | done].
Qed.

Lemma range_order_elem (order : list string)
    (t : gmap string JobsSchedulerPlan) (key : string) :
  range_order order t -> key ∈ order <-> is_Some (t !! key).
Proof.
  intros [_ Hdom]. rewrite <- elem_of_dom, <- Hdom. by rewrite elem_of_list_to_set.
Qed.

Lemma Sub_positive (t now : time.Time) : now < t -> 0 < time.Sub t now.
Proof.
  intros Hlt. unfold time.Sub, time.minDuration, time.maxDuration.
  destruct (Z.ltb_spec (t - now) (- 2 ^ 63)); [lia |].
  destruct (Z.ltb_spec (2 ^ 63 - 1) (t - now)); lia.
Qed.

Lemma not_due_later (now : time.Time) (jobPlan : JobsSchedulerPlan) :
  due now jobPlan = false -> now < Plan_NextTime jobPlan.
Proof.
  unfold due, time.Before, time.Equal. intros H.
  apply orb_false_iff in H as [H1 H2].
  apply Z.ltb_ge in H1. apply Z.eqb_neq in H2. lia.
Qed.

(** C3, amended: on a plan table that is not empty [TryScheduler] advances
    every due plan to its trigger's next activation after [now], and returns
    the earliest next-fire time of the table so advanced minus [now], as
    [Sub] computes it and with no clamping; that delay is positive when the
    trigger of every due plan answers an instant after [now]. *)
Theorem TryScheduler_delay (order : list string) (w : World) :
  range_order order (jobPlanTable w) ->
  size (jobPlanTable w) ≠ 0%nat ->
  let now := next_reading w in
  ∃ w' nearTime,
    TryScheduler order w = (w', time.Sub nearTime now)
    ∧ jobPlanTable w' = advance now <$> jobPlanTable w
    ∧ (∃ key jobPlan,
         jobPlanTable w' !! key = Some jobPlan
         ∧ Plan_NextTime jobPlan = nearTime)
    ∧ (∀ key jobPlan,
         jobPlanTable w' !! key = Some jobPlan ->
         nearTime ≤ Plan_NextTime jobPlan)
    ∧ ((∀ key jobPlan,
          jobPlanTable w !! key = Some jobPlan ->
          due now jobPlan = true ->
          now < Next (Plan_Expr jobPlan) now) ->
       0 < time.Sub nearTime now).
Proof.
  intros Horder Hsize now.
  unfold TryScheduler, TryScheduler_over.
  rewrite bool_decide_eq_false_2 by done. rewrite time_Now_eq. fold now.
  set (entries := range_in order (jobPlanTable w)).
  match goal with |- context [fold_left ?f entries (?a, None)] =>
    destruct (fold_left f entries (a, None)) as [w' nearTime'] eqn:E end.
  assert (Hplans : jobPlanTable w' = advance now <$> jobPlanTable w).
  { apply map_eq. intros key.
    rewrite (TryScheduler_fold_plans _ _ _ _ _ _ E).
    - cbn [upd_clock jobPlanTable]. rewrite lookup_fmap.
      case_decide as Hin; [done |].
      destruct (jobPlanTable w !! key) as [jobPlan |] eqn:Hsome; [| done].
      exfalso. apply Hin. apply list_elem_of_fmap. exists (key, jobPlan).
      split; [done |]. apply elem_of_range_in. split; [| done].
      apply (range_order_elem _ _ _ Horder). by rewrite Hsome.
    - apply range_in_keys_NoDup, Horder.
    - intros key' jobPlan Hin. by apply elem_of_range_in in Hin as [_ Hin]. }
  assert (Hadvanced : ∀ key jobPlan,
             jobPlanTable w' !! key = Some jobPlan <->
             ∃ jobPlan0, (key, jobPlan0) ∈ entries
                         ∧ jobPlan = advance now jobPlan0).
  { intros key jobPlan. rewrite Hplans, lookup_fmap, fmap_Some.
    split; intros (jobPlan0 & H0 & ->); exists jobPlan0; split; try done.
    - apply elem_of_range_in. split; [| done].
      apply (range_order_elem _ _ _ Horder). by rewrite H0.
    - by apply elem_of_range_in in H0 as [_ H0]. }
  destruct (TryScheduler_fold_nearTime _ _ _ _ _ _ E)
    as [[Hnil _] | (t & -> & Hall & _ & Hfrom)].
  { exfalso. apply Hsize. apply map_size_empty_iff, map_empty. intros key.
    destruct (jobPlanTable w !! key) as [jobPlan |] eqn:Hsome; [| done].
    assert (Hin : (key, jobPlan) ∈ entries).
    { apply elem_of_range_in. split; [| done].
      apply (range_order_elem _ _ _ Horder). by rewrite Hsome. }
    rewrite Hnil in Hin. by inversion Hin. }
  destruct Hfrom as [? | (key & jobPlan & Hin & Ht)]; [done |].
  exists w', t. split_and!; [done | done | | |].
  - exists key, (advance now jobPlan). split; [| done].
    apply Hadvanced. by exists jobPlan.
  - intros key' jobPlan' (jobPlan0 & Hin0 & ->)%Hadvanced.
    by apply (Hall key').
  - intros Hnext. apply Sub_positive. rewrite Ht.
    unfold advance. destruct (due now jobPlan) eqn:Hdue.
    + cbn [Plan_NextTime]. apply (Hnext key); [| done].
      by apply elem_of_range_in in Hin as [_ Hin].
    + by apply not_due_later.
Qed.

(** C3 as stated fails: with one due plan whose trigger has no activation
    left, the delay returned is the least [Duration], far below zero. *)
Lemma TryScheduler_delay_negative :
  let w := samples.one_plan samples.never_again in
  range_order ["backup"] (jobPlanTable w)
  ∧ size (jobPlanTable w) = 1%nat
  ∧ (TryScheduler ["backup"] w).2 = - 9223372036854775808
  ∧ ¬ (0 ≤ (TryScheduler ["backup"] w).2).
Proof.
  cbv zeta. split; [| split_and!].
  - apply (bool_decide_eq_true_1 (range_order _ _)). vm_compute. reflexivity.
  - vm_compute. reflexivity.
  - vm_compute. reflexivity.
  - vm_compute. intros H. apply H. reflexivity.
Qed.

Lemma TryScheduler_delay_witness :
  0 < (TryScheduler ["backup"] (samples.one_plan samples.every_second)).2.
Proof.
  destruct (TryScheduler_delay ["backup"]
              (samples.one_plan samples.every_second))
    as (w' & nearTime & Heq & _ & _ & _ & Hpositive).
  - apply (bool_decide_eq_true_1 (range_order _ _)). vm_compute. reflexivity.
  - vm_compute. discriminate.
  - rewrite Heq. apply Hpositive. intros key jobPlan Hlookup _.
    unfold samples.one_plan in Hlookup.
    cbn [upd_jobPlanTable jobPlanTable] in Hlookup.
    apply lookup_insert_Some in Hlookup as [[_ <-] | [_ Hempty]].
    + vm_compute. reflexivity.
    + unfold samples.idle, boot in Hempty. cbn [jobPlanTable] in Hempty.
      by rewrite lookup_empty in Hempty.
Defined.

(** The state of the counterexample arises in a run: the job is saved with
    such a trigger, and the scheduler's next turn sets its timer to the
    least [Duration]. *)
Example TryScheduler_delay_negative_run :
  schedulerAfter <$>
    run (fun _ => Some samples.never_again) "busy"
      (started samples.config (fun _ => true) samples.instants)
      [watcher_pushes (mkJobEvent JOB_EVENT_SAVE (samples.job "backup"));
       scheduler_turn case_jobEventChan ["backup"]]
  = Some (- 9223372036854775808).
Proof. vm_compute. reflexivity. Qed.

(** *** The log sink *)

Lemma saveLogs_eq (w : World) (batch : nat) (b : LogBatch) :
  batches w !! batch = Some b ->
  saveLogs w batch =
    upd_saved (fun l => l ++ [batch])
      (upd_logCollection (fun c => (InsertMany c (Logs b)).1) w).
Proof. intros E. unfold saveLogs. rewrite E. reflexivity. Qed.

Lemma sink_consistent_saved (w : World) (batch : nat) :
  sink_consistent w -> logBatch w = Some batch ->
  sink_consistent (upd_logBatch (fun _ => None) (saveLogs w batch))
  ∧ saved (upd_logBatch (fun _ => None) (saveLogs w batch))
    = saved w ++ [batch].
Proof.
  intros (Hnodup & Hsaved & Hopen) E.
  destruct (Hopen _ E) as [Hlt Hnotin].
  apply lookup_lt_is_Some in Hlt as [b Hb].
  rewrite (saveLogs_eq _ _ _ Hb).
  cbn [upd_logBatch upd_saved upd_logCollection saved batches logBatch].
  split; [| done]. unfold sink_consistent.
  cbn [saved batches logBatch]. split_and!.
  - apply NoDup_app. split_and!; [done | | apply NoDup_singleton].
    intros x Hx ->%list_elem_of_singleton. done.
  - intros x [Hx | ->%list_elem_of_singleton]%elem_of_app; [by apply Hsaved |].
    by apply lookup_lt_Some in Hb.
  - done.
Qed.

Lemma Timer_Stop_sink_consistent (t : option nat) (w : World) :
  sink_consistent w -> sink_consistent (Timer_Stop t w).
Proof. by destruct t. Qed.

Lemma add_to_batch_sink_consistent (w : World) (batch : nat) (log : JobLog) :
  sink_consistent w -> logBatch w = Some batch ->
  sink_consistent (add_to_batch w batch log)
  ∧ (∀ b, b ∈ saved w -> b ∈ saved (add_to_batch w batch log)).
Proof.
  intros Hc E. unfold add_to_batch. cbn zeta.
  set (w1 := upd_batches _ w).
  assert (Hc1 : sink_consistent w1).
  { destruct Hc as (Hnodup & Hsaved & Hopen). unfold sink_consistent, w1.
    cbn [upd_batches saved batches logBatch]. rewrite length_alter. done. }
  assert (E1 : logBatch w1 = Some batch) by done.
  case_bool_decide; [| by split].
  destruct (sink_consistent_saved _ _ Hc1 E1) as [Hc2 Hsaved2].
  split.
  - by apply Timer_Stop_sink_consistent.
  - intros b Hb. destruct (commitTimer w1); cbn [Timer_Stop upd_timers saved];
      rewrite Hsaved2; apply elem_of_app; by left.
Qed.

Lemma open_batch_sink_consistent (w : World) :
  sink_consistent w -> sink_consistent (open_batch w).
Proof.
  intros (Hnodup & Hsaved & Hopen). unfold sink_consistent, open_batch.
  cbn [saved batches logBatch]. rewrite length_app. cbn [length].
  split_and!; [done | |].
  - intros b Hb. specialize (Hsaved b Hb). lia.
  - intros b [= <-]. split; [lia |]. intros Hb. specialize (Hsaved _ Hb). lia.
Qed.

Lemma writeLoop_log_sink_consistent (w : World) (log : JobLog) :
  sink_consistent w ->
  sink_consistent (writeLoop_log w log)
  ∧ (∀ b, b ∈ saved w -> b ∈ saved (writeLoop_log w log)).
Proof.
  intros Hc. destruct (logBatch w) as [batch |] eqn:E.
  - rewrite (writeLoop_log_open _ _ _ E).
    by apply add_to_batch_sink_consistent.
  - rewrite (writeLoop_log_idle _ _ E).
    apply (add_to_batch_sink_consistent (open_batch w));
      [by apply open_batch_sink_consistent | done].
Qed.

Lemma writeLoop_timeout_sink_consistent (w : World) (timeoutBatch : nat) :
  sink_consistent w ->
  sink_consistent (writeLoop_timeout w timeoutBatch)
  ∧ (∀ b, b ∈ saved w -> b ∈ saved (writeLoop_timeout w timeoutBatch)).
Proof.
  intros Hc. unfold writeLoop_timeout. case_bool_decide as Hne; [done |].
  assert (E : logBatch w = Some timeoutBatch).
  { destruct (decide (Some timeoutBatch = logBatch w)); [done |].
    by destruct Hne. }
  destruct (sink_consistent_saved _ _ Hc E) as [Hc2 Hsaved2].
  split; [done |]. intros b Hb. rewrite Hsaved2. apply elem_of_app. by left.
Qed.

Lemma sink_side_consistent (w w' : World) :
  sink_side w' = sink_side w ->
  (sink_consistent w -> sink_consistent w')
  ∧ saved w' = saved w.
Proof.
  unfold sink_side, sink_consistent. intros [= _ _ -> _ -> _ _ ->]. done.
Qed.

Lemma step_sink_consistent
    (Parse : string -> option Expression) (lockText : string)
    (w w' : World) (a : Action) :
  step Parse lockText w a = Some w' ->
  sink_consistent w ->
  sink_consistent w' ∧ (∀ b, b ∈ saved w -> b ∈ saved w').
Proof.
  intros Hstep Hc.
  destruct a as [jobEvent | jobResult | c order | c | t | i].
  1-3: apply scheduler_actions_sink_side in Hstep as [Hside _]; [| done];
       destruct (sink_side_consistent _ _ Hside) as [Hc' ->]; by split; auto.
  - destruct c; simpl in Hstep.
    + destruct (channel.recv (logChan w)) as [[log ch] |]; [| done].
      injection Hstep as <-.
      apply (writeLoop_log_sink_consistent (upd_logChan _ w)). exact Hc.
    + destruct (channel.recv (autoCommitChan w)) as [[b ch] |]; [| done].
      injection Hstep as <-.
      apply (writeLoop_timeout_sink_consistent (upd_autoCommitChan _ w)).
      exact Hc.
  - simpl in Hstep. unfold timer_expires in Hstep.
    destruct (timers w !! t) as [tm |]; [| done].
    destruct (Timer_active tm); [| done]. injection Hstep as <-. done.
  - simpl in Hstep. unfold timer_sends in Hstep.
    destruct (sending w !! i) as [b |]; [| done].
    destruct (channel.send _ _); [| done]. injection Hstep as <-. done.
Qed.

Lemma started_sink_consistent (cfg : Config) (storeOutcomes : nat -> bool)
    (instants : nat -> time.Time) :
  sink_consistent (started cfg storeOutcomes instants).
Proof.
  unfold started.
  destruct (set_timer_sink_side [] (boot cfg storeOutcomes instants))
    as (Hside & _ & _).
  apply (sink_side_consistent _ _ Hside).
  unfold sink_consistent, boot. cbn. split_and!; [constructor | | done].
  intros b Hb. by inversion Hb.
Qed.

(** In every run no batch is saved twice, and a batch once saved stays
    so. *)
Lemma run_sink_consistent
    (Parse : string -> option Expression) (lockText : string)
    (actions : list Action) (w w' : World) :
  run Parse lockText w actions = Some w' ->
  sink_consistent w ->
  sink_consistent w' ∧ (∀ b, b ∈ saved w -> b ∈ saved w').
Proof.
  revert w. induction actions as [| a actions IH]; intros w; simpl.
  - intros [= <-]. done.
  - destruct (step Parse lockText w a) as [w1 |] eqn:E; [| done].
    intros Hrun Hc.
    destruct (step_sink_consistent _ _ _ _ _ E Hc) as [Hc1 Hmono1].
    destruct (IH _ Hrun Hc1) as [Hc' Hmono]. split; [done |]. auto.
Qed.

Lemma add_to_batch_room (w : World) (batch : nat) (cur : list JobLog)
    (log : JobLog) :
  batches w !! batch = Some (mkLogBatch cur) ->
  Z.of_nat (length cur + 1) < JobLogBatchSize (G_config w) ->
  add_to_batch w batch log =
    upd_batches (alter (fun b => mkLogBatch (Logs b ++ [log])) batch) w.
Proof.
  intros Hb Hroom. unfold add_to_batch. cbn zeta.
  rewrite bool_decide_eq_false_2; [done |].
  unfold len_Logs. cbn [upd_batches batches G_config].
  rewrite list_lookup_alter_eq, Hb.
  cbn [fmap option_fmap option_map Logs]. rewrite length_app. cbn [length]. lia.
Qed.

Lemma add_to_batch_full (w : World) (batch : nat) (cur : list JobLog)
    (log : JobLog) :
  batches w !! batch = Some (mkLogBatch cur) ->
  JobLogBatchSize (G_config w) ≤ Z.of_nat (length cur + 1) ->
  add_to_batch w batch log =
    Timer_Stop (commitTimer w)
      (upd_logBatch (fun _ => None)
         (upd_saved (fun l => l ++ [batch])
            (upd_logCollection (fun c => (InsertMany c (cur ++ [log])).1)
               (upd_batches
                  (alter (fun b => mkLogBatch (Logs b ++ [log])) batch) w)))).
Proof.
  intros Hb Hfull. unfold add_to_batch. cbn zeta.
  rewrite bool_decide_eq_true_2.
  - rewrite (saveLogs_eq _ _ (mkLogBatch (cur ++ [log]))); [done |].
    cbn [upd_batches batches]. by rewrite list_lookup_alter_eq, Hb.
  - unfold len_Logs. cbn [upd_batches batches G_config].
    rewrite list_lookup_alter_eq, Hb.
  cbn [fmap option_fmap option_map Logs]. rewrite length_app. cbn [length]. lia.
Qed.

(** Records arriving back to back fill the open batch; the one that fills it
    makes the loop save it, close it and stop its timer. *)
Lemma fill_open_batch
    (Parse : string -> option Expression) (lockText : string)
    (logs : list JobLog) :
  ∀ (w : World) (batch : nat) (cur rest : list JobLog),
    logBatch w = Some batch ->
    batches w !! batch = Some (mkLogBatch cur) ->
    channel.buf (logChan w) = logs ++ rest ->
    logs ≠ [] ->
    Z.of_nat (length cur + length logs) = JobLogBatchSize (G_config w) ->
    ∃ w',
      run Parse lockText w (replicate (length logs) (sink_turn case_logChan))
      = Some w'
      ∧ saved w' = saved w ++ [batch]
      ∧ calls (logCollection w') = calls (logCollection w) ++ [cur ++ logs]
      ∧ logBatch w' = None
      ∧ timers w' = match commitTimer w with
                    | Some t => alter disarm t (timers w)
                    | None => timers w
                    end.
Proof.
  induction logs as [| log logs IH]; intros w batch cur rest E Hb Hbuf Hne Hsize;
    [done |].
  cbn [length replicate run step writeLoop_turn].
  unfold channel.recv. rewrite Hbuf. cbn [app].
  set (wr := upd_logChan _ w).
  assert (Er : logBatch wr = Some batch) by done.
  rewrite (writeLoop_log_open _ _ _ Er).
  destruct logs as [| log' logs].
  - rewrite (add_to_batch_full wr batch cur log Hb) by (simpl in *; lia).
    eexists. split; [reflexivity |].
    destruct (commitTimer w) as [t |] eqn:Et; subst wr;
      cbn [Timer_Stop upd_timers commitTimer upd_logBatch upd_saved
           upd_logCollection upd_batches upd_logChan saved logCollection
           logBatch timers InsertMany fst calls]; rewrite ?Et; done.
  - rewrite (add_to_batch_room wr batch cur log Hb)
      by (cbn [length] in *; subst wr; cbn [upd_logChan G_config]; lia).
    set (w1 := upd_batches _ wr).
    destruct (IH w1 batch (cur ++ [log]) rest) as (w' & Hrun & H1 & H2 & H3 & H4).
    + done.
    + subst w1 wr. cbn [upd_batches upd_logChan batches].
      by rewrite list_lookup_alter_eq, Hb.
    + done.
    + done.
    + subst w1 wr. cbn [upd_batches upd_logChan G_config].
      rewrite length_app. cbn [length] in *. lia.
    + exists w'. split; [exact Hrun |].
      rewrite H1, H2, H3, H4. rewrite <- app_assoc. done.
Qed.

Lemma first_turn_idle
    (Parse : string -> option Expression) (lockText : string) (w : World) :
  logBatch w = None ->
  step Parse lockText w (sink_turn case_logChan)
  = step Parse lockText (open_batch w) (sink_turn case_logChan).
Proof.
  intros E. cbn [step writeLoop_turn]. unfold channel.recv.
  cbn [open_batch logChan]. destruct (channel.buf (logChan w)) as [| log l];
    [done |].
  rewrite (writeLoop_log_idle (upd_logChan _ w)) by done.
  by rewrite (writeLoop_log_open (upd_logChan _ (open_batch w))
                (length (batches w))) by done.
Qed.

Lemma filter_eq_absent (l : list nat) (x : nat) :
  x ∉ l -> filter (fun y => y = x) l = [].
Proof.
  induction l as [| y l IH]; [done |]. intros Hnotin.
  rewrite filter_cons_False.
  - apply IH. intros Hin. apply Hnotin. by apply list_elem_of_further.
  - intros ->. apply Hnotin. apply list_elem_of_here.
Qed.

Lemma NoDup_filter_one (l : list nat) (x : nat) :
  NoDup l -> x ∈ l -> length (filter (fun y => y = x) l) = 1%nat.
Proof.
  induction 1 as [| y l Hnotin Hnodup IH]; [by inversion 1 |].
  intros [-> | Hin]%elem_of_cons.
  - rewrite filter_cons_True by done. by rewrite filter_eq_absent.
  - rewrite filter_cons_False; [by apply IH |]. intros ->. done.
Qed.

(** C2: a batch is saved at most once.  In every run no batch address is
    given to [saveLogs] twice; a timer event for a batch other than the open
    one changes nothing; the record that fills the open batch makes the loop
    save it at once and close it; and when as many records as the batch
    size, at least one, arrive back to back on an idle sink, the loop makes
    exactly one bulk write, of those records in order, closes the batch and
    stops its timer, which can expire no more, after which nothing that
    happens, a late timer event included, saves that batch again. *)
Theorem flush_at_most_once
    (Parse : string -> option Expression) (lockText : string)
    (cfg : Config) (storeOutcomes : nat -> bool)
    (instants : nat -> time.Time) (actions : list Action) (w : World) :
  run Parse lockText (started cfg storeOutcomes instants) actions = Some w ->
  NoDup (saved w)
  ∧ (∀ timeoutBatch,
       logBatch w ≠ Some timeoutBatch ->
       writeLoop_timeout w timeoutBatch = w)
  ∧ (∀ batch cur log,
       logBatch w = Some batch ->
       batches w !! batch = Some (mkLogBatch cur) ->
       JobLogBatchSize (G_config w) ≤ Z.of_nat (length cur + 1) ->
       saved (writeLoop_log w log) = saved w ++ [batch]
       ∧ calls (logCollection (writeLoop_log w log))
         = calls (logCollection w) ++ [cur ++ [log]]
       ∧ logBatch (writeLoop_log w log) = None)
  ∧ (∀ logs rest,
       logBatch w = None ->
       channel.buf (logChan w) = logs ++ rest ->
       logs ≠ [] ->
       Z.of_nat (length logs) = JobLogBatchSize (G_config w) ->
       ∃ w',
         run Parse lockText w
           (replicate (length logs) (sink_turn case_logChan)) = Some w'
         ∧ saved w' = saved w ++ [length (batches w)]
         ∧ calls (logCollection w') = calls (logCollection w) ++ [logs]
         ∧ logBatch w' = None
         ∧ timers w' =
             timers w ++
               [mkTimer
                  (time.wrap64 (time.wrap64 (JobLogCommitTimeout (G_config w))
                                * time.Millisecond))
                  (length (batches w)) false]
         ∧ timer_expires w' (length (timers w)) = None
         ∧ ∀ later w'',
             run Parse lockText w' later = Some w'' ->
             length (filter (fun b => b = length (batches w)) (saved w''))
             = 1%nat).
Proof.
  intros Hrun.
  destruct (run_sink_consistent _ _ _ _ _ Hrun
              (started_sink_consistent cfg storeOutcomes instants))
    as [Hc _].
  split_and!.
  - apply Hc.
  - intros timeoutBatch Hne. unfold writeLoop_timeout.
    rewrite bool_decide_eq_true_2; [done | congruence].
  - intros batch cur log E Hb Hfull.
    rewrite (writeLoop_log_open _ _ _ E).
    rewrite (add_to_batch_full _ _ _ _ Hb Hfull).
    by destruct (commitTimer w).
  - intros logs rest E Hbuf Hne Hsize.
    destruct (fill_open_batch Parse lockText logs (open_batch w)
                (length (batches w)) [] rest)
      as (w' & Hfill & Hsaved & Hcalls & Hclosed & Htimers); try done.
    { cbn [open_batch batches]. by rewrite lookup_app_r, Nat.sub_diag. }
    assert (Hfill' : run Parse lockText w
                       (replicate (length logs) (sink_turn case_logChan))
                     = Some w').
    { destruct logs as [| log logs]; [done |].
      cbn [length replicate run] in *. by rewrite first_turn_idle. }
    exists w'. split_and!; try done.
    + rewrite Htimers. cbn [open_batch commitTimer timers].
      by rewrite alter_app_r_alt, Nat.sub_diag by lia.
    + unfold timer_expires. rewrite Htimers.
      cbn [open_batch commitTimer timers].
      rewrite alter_app_r_alt, Nat.sub_diag by lia.
      by rewrite lookup_app_r, Nat.sub_diag by lia.
    + intros later w'' Hlater.
      destruct (run_sink_consistent _ _ _ _ _ Hfill' Hc) as [Hc' _].
      destruct (run_sink_consistent _ _ _ _ _ Hlater Hc') as [Hc'' Hmono].
      apply NoDup_filter_one; [apply Hc'' |].
      apply Hmono. rewrite Hsaved. cbn [open_batch saved].
      apply elem_of_app. right. apply list_elem_of_here.
Qed.

Lemma flush_at_most_once_witness :
  ∃ w',
    run samples.parse "busy" samples.logged
      (replicate 3 (sink_turn case_logChan)) = Some w'
    ∧ saved w' = [0%nat]
    ∧ calls (logCollection w') = [samples.logged_records]
    ∧ logBatch w' = None
    ∧ timers w' = [mkTimer 1000000000 0 false]
    ∧ timer_expires w' 0 = None
    ∧ ∀ later w'',
        run samples.parse "busy" w' later = Some w'' ->
        length (filter (fun b => b = 0%nat) (saved w'')) = 1%nat.
Proof.
  refine (proj2 (proj2 (proj2
    (flush_at_most_once samples.parse "busy" samples.config (fun _ => true)
       samples.instants samples.logged_run samples.logged _)))
    samples.logged_records [] _ _ _ _).
  - vm_compute. reflexivity.
  - vm_compute. reflexivity.
  - vm_compute. reflexivity.
  - discriminate.
  - vm_compute. reflexivity.
Defined.

(** *** A failing store *)

(** C5 as stated fails: when the bulk write of a flush fails, so that nothing
    is stored, nothing is printed either, and the worker is left exactly as
    a successful write would have left it: the failure is surfaced
    nowhere. *)
Lemma saveLogs_failure_not_surfaced :
  store_failing (samples.before_flush false)
  ∧ logBatch (samples.before_flush false) = Some 0%nat
  ∧ calls (logCollection (samples.after_flush false))
    = [[jobLog_of "busy" (samples.result "backup" None)]]
  ∧ documents (logCollection (samples.after_flush false)) = []
  ∧ documents (logCollection (samples.after_flush true))
    = [jobLog_of "busy" (samples.result "backup" None)]
  ∧ stdout (samples.after_flush false) = stdout (samples.before_flush false)
  ∧ outside_store (samples.after_flush false)
    = outside_store (samples.after_flush true).
Proof. unfold store_failing. split_and!; vm_compute; reflexivity. Qed.

(** C5, amended: when the bulk write of a flush fails, [saveLogs] makes that
    one call and nothing else: the documents are not stored, the call is not
    repeated, nothing is printed and nothing of the failure is kept.  In
    every state the worker can reach, a batch once given to [saveLogs] is no
    longer the open batch and was given to it exactly once: it is discarded,
    not submitted again. *)
Theorem saveLogs_failure_dropped
    (Parse : string -> option Expression) (lockText : string)
    (cfg : Config) (storeOutcomes : nat -> bool)
    (instants : nat -> time.Time) (actions : list Action) (w : World) :
  run Parse lockText (started cfg storeOutcomes instants) actions = Some w ->
  (∀ batch b,
     batches w !! batch = Some b ->
     store_failing w ->
     saveLogs w batch =
       upd_saved (fun l => l ++ [batch])
         (upd_logCollection
            (fun c => mkCollection (outcomes c) (calls c ++ [Logs b])
                        (documents c)) w)
     ∧ stdout (saveLogs w batch) = stdout w)
  ∧ (∀ batch,
       batch ∈ saved w ->
       logBatch w ≠ Some batch
       ∧ length (filter (fun b => b = batch) (saved w)) = 1%nat).
Proof.
  intros Hrun. split.
  - intros batch b Hb Hfail. rewrite (saveLogs_eq _ _ _ Hb).
    unfold store_failing in Hfail. unfold InsertMany.
    unfold upd_saved, upd_logCollection. cbn beta.
    cbn [logCollection saved stdout fst]. rewrite Hfail. done.
  - intros batch Hin.
    destruct (run_sink_consistent _ _ _ _ _ Hrun
                (started_sink_consistent cfg storeOutcomes instants))
      as [(Hnodup & _ & Hopen) _].
    split; [| by apply NoDup_filter_one].
    intros E. by destruct (Hopen _ E).
Qed.

Lemma saveLogs_failure_dropped_witness :
  (saveLogs (samples.before_flush false) 0 =
     upd_saved (fun l => l ++ [0%nat])
       (upd_logCollection
          (fun c => mkCollection (outcomes c)
                      (calls c ++ [[jobLog_of "busy"
                                      (samples.result "backup" None)]])
                      (documents c))
          (samples.before_flush false))
   ∧ stdout (saveLogs (samples.before_flush false) 0)
     = stdout (samples.before_flush false))
  ∧ (logBatch (samples.after_flush false) ≠ Some 0%nat
     ∧ length (filter (fun b => b = 0%nat) (saved (samples.after_flush false)))
       = 1%nat).
Proof.
  split.
  - refine (proj1 (saveLogs_failure_dropped samples.parse "busy"
                     samples.config (fun _ => false) samples.instants
                     samples.timeout_run (samples.before_flush false) _)
              0%nat
              (mkLogBatch [jobLog_of "busy" (samples.result "backup" None)])
              _ _).
    + vm_compute. reflexivity.
    + vm_compute. reflexivity.
    + vm_compute. reflexivity.
  - refine (proj2 (saveLogs_failure_dropped samples.parse "busy"
                     samples.config (fun _ => false) samples.instants
                     (samples.timeout_run ++ [sink_turn case_autoCommitChan])
                     (samples.after_flush false) _) 0%nat _).
    + vm_compute. reflexivity.
    + vm_compute. apply list_elem_of_here.
Defined.

(** ** Further properties *)

(** *** The sweep of the plan table *)

(** Whatever the table, the sweep advances the due plans and leaves the
    others. *)
Lemma TryScheduler_plans (order : list string) (w : World) :
  range_order order (jobPlanTable w) ->
  jobPlanTable (TryScheduler order w).1
  = advance (next_reading w) <$> jobPlanTable w.
Proof.
  intros Horder. unfold TryScheduler, TryScheduler_over.
  case_bool_decide as Hsize.
  - apply map_size_empty_iff in Hsize. cbn [fst]. rewrite Hsize.
    by rewrite fmap_empty.
  - rewrite time_Now_eq.
    set (entries := range_in order (jobPlanTable w)).
    match goal with |- context [fold_left ?f entries (?a, None)] =>
      destruct (fold_left f entries (a, None)) as [w' nearTime'] eqn:E end.
    assert (Hplans : jobPlanTable w'
                     = advance (next_reading w) <$> jobPlanTable w).
    { apply map_eq. intros key.
      rewrite (TryScheduler_fold_plans _ _ _ _ _ _ E).
      - cbn [upd_clock jobPlanTable]. rewrite lookup_fmap.
        case_decide as Hin; [done |].
        destruct (jobPlanTable w !! key) as [jobPlan |] eqn:Hsome; [| done].
        exfalso. apply Hin. apply list_elem_of_fmap. exists (key, jobPlan).
        split; [done |]. apply elem_of_range_in. split; [| done].
        apply (range_order_elem _ _ _ Horder). by rewrite Hsome.
      - apply range_in_keys_NoDup, Horder.
      - intros key' jobPlan Hin.
        by apply elem_of_range_in in Hin as [_ Hin]. }
    by destruct nearTime'.
Qed.

(** On a table that is not empty the delay is measured to the next-fire
    time of one of the plans as the sweep leaves them. *)
Lemma TryScheduler_nearest (order : list string) (w : World) :
  range_order order (jobPlanTable w) ->
  size (jobPlanTable w) ≠ 0%nat ->
  ∃ key jobPlan,
    jobPlanTable w !! key = Some jobPlan
    ∧ (TryScheduler order w).2
      = time.Sub (Plan_NextTime (advance (next_reading w) jobPlan))
          (next_reading w).
Proof.
  intros Horder Hsize. unfold TryScheduler, TryScheduler_over.
  rewrite bool_decide_eq_false_2 by done. rewrite time_Now_eq.
  set (entries := range_in order (jobPlanTable w)).
  match goal with |- context [fold_left ?f entries (?a, None)] =>
    destruct (fold_left f entries (a, None)) as [w' nearTime'] eqn:E end.
  destruct (TryScheduler_fold_nearTime _ _ _ _ _ _ E)
    as [[Hnil _] | (t & -> & _ & _ & Hfrom)].
  - exfalso. apply Hsize. apply map_size_empty_iff, map_empty. intros key.
    destruct (jobPlanTable w !! key) as [jobPlan |] eqn:Hsome; [| done].
    assert (Hin : (key, jobPlan) ∈ entries).
    { apply elem_of_range_in. split; [| done].
      apply (range_order_elem _ _ _ Horder). by rewrite Hsome. }
    rewrite Hnil in Hin. by inversion Hin.
  - destruct Hfrom as [? | (key & jobPlan & Hin & ->)]; [done |].
    exists key, jobPlan. split; [| done].
    by apply elem_of_range_in in Hin as [_ Hin].
Qed.

Lemma advance_later (now : time.Time) (jobPlan : JobsSchedulerPlan) :
  (due now jobPlan = true -> now < Next (Plan_Expr jobPlan) now) ->
  now < Plan_NextTime (advance now jobPlan).
Proof.
  intros Hnext. unfold advance. destruct (due now jobPlan) eqn:Hdue.
  - by apply Hnext.
  - by apply not_due_later.
Qed.

(** X2: after a sweep no plan is left due.  When the trigger of every due
    plan answers an instant after [now], every plan of the table the sweep
    leaves has its next-fire time after [now], and the plans that were not
    due are as they were. *)
Theorem TryScheduler_leaves_none_due (order : list string) (w : World) :
  range_order order (jobPlanTable w) ->
  (∀ key jobPlan,
     jobPlanTable w !! key = Some jobPlan ->
     due (next_reading w) jobPlan = true ->
     next_reading w < Next (Plan_Expr jobPlan) (next_reading w)) ->
  let w' := (TryScheduler order w).1 in
  dom (jobPlanTable w') = dom (jobPlanTable w)
  ∧ (∀ key jobPlan,
       jobPlanTable w' !! key = Some jobPlan ->
       due (next_reading w) jobPlan = false)
  ∧ (∀ key jobPlan,
       jobPlanTable w !! key = Some jobPlan ->
       due (next_reading w) jobPlan = false ->
       jobPlanTable w' !! key = Some jobPlan).
Proof.
  intros Horder Hnext w'. subst w'.
  rewrite (TryScheduler_plans _ _ Horder). split_and!.
  - apply dom_fmap_L.
  - intros key jobPlan. rewrite lookup_fmap, fmap_Some.
    intros (jobPlan0 & Hsome & ->).
    pose proof (advance_later (next_reading w) jobPlan0
                  (Hnext key jobPlan0 Hsome)) as Hlater.
    unfold due, time.Before, time.Equal.
    apply orb_false_iff. split; [apply Z.ltb_ge | apply Z.eqb_neq]; lia.
  - intros key jobPlan Hsome Hdue. rewrite lookup_fmap, Hsome.
    cbn. by rewrite advance_not_due.
Qed.

(** *** The scheduler's timer *)

(** What a turn of the scheduler's loop is made of. *)
Lemma scheduler_turn_inv
    (Parse : string -> option Expression) (lockText : string)
    (w w' : World) (c : schedulerLoop_case) (order : list string) :
  step Parse lockText w (scheduler_turn c order) = Some w' ->
  ∃ w1,
    w' = set_timer order w1
    ∧ range_order order (jobPlanTable w1)
    ∧ (w1 = w
       ∨ (∃ jobEvent ch,
            channel.recv (jobEventChan w) = Some (jobEvent, ch)
            ∧ w1 = handleJobEvent Parse
                     (upd_jobEventChan (fun _ => ch) w) jobEvent)
       ∨ (∃ jobResult ch,
            channel.recv (jobResultChan w) = Some (jobResult, ch)
            ∧ w1 = handleJobResult lockText
                     (upd_jobResultChan (fun _ => ch) w) jobResult)).
Proof.
  cbn [step]. unfold schedulerLoop_turn, reschedule. destruct c.
  - destruct (channel.recv (jobEventChan w)) as [[jobEvent ch] |]; [| done].
    case_bool_decide as Horder; [| done]. intros [= <-].
    eexists. split_and!; [done | done |]. right. left. eauto.
  - case_bool_decide as Horder; [| done]. intros [= <-].
    eexists. split_and!; [done | done |]. by left.
  - destruct (channel.recv (jobResultChan w)) as [[jobResult ch] |]; [| done].
    case_bool_decide as Horder; [| done]. intros [= <-].
    eexists. split_and!; [done | done |]. right. right. eauto.
Qed.

Lemma set_timer_eq (order : list string) (w : World) :
  set_timer order w
  = upd_schedulerAfter (fun _ => (TryScheduler order w).2)
      (TryScheduler order w).1.
Proof. unfold set_timer. by destruct (TryScheduler order w). Qed.

Lemma handleJobResult_plans
    (lockText : string) (w : World) (result : JobExecuteResult) :
  jobPlanTable (handleJobResult lockText w result) = jobPlanTable w.
Proof.
  unfold handleJobResult. case_bool_decide; [| done].
  unfold Append. by destruct (channel.send _ _).
Qed.

Lemma scheduler_side_plans (w w' : World) :
  scheduler_side w' = scheduler_side w ->
  jobPlanTable w' = jobPlanTable w ∧ schedulerAfter w' = schedulerAfter w.
Proof. unfold scheduler_side. by intros [= _ -> _ _ ->]. Qed.

(** What the actions other than the scheduler's turns do to the plan table
    and to the timer: nothing. *)
Lemma other_actions_plans
    (Parse : string -> option Expression) (lockText : string)
    (w w' : World) (a : Action) :
  match a with scheduler_turn _ _ => False | _ => True end ->
  step Parse lockText w a = Some w' ->
  jobPlanTable w' = jobPlanTable w ∧ schedulerAfter w' = schedulerAfter w.
Proof.
  destruct a as [jobEvent | jobResult | c order | c | t | i]; try done;
    intros _ Hstep.
  3-5: by apply sink_actions_scheduler_side in Hstep as [Hside _];
         [apply scheduler_side_plans |].
  - cbn [step] in Hstep. unfold PushJobEvent in Hstep.
    destruct (channel.send _ _); [| done]. by injection Hstep as <-.
  - cbn [step] in Hstep. unfold PushJobResult in Hstep.
    destruct (channel.send _ _); [| done]. by injection Hstep as <-.
Qed.

(** X3: while no job is planned the scheduler wakes every second.  In every
    state the worker can reach, an empty plan table goes with a timer set
    to one second. *)
Theorem idle_scheduler_wakes_every_second
    (Parse : string -> option Expression) (lockText : string)
    (cfg : Config) (storeOutcomes : nat -> bool)
    (instants : nat -> time.Time) (actions : list Action) (w : World) :
  run Parse lockText (started cfg storeOutcomes instants) actions = Some w ->
  jobPlanTable w = ∅ ->
  schedulerAfter w = 1000000000.
Proof.
  intros Hrun.
  refine (run_invariant Parse lockText
            (fun w => jobPlanTable w = ∅ -> schedulerAfter w = 1000000000)
            _ _ _ _ Hrun _); [| done].
  clear. intros w a w' Hstep IH Hempty.
  destruct a as [jobEvent | jobResult | c order | c | t | i].
  3: { apply scheduler_turn_inv in Hstep as (w1 & -> & Horder & _).
       rewrite set_timer_eq in *.
       cbn [upd_schedulerAfter jobPlanTable schedulerAfter] in *.
       rewrite (TryScheduler_plans _ _ Horder) in Hempty.
       apply fmap_empty_inv in Hempty.
       unfold TryScheduler, TryScheduler_over.
       rewrite bool_decide_eq_true_2; [done |]. by rewrite Hempty. }
  all: apply other_actions_plans in Hstep as [Hplans Hafter]; [| done];
    rewrite Hafter; apply IH; by rewrite <- Hplans.
Qed.

Lemma handleJobEvent_plans_strict
    (Parse : string -> option Expression) (w : World) (jobEvent : JobEvent) :
  (∀ s e, Parse s = Some e -> strict e) ->
  plans_strict w -> plans_strict (handleJobEvent Parse w jobEvent).
Proof.
  intros Hparse Hstrict. unfold handleJobEvent.
  destruct (Event_EventType jobEvent); try done.
  - rewrite time_Now_eq. unfold BulidJobSchedulerPlan.
    destruct (Parse (Job_CronExpr (Event_Job jobEvent))) as [e |] eqn:E;
      [| done].
    intros key jobPlan. cbn [upd_jobPlanTable upd_clock jobPlanTable].
    intros [[_ <-] | [_ Hsome]]%lookup_insert_Some.
    + by apply (Hparse _ _ E).
    + by apply (Hstrict key).
  - destruct (jobPlanTable w !! _); [| done].
    intros key jobPlan. cbn [upd_jobPlanTable jobPlanTable].
    intros [_ Hsome]%lookup_delete_Some. by apply (Hstrict key).
  - by destruct (jobExecutingTable w !! _).
Qed.

Lemma set_timer_strict (order : list string) (w : World) :
  range_order order (jobPlanTable w) ->
  plans_strict w ->
  plans_strict (set_timer order w) ∧ 0 < schedulerAfter (set_timer order w).
Proof.
  intros Horder Hstrict. rewrite set_timer_eq.
  unfold plans_strict. cbn [upd_schedulerAfter jobPlanTable schedulerAfter].
  split.
  - intros key jobPlan. rewrite (TryScheduler_plans _ _ Horder).
    rewrite lookup_fmap, fmap_Some. intros (jobPlan0 & Hsome & ->).
    unfold advance. destruct (due _ jobPlan0); cbn [Plan_Expr];
      apply (Hstrict key jobPlan0 Hsome).
  - destruct (decide (size (jobPlanTable w) = 0%nat)) as [Hsize | Hsize].
    + unfold TryScheduler, TryScheduler_over.
      by rewrite bool_decide_eq_true_2.
    + destruct (TryScheduler_nearest _ _ Horder Hsize)
        as (key & jobPlan & Hsome & ->).
      apply Sub_positive, advance_later. intros _.
      apply (Hstrict key jobPlan Hsome).
Qed.

(** X4: with a trigger library whose [Next] always answers a later instant,
    the scheduler never spins: in every state the worker can reach, its
    timer is set to a positive delay. *)
Theorem scheduler_timer_positive
    (Parse : string -> option Expression) (lockText : string)
    (cfg : Config) (storeOutcomes : nat -> bool)
    (instants : nat -> time.Time) (actions : list Action) (w : World) :
  (∀ s e, Parse s = Some e -> strict e) ->
  run Parse lockText (started cfg storeOutcomes instants) actions = Some w ->
  0 < schedulerAfter w.
Proof.
  intros Hparse Hrun.
  cut (plans_strict w ∧ 0 < schedulerAfter w); [by intros [_ ?] |].
  refine (run_invariant Parse lockText
            (fun w => plans_strict w ∧ 0 < schedulerAfter w)
            _ _ _ _ Hrun _).
  - clear w Hrun. intros w a w' Hstep [Hstrict Hpos].
    destruct a as [jobEvent | jobResult | c order | c | t | i].
    3: { apply scheduler_turn_inv in Hstep
           as (w1 & -> & Horder & [-> | [Hevent | Hresult]]).
         - by apply set_timer_strict.
         - destruct Hevent as (jobEvent & ch & _ & ->).
           apply set_timer_strict; [done |].
           by apply handleJobEvent_plans_strict.
         - destruct Hresult as (jobResult & ch & _ & ->).
           apply set_timer_strict; [done |].
           unfold plans_strict. by rewrite handleJobResult_plans. }
    all: apply other_actions_plans in Hstep as [Hplans Hafter]; [| done];
      unfold plans_strict; by rewrite Hplans, Hafter.
  - split; [by intros key jobPlan | done].
Qed.

(** *** What a sweep leaves alone *)

(** A reading of the worker that neither a dispatch nor a write to the plan
    table changes is unchanged by the loop of a sweep. *)
Lemma TryScheduler_fold_frame {X : Type} (view : World -> X)
    (now : time.Time) (entries : list (string * JobsSchedulerPlan))
    (w : World) (nearTime : option time.Time) :
  (∀ w jobPlan, view (TryStartJob w jobPlan) = view w) ->
  (∀ f w, view (upd_jobPlanTable f w) = view w) ->
  view (fold_left (TryScheduler_visit now) entries (w, nearTime)).1 = view w.
Proof.
  intros Hstart Hplans. revert w nearTime.
  induction entries as [| [key jobPlan] entries IH];
    intros w nearTime; cbn [fold_left]; [done |].
  destruct (TryScheduler_visit now (w, nearTime) (key, jobPlan))
    as [w1 near1] eqn:E.
  rewrite IH. unfold TryScheduler_visit in E.
  destruct (time.Before (Plan_NextTime jobPlan) now
            || time.Equal (Plan_NextTime jobPlan) now);
    injection E as <- _; [| done].
  by rewrite Hplans, Hstart.
Qed.

(** If the clock and the timer's delay do not enter it either, it is
    unchanged by the whole of [TryScheduler] and by the setting of the
    timer. *)
Lemma set_timer_frame {X : Type} (view : World -> X)
    (order : list string) (w : World) :
  (∀ w jobPlan, view (TryStartJob w jobPlan) = view w) ->
  (∀ f w, view (upd_jobPlanTable f w) = view w) ->
  (∀ f w, view (upd_clock f w) = view w) ->
  (∀ f w, view (upd_schedulerAfter f w) = view w) ->
  view (set_timer order w) = view w.
Proof.
  intros Hstart Hplans Hclock Hafter.
  rewrite set_timer_eq, Hafter. unfold TryScheduler, TryScheduler_over.
  case_bool_decide; [done |]. rewrite time_Now_eq.
  match goal with |- context [fold_left ?f ?l (?a, ?b)] =>
    pose proof (TryScheduler_fold_frame view (next_reading w) l a b
                  Hstart Hplans) as Hf;
    destruct (fold_left f l (a, b)) as [w1 near1] end.
  cbn [fst] in Hf. rewrite Hclock in Hf. by destruct near1.
Qed.

(** The same for a property of the worker. *)
Lemma set_timer_invariant (P : World -> Prop)
    (order : list string) (w : World) :
  (∀ w jobPlan, P w -> P (TryStartJob w jobPlan)) ->
  (∀ f w, P w -> P (upd_jobPlanTable f w)) ->
  (∀ f w, P w -> P (upd_clock f w)) ->
  (∀ f w, P w -> P (upd_schedulerAfter f w)) ->
  P w -> P (set_timer order w).
Proof.
  intros Hstart Hplans Hclock Hafter HP.
  assert (Hfold : ∀ now entries w nearTime,
             P w ->
             P (fold_left (TryScheduler_visit now) entries (w, nearTime)).1).
  { intros now entries. induction entries as [| [key jobPlan] entries IH];
      intros w0 nearTime HP0; cbn [fold_left]; [done |].
    destruct (TryScheduler_visit now (w0, nearTime) (key, jobPlan))
      as [w1 near1] eqn:E.
    apply IH. unfold TryScheduler_visit in E.
    destruct (time.Before (Plan_NextTime jobPlan) now
              || time.Equal (Plan_NextTime jobPlan) now);
      injection E as <- _; [| done].
    by apply Hplans, Hstart. }
  rewrite set_timer_eq. apply Hafter.
  unfold TryScheduler, TryScheduler_over.
  case_bool_decide; [done |]. rewrite time_Now_eq.
  match goal with |- context [fold_left ?f ?l (?a, ?b)] =>
    pose proof (Hfold (next_reading w) l a b (Hclock _ _ HP)) as Hf;
    destruct (fold_left f l (a, b)) as [w1 near1] end.
  by destruct near1.
Qed.

Lemma TryStartJob_channels (w : World) (jobPlan : JobsSchedulerPlan) :
  (jobEventChan (TryStartJob w jobPlan), jobResultChan (TryStartJob w jobPlan),
   logChan (TryStartJob w jobPlan), autoCommitChan (TryStartJob w jobPlan))
  = (jobEventChan w, jobResultChan w, logChan w, autoCommitChan w).
Proof.
  unfold TryStartJob. by destruct (jobExecutingTable w !! _).
Qed.

Lemma send_bounded {A : Type} (c c' : channel.chan A) (x : A) :
  channel.send c x = Some c' -> chan_bounded c -> chan_bounded c'.
Proof.
  unfold channel.send, channel.full, chan_bounded.
  case_bool_decide as Hfull; [done |]. intros [= <-] [Hcap Hlen].
  cbn [channel.cap channel.buf]. rewrite length_app. cbn [length].
  split; [done |]. lia.
Qed.

Lemma recv_bounded {A : Type} (c c' : channel.chan A) (x : A) :
  channel.recv c = Some (x, c') -> chan_bounded c -> chan_bounded c'.
Proof.
  unfold channel.recv, chan_bounded.
  destruct (channel.buf c) as [| y l] eqn:E; [done |].
  intros [= <- <-] [Hcap Hlen]. cbn [channel.cap channel.buf length] in *.
  split; [done |]. lia.
Qed.

Lemma send_waits_when_full {A : Type} (c : channel.chan A) (x : A) :
  chan_bounded c ->
  channel.send c x = None <-> length (channel.buf c) = 1000%nat.
Proof.
  unfold channel.send, channel.full, chan_bounded. intros [Hcap Hlen].
  case_bool_decide as Hfull; split; try done; lia.
Qed.

Lemma saveLogs_autoCommitChan (w : World) (batch : nat) :
  autoCommitChan (saveLogs w batch) = autoCommitChan w.
Proof.
  unfold saveLogs. destruct (batches w !! batch); [| done].
  by destruct (InsertMany _ _).
Qed.

Lemma add_to_batch_autoCommitChan (w : World) (batch : nat) (log : JobLog) :
  autoCommitChan (add_to_batch w batch log) = autoCommitChan w.
Proof.
  unfold add_to_batch. cbn zeta. case_bool_decide; [| done].
  destruct (commitTimer _);
    cbn [Timer_Stop upd_timers upd_logBatch autoCommitChan];
    by rewrite saveLogs_autoCommitChan.
Qed.

Lemma writeLoop_log_autoCommitChan (w : World) (log : JobLog) :
  autoCommitChan (writeLoop_log w log) = autoCommitChan w.
Proof.
  destruct (logBatch w) as [batch |] eqn:E.
  - rewrite (writeLoop_log_open _ _ _ E). apply add_to_batch_autoCommitChan.
  - rewrite (writeLoop_log_idle _ _ E).
    by rewrite add_to_batch_autoCommitChan.
Qed.

Lemma step_channels_bounded
    (Parse : string -> option Expression) (lockText : string)
    (w w' : World) (a : Action) :
  step Parse lockText w a = Some w' ->
  channels_bounded w -> channels_bounded w'.
Proof.
  intros Hstep (He & Hr & Hl & Ha).
  destruct a as [jobEvent | jobResult | c order | c | t | i].
  - cbn [step] in Hstep. unfold PushJobEvent in Hstep.
    destruct (channel.send _ _) as [ch |] eqn:E; [| done].
    injection Hstep as <-. split_and!; try done.
    by apply (send_bounded _ _ _ E).
  - cbn [step] in Hstep. unfold PushJobResult in Hstep.
    destruct (channel.send _ _) as [ch |] eqn:E; [| done].
    injection Hstep as <-. split_and!; try done.
    by apply (send_bounded _ _ _ E).
  - apply scheduler_turn_inv in Hstep as (w1 & -> & _ & Hw1).
    assert (Hview : (jobEventChan (set_timer order w1),
                     jobResultChan (set_timer order w1),
                     logChan (set_timer order w1),
                     autoCommitChan (set_timer order w1))
                    = (jobEventChan w1, jobResultChan w1, logChan w1,
                       autoCommitChan w1)).
    { apply (set_timer_frame
               (fun w => (jobEventChan w, jobResultChan w, logChan w,
                          autoCommitChan w))); try done.
      apply TryStartJob_channels. }
    unfold channels_bounded. injection Hview as -> -> -> ->.
    destruct Hw1 as [-> | [Hevent | Hresult]]; [done | |].
    + destruct Hevent as (jobEvent & ch & Hrecv & ->).
      assert (Hsame : (jobEventChan (handleJobEvent Parse
                         (upd_jobEventChan (λ _, ch) w) jobEvent),
                       jobResultChan (handleJobEvent Parse
                         (upd_jobEventChan (λ _, ch) w) jobEvent),
                       logChan (handleJobEvent Parse
                         (upd_jobEventChan (λ _, ch) w) jobEvent),
                       autoCommitChan (handleJobEvent Parse
                         (upd_jobEventChan (λ _, ch) w) jobEvent))
                      = (ch, jobResultChan w, logChan w, autoCommitChan w)).
      { unfold handleJobEvent. destruct (Event_EventType jobEvent); try done.
        - rewrite time_Now_eq. by destruct (BulidJobSchedulerPlan _ _ _).
        - cbn [upd_jobEventChan jobPlanTable].
          by destruct (jobPlanTable w !! _).
        - cbn [upd_jobEventChan jobExecutingTable].
          by destruct (jobExecutingTable w !! _). }
      injection Hsame as -> -> -> ->. split_and!; try done.
      by apply (recv_bounded _ _ _ Hrecv).
    + destruct Hresult as (jobResult & ch & Hrecv & ->).
      unfold handleJobResult. case_bool_decide.
      * unfold Append.
        cbn [upd_jobExecutingTable upd_jobResultChan logChan].
        destruct (channel.send (logChan w) _) as [ch' |] eqn:E;
          cbn [upd_logChan upd_jobExecutingTable upd_jobResultChan
               jobEventChan jobResultChan logChan autoCommitChan];
          split_and!; try done;
          try by apply (recv_bounded _ _ _ Hrecv).
        by apply (send_bounded _ _ _ E).
      * cbn [upd_jobExecutingTable upd_jobResultChan
             jobEventChan jobResultChan logChan autoCommitChan].
        split_and!; try done. by apply (recv_bounded _ _ _ Hrecv).
  - destruct c; cbn [step writeLoop_turn] in Hstep.
    + destruct (channel.recv (logChan w)) as [[log ch] |] eqn:E; [| done].
      injection Hstep as <-.
      destruct (writeLoop_log_scheduler_side (upd_logChan (λ _, ch) w) log)
        as (Hside & Hlog & _).
      pose proof (writeLoop_log_autoCommitChan
                    (upd_logChan (λ _, ch) w) log) as Hauto.
      cbn [upd_logChan autoCommitChan] in Hauto.
      unfold channels_bounded. rewrite Hlog, Hauto.
      unfold scheduler_side in Hside. injection Hside as -> _ _ -> _ _ _ _ _ _.
      split_and!; try done. by apply (recv_bounded _ _ _ E).
    + destruct (channel.recv (autoCommitChan w)) as [[b ch] |] eqn:E;
        [| done].
      injection Hstep as <-.
      destruct (writeLoop_timeout_scheduler_side
                  (upd_autoCommitChan (λ _, ch) w) b) as (Hside & Hlog & _).
      assert (Hauto : autoCommitChan (writeLoop_timeout
                                        (upd_autoCommitChan (λ _, ch) w) b)
                      = ch).
      { unfold writeLoop_timeout. case_bool_decide; [done |].
        cbn [upd_logBatch autoCommitChan].
        by rewrite saveLogs_autoCommitChan. }
      unfold channels_bounded. rewrite Hlog, Hauto.
      unfold scheduler_side in Hside. injection Hside as -> _ _ -> _ _ _ _ _ _.
      split_and!; try done. by apply (recv_bounded _ _ _ E).
  - cbn [step] in Hstep. unfold timer_expires in Hstep.
    destruct (timers w !! t) as [tm |]; [| done].
    destruct (Timer_active tm); [| done]. by injection Hstep as <-.
  - cbn [step] in Hstep. unfold timer_sends in Hstep.
    destruct (sending w !! i) as [b |]; [| done].
    destruct (channel.send _ _) as [ch |] eqn:E; [| done].
    injection Hstep as <-. split_and!; try done.
    by apply (send_bounded _ _ _ E).
Qed.

Lemma run_channels_bounded
    (Parse : string -> option Expression) (lockText : string)
    (cfg : Config) (storeOutcomes : nat -> bool)
    (instants : nat -> time.Time) (actions : list Action) (w : World) :
  run Parse lockText (started cfg storeOutcomes instants) actions = Some w ->
  channels_bounded w.
Proof.
  intros Hrun.
  refine (run_invariant Parse lockText channels_bounded
            (fun w a w' => step_channels_bounded Parse lockText w w' a)
            _ _ _ Hrun _).
  apply (set_timer_invariant channels_bounded); try done.
  - intros w0 jobPlan. unfold channels_bounded.
    by injection (TryStartJob_channels w0 jobPlan) as -> -> -> ->.
  - unfold channels_bounded, chan_bounded, boot. cbn. split_and!; done || lia.
Qed.

(** X5: the four channels are bounded.  In every state the worker can reach
    each channel has its capacity of 1000 and holds at most 1000 values;
    [PushJobEvent] and [PushJobResult] have to wait exactly when 1000 values
    are queued before them, and [Append] drops its record exactly when 1000
    records are queued. *)
Theorem channels_hold_a_thousand
    (Parse : string -> option Expression) (lockText : string)
    (cfg : Config) (storeOutcomes : nat -> bool)
    (instants : nat -> time.Time) (actions : list Action) (w : World) :
  run Parse lockText (started cfg storeOutcomes instants) actions = Some w ->
  channels_bounded w
  ∧ (∀ jobEvent,
       PushJobEvent w jobEvent = None
       <-> length (channel.buf (jobEventChan w)) = 1000%nat)
  ∧ (∀ jobResult,
       PushJobResult w jobResult = None
       <-> length (channel.buf (jobResultChan w)) = 1000%nat)
  ∧ (∀ jobLog,
       logChan (Append w jobLog) = logChan w
       <-> length (channel.buf (logChan w)) = 1000%nat).
Proof.
  intros Hrun.
  pose proof (run_channels_bounded _ _ _ _ _ _ _ Hrun) as Hbounded.
  split; [done |]. destruct Hbounded as (He & Hr & Hl & _). split_and!.
  - intros jobEvent. rewrite <- (send_waits_when_full _ jobEvent He).
    unfold PushJobEvent. by destruct (channel.send _ _).
  - intros jobResult. rewrite <- (send_waits_when_full _ jobResult Hr).
    unfold PushJobResult. by destruct (channel.send _ _).
  - intros jobLog. rewrite <- (send_waits_when_full _ jobLog Hl).
    unfold Append. destruct (channel.send (logChan w) jobLog) as [ch |] eqn:E.
    + cbn [upd_logChan logChan]. split; [| done]. intros ->.
      unfold channel.send in E. destruct (channel.full _); [done |].
      injection E as E. destruct (logChan w) as [buf cap].
      cbn in E. injection E as E.
      apply (f_equal length) in E. rewrite length_app in E. cbn in E. lia.
    + done.
Qed.

(** *** What a sweep dispatches *)

Lemma TryStartJob_kept (w : World) (jobPlan : JobsSchedulerPlan)
    (name : string) (jobExecuteInfo : JobExecuteInfo) :
  jobExecutingTable w !! name = Some jobExecuteInfo ->
  jobExecutingTable (TryStartJob w jobPlan) !! name = Some jobExecuteInfo.
Proof.
  intros Hsome. unfold TryStartJob.
  destruct (jobExecutingTable w !! Job_Name (Plan_Job jobPlan)) eqn:E;
    [done |].
  rewrite time_Now_eq.
  cbn [ExecuteJob Println upd_G_executor upd_stdout upd_jobExecutingTable
       upd_contexts upd_clock jobExecutingTable].
  rewrite lookup_insert_ne; [done |]. intros Heq. congruence.
Qed.

Lemma TryStartJob_new (w : World) (jobPlan : JobsSchedulerPlan)
    (name : string) (jobExecuteInfo : JobExecuteInfo) :
  jobExecutingTable w !! name = None ->
  jobExecutingTable (TryStartJob w jobPlan) !! name = Some jobExecuteInfo ->
  Job_Name (Plan_Job jobPlan) = name
  ∧ Info_Job jobExecuteInfo = Plan_Job jobPlan
  ∧ Info_PlanTime jobExecuteInfo = Plan_NextTime jobPlan
  ∧ Info_RealTime jobExecuteInfo = next_reading w.
Proof.
  intros Hnone. unfold TryStartJob.
  destruct (jobExecutingTable w !! Job_Name (Plan_Job jobPlan)) eqn:E;
    [congruence |].
  rewrite time_Now_eq.
  cbn [ExecuteJob Println upd_G_executor upd_stdout upd_jobExecutingTable
       upd_contexts upd_clock jobExecutingTable].
  intros [[<- <-] | [_ Hsome]]%lookup_insert_Some; [done | congruence].
Qed.

Lemma TryStartJob_running (w : World) (jobPlan : JobsSchedulerPlan) :
  is_Some (jobExecutingTable (TryStartJob w jobPlan)
             !! Job_Name (Plan_Job jobPlan)).
Proof.
  unfold TryStartJob.
  destruct (jobExecutingTable w !! Job_Name (Plan_Job jobPlan)) eqn:E;
    [by rewrite E |].
  rewrite time_Now_eq.
  cbn [ExecuteJob Println upd_G_executor upd_stdout upd_jobExecutingTable
       upd_contexts upd_clock jobExecutingTable].
  by rewrite lookup_insert_eq.
Qed.

Lemma TryScheduler_visit_tracker (now : time.Time) (w w' : World)
    (nearTime nearTime' : option time.Time) (key : string)
    (jobPlan : JobsSchedulerPlan) :
  TryScheduler_visit now (w, nearTime) (key, jobPlan) = (w', nearTime') ->
  jobExecutingTable w' =
    jobExecutingTable (if due now jobPlan then TryStartJob w jobPlan else w).
Proof.
  unfold TryScheduler_visit, due.
  destruct (time.Before (Plan_NextTime jobPlan) now
            || time.Equal (Plan_NextTime jobPlan) now);
    by intros [= <- _].
Qed.

(** The tracker after the loop of a sweep: the handles it had are kept, and
    the new ones are those of the due plans met. *)
Lemma TryScheduler_fold_tracker (now : time.Time)
    (entries : list (string * JobsSchedulerPlan))
    (w w' : World) (nearTime nearTime' : option time.Time) :
  fold_left (TryScheduler_visit now) entries (w, nearTime) = (w', nearTime') ->
  (∀ name jobExecuteInfo,
     jobExecutingTable w !! name = Some jobExecuteInfo ->
     jobExecutingTable w' !! name = Some jobExecuteInfo)
  ∧ (∀ name jobExecuteInfo,
       jobExecutingTable w !! name = None ->
       jobExecutingTable w' !! name = Some jobExecuteInfo ->
       ∃ key jobPlan,
         (key, jobPlan) ∈ entries ∧ due now jobPlan = true
         ∧ Job_Name (Plan_Job jobPlan) = name
         ∧ Info_Job jobExecuteInfo = Plan_Job jobPlan
         ∧ Info_PlanTime jobExecuteInfo = Plan_NextTime jobPlan)
  ∧ (∀ key jobPlan,
       (key, jobPlan) ∈ entries -> due now jobPlan = true ->
       is_Some (jobExecutingTable w' !! Job_Name (Plan_Job jobPlan))).
Proof.
  revert w nearTime.
  induction entries as [| [key0 jobPlan0] entries IH]; intros w nearTime;
    cbn [fold_left].
  - intros [= <- _]. split_and!; [done | congruence |].
    intros key jobPlan Hin. by inversion Hin.
  - destruct (TryScheduler_visit now (w, nearTime) (key0, jobPlan0))
      as [w1 near1] eqn:E.
    intros Hfold. destruct (IH _ _ Hfold) as (Hkept & Hnew & Hall).
    apply TryScheduler_visit_tracker in E.
    assert (Hkept1 : ∀ name jobExecuteInfo,
               jobExecutingTable w !! name = Some jobExecuteInfo ->
               jobExecutingTable w1 !! name = Some jobExecuteInfo).
    { intros name jobExecuteInfo Hsome. rewrite E.
      destruct (due now jobPlan0); [by apply TryStartJob_kept | done]. }
    split_and!.
    + intros name jobExecuteInfo Hsome. by apply Hkept, Hkept1.
    + intros name jobExecuteInfo Hnone Hsome.
      destruct (jobExecutingTable w1 !! name) as [info1 |] eqn:E1.
      * rewrite (Hkept _ _ E1) in Hsome. injection Hsome as <-.
        rewrite E in E1. destruct (due now jobPlan0) eqn:Hdue;
          [| congruence].
        destruct (TryStartJob_new _ _ _ _ Hnone E1) as (? & ? & ? & _).
        exists key0, jobPlan0. split_and!; try done.
        apply list_elem_of_here.
      * destruct (Hnew _ _ E1 Hsome) as (key & jobPlan & Hin & Hrest).
        exists key, jobPlan. split; [by apply list_elem_of_further | done].
    + intros key jobPlan [[= -> ->] | Hin]%elem_of_cons Hdue.
      * assert (Hrun : is_Some (jobExecutingTable w1
                                  !! Job_Name (Plan_Job jobPlan0))).
        { rewrite E, Hdue. apply TryStartJob_running. }
        destruct Hrun as [info1 Hrun]. rewrite (Hkept _ _ Hrun). eauto.
      * by apply (Hall key).
Qed.

(** X6: a sweep dispatches the due plans that are not running, and only
    those.  A handle the tracker holds is left as it is; a job name without
    a handle gets one exactly when a plan of the table is due at [now] and
    bears that name, and that handle carries the plan's job and its next-fire
    time as planned time; [ExecuteJob] is called once for each name so
    started and for no other. *)
Theorem TryScheduler_dispatches_due (order : list string) (w : World) :
  range_order order (jobPlanTable w) ->
  let now := next_reading w in
  let w' := (TryScheduler order w).1 in
  (∀ name jobExecuteInfo,
     jobExecutingTable w !! name = Some jobExecuteInfo ->
     jobExecutingTable w' !! name = Some jobExecuteInfo)
  ∧ (∀ name,
       jobExecutingTable w !! name = None ->
       is_Some (jobExecutingTable w' !! name)
       <-> ∃ key jobPlan,
             jobPlanTable w !! key = Some jobPlan
             ∧ due now jobPlan = true
             ∧ Job_Name (Plan_Job jobPlan) = name)
  ∧ (∀ name jobExecuteInfo,
       jobExecutingTable w !! name = None ->
       jobExecutingTable w' !! name = Some jobExecuteInfo ->
       ∃ key jobPlan,
         jobPlanTable w !! key = Some jobPlan
         ∧ due now jobPlan = true
         ∧ Info_Job jobExecuteInfo = Plan_Job jobPlan
         ∧ Info_PlanTime jobExecuteInfo = Plan_NextTime jobPlan
         ∧ Info_PlanTime jobExecuteInfo ≤ now)
  ∧ (∀ name,
       (dispatches name w' + idle_slot name w'
        = dispatches name w + idle_slot name w)%nat).
Proof.
  intros Horder now w'. subst w'.
  unfold TryScheduler, TryScheduler_over. case_bool_decide as Hsize.
  { apply map_size_empty_iff in Hsize. cbn [fst].
    split_and!; [done | | congruence | done].
    intros name Hnone. rewrite Hnone. split; [by intros [] |].
    intros (key & jobPlan & Hsome & _). by rewrite Hsize in Hsome. }
  rewrite time_Now_eq. fold now.
  set (entries := range_in order (jobPlanTable w)).
  match goal with |- context [fold_left ?f entries (?a, None)] =>
    destruct (fold_left f entries (a, None)) as [w' nearTime'] eqn:E end.
  assert (Hentries : ∀ key jobPlan,
             (key, jobPlan) ∈ entries <-> jobPlanTable w !! key = Some jobPlan).
  { intros key jobPlan. unfold entries. rewrite elem_of_range_in.
    split; [by intros [_ ?] |]. intros Hsome. split; [| done].
    apply (range_order_elem _ _ _ Horder). by rewrite Hsome. }
  destruct (TryScheduler_fold_tracker _ _ _ _ _ _ E) as (Hkept & Hnew & Hall).
  pose proof (fun name => TryScheduler_fold_ledger name _ _ _ _ _ _ E)
    as Hledger.
  match type of E with fold_left _ _ (?a, _) = _ =>
    pose proof (TryScheduler_fold_frame jobResultChan now entries a None)
      as Hchan end.
  rewrite E in Hchan. cbn [fst upd_clock jobResultChan] in Hchan.
  cbn [upd_clock jobExecutingTable] in Hkept, Hnew.
  replace (fst (match nearTime' with
                | Some t => (w', time.Sub t now)
                | None => (w', 0)
                end)) with w' by by destruct nearTime'.
  split_and!.
  - done.
  - intros name Hnone. split.
    + intros [jobExecuteInfo Hsome].
      destruct (Hnew _ _ Hnone Hsome) as (key & jobPlan & Hin & ? & ? & _).
      exists key, jobPlan. split_and!; try done. by apply Hentries.
    + intros (key & jobPlan & Hsome & Hdue & <-).
      apply (Hall key); [by apply Hentries | done].
  - intros name jobExecuteInfo Hnone Hsome.
    destruct (Hnew _ _ Hnone Hsome) as (key & jobPlan & Hin & Hdue & _ & ? & Ht).
    exists key, jobPlan. split_and!; try done; [by apply Hentries |].
    rewrite Ht. unfold due, time.Before, time.Equal in Hdue.
    apply orb_true_iff in Hdue as [Hlt%Z.ltb_lt | Heq%Z.eqb_eq]; lia.
  - intros name. specialize (Hledger name). revert Hledger.
    unfold ledger. cbn [upd_clock jobResultChan G_executor jobExecutingTable].
    unfold dispatches, idle_slot.
    cbn [upd_clock jobResultChan G_executor jobExecutingTable].
    rewrite Hchan; [lia | | done].
    intros w0 jobPlan. unfold TryStartJob.
    by destruct (jobExecutingTable w0 !! _).
Qed.

(** *** Dispatch, result, dispatch *)

Lemma TryStartJob_dispatch (w : World) (jobPlan : JobsSchedulerPlan) :
  jobExecutingTable w !! Job_Name (Plan_Job jobPlan) = None ->
  let jobExecuteInfo :=
    BuildJobExecuteInfo jobPlan (next_reading w) (contexts w) in
  jobExecutingTable (TryStartJob w jobPlan)
  = <[Job_Name (Plan_Job jobPlan) := jobExecuteInfo]> (jobExecutingTable w)
  ∧ G_executor (TryStartJob w jobPlan) = G_executor w ++ [jobExecuteInfo]
  ∧ stdout (TryStartJob w jobPlan)
    = stdout w ++ [mkLine (Job_Name (Plan_Job jobPlan))
                     (Plan_NextTime jobPlan) (next_reading w)].
Proof.
  intros Hnone. unfold TryStartJob. rewrite Hnone. by rewrite time_Now_eq.
Qed.

(** X7: a result frees the slot of its job.  When a job that is not running
    is dispatched and its result is then handled, the tracker is back as it
    was, and the next attempt for that job dispatches again: two calls of
    [ExecuteJob] in all, where a second attempt before the result would have
    made none. *)
Theorem result_frees_the_slot
    (lockText : string) (w : World) (jobPlan : JobsSchedulerPlan)
    (result : JobExecuteResult) :
  jobExecutingTable w !! Job_Name (Plan_Job jobPlan) = None ->
  Job_Name (Info_Job (Result_ExecuteInfo result))
  = Job_Name (Plan_Job jobPlan) ->
  let name := Job_Name (Plan_Job jobPlan) in
  let w1 := TryStartJob w jobPlan in
  let w2 := handleJobResult lockText w1 result in
  jobExecutingTable w2 = jobExecutingTable w
  ∧ dispatches name w1 = S (dispatches name w)
  ∧ dispatches name (TryStartJob w1 jobPlan) = S (dispatches name w)
  ∧ dispatches name (TryStartJob w2 jobPlan) = S (S (dispatches name w)).
Proof.
  intros Hnone Hname name w1 w2.
  destruct (TryStartJob_dispatch w jobPlan Hnone) as (Htracker & Hexec & _).
  assert (Hd1 : dispatches name w1 = S (dispatches name w)).
  { unfold dispatches, w1. rewrite Hexec, filter_app, length_app.
    rewrite filter_cons_True by done. rewrite filter_nil.
    cbn [length]. lia. }
  assert (Htracker2 : jobExecutingTable w2 = jobExecutingTable w).
  { unfold w2. rewrite handleJobResult_tracker, Hname. unfold w1.
    rewrite Htracker. by rewrite delete_insert_eq, delete_id. }
  assert (Hexec2 : G_executor w2 = G_executor w1).
  { unfold w2, handleJobResult. case_bool_decide; [| done].
    unfold Append. by destruct (channel.send _ _). }
  split_and!; [done | done | |].
  - replace (TryStartJob w1 jobPlan) with w1; [done |].
    unfold TryStartJob at 1. fold name.
    destruct (TryStartJob_running w jobPlan) as [jobExecuteInfo Hrun].
    fold w1 name in Hrun. by rewrite Hrun.
  - assert (Hnone2 : jobExecutingTable w2 !! Job_Name (Plan_Job jobPlan) = None)
      by by rewrite Htracker2.
    destruct (TryStartJob_dispatch w2 jobPlan Hnone2) as (_ & Hexec3 & _).
    unfold dispatches in *. rewrite Hexec3, filter_app, length_app.
    rewrite filter_cons_True by done. rewrite filter_nil, Hexec2, Hd1.
    cbn [length]. lia.
Qed.

(** *** The executor's view *)

Lemma TryStartJob_all_dispatched (w : World) (jobPlan : JobsSchedulerPlan) :
  all_dispatched w -> all_dispatched (TryStartJob w jobPlan).
Proof.
  intros [Htracked Hcancelled].
  destruct (jobExecutingTable w !! Job_Name (Plan_Job jobPlan)) eqn:E.
  { unfold TryStartJob. by rewrite E. }
  destruct (TryStartJob_dispatch w jobPlan E) as (Htracker & Hexec & _).
  assert (Hc : cancelled (TryStartJob w jobPlan) = cancelled w).
  { unfold TryStartJob. by rewrite E. }
  unfold all_dispatched. rewrite Htracker, Hexec, Hc. split.
  - intros key jobExecuteInfo [[_ <-] | [_ Hsome]]%lookup_insert_Some;
      apply elem_of_app; [right; apply list_elem_of_here | left].
    by apply (Htracked key).
  - intros ctx Hin. destruct (Hcancelled ctx Hin) as (info & Hinfo & Hctx).
    exists info. split; [| done]. apply elem_of_app. by left.
Qed.

Lemma set_timer_all_dispatched (order : list string) (w : World) :
  all_dispatched w -> all_dispatched (set_timer order w).
Proof.
  intros Hall.
  apply (set_timer_invariant all_dispatched); try done.
  apply TryStartJob_all_dispatched.
Qed.

Lemma step_all_dispatched
    (Parse : string -> option Expression) (lockText : string)
    (w w' : World) (a : Action) :
  step Parse lockText w a = Some w' -> all_dispatched w -> all_dispatched w'.
Proof.
  intros Hstep Hall.
  destruct a as [jobEvent | jobResult | c order | c | t | i].
  4-6: apply sink_actions_scheduler_side in Hstep as [Hside _]; [| done];
       unfold scheduler_side in Hside; unfold all_dispatched;
       injection Hside as _ _ -> _ _ _ -> -> _ _; done.
  - cbn [step] in Hstep. unfold PushJobEvent in Hstep.
    destruct (channel.send _ _); [| done]. by injection Hstep as <-.
  - cbn [step] in Hstep. unfold PushJobResult in Hstep.
    destruct (channel.send _ _); [| done]. by injection Hstep as <-.
  - apply scheduler_turn_inv in Hstep as (w1 & -> & _ & Hw1).
    apply set_timer_all_dispatched.
    destruct Hw1 as [-> | [Hevent | Hresult]]; [done | |].
    + destruct Hevent as (jobEvent & ch & _ & ->).
      destruct Hall as [Htracked Hcancelled].
      unfold handleJobEvent. destruct (Event_EventType jobEvent);
        try done.
      * rewrite time_Now_eq. by destruct (BulidJobSchedulerPlan _ _ _).
      * cbn [upd_jobEventChan jobPlanTable].
        by destruct (jobPlanTable w !! _).
      * cbn [upd_jobEventChan jobExecutingTable].
        destruct (jobExecutingTable w !! _) as [info |] eqn:E; [| done].
        split; [done |]. intros ctx.
        cbn [CancelFunc upd_cancelled upd_jobEventChan cancelled G_executor].
        intros [Hin | ->%list_elem_of_singleton]%elem_of_app.
        -- by apply Hcancelled.
        -- exists info. split; [| done]. by apply (Htracked _ _ E).
    + destruct Hresult as (jobResult & ch & _ & ->).
      destruct Hall as [Htracked Hcancelled].
      assert (Hrest : G_executor (handleJobResult lockText
                                    (upd_jobResultChan (λ _, ch) w) jobResult)
                      = G_executor w
                      ∧ cancelled (handleJobResult lockText
                                     (upd_jobResultChan (λ _, ch) w) jobResult)
                        = cancelled w).
      { unfold handleJobResult. case_bool_decide; [| done].
        unfold Append. by destruct (channel.send _ _). }
      destruct Hrest as [Hexec Hc]. unfold all_dispatched.
      rewrite handleJobResult_tracker, Hexec, Hc. split; [| done].
      intros key info [_ Hsome]%lookup_delete_Some. by apply (Htracked key).
Qed.

(** X8: nothing is tracked or cancelled that was not dispatched.  In every
    state the worker can reach, each handle of the tracker was given to
    [ExecuteJob], and each context cancelled by a FORCE-KILL is that of a
    handle given to [ExecuteJob]. *)
Theorem tracked_and_cancelled_were_dispatched
    (Parse : string -> option Expression) (lockText : string)
    (cfg : Config) (storeOutcomes : nat -> bool)
    (instants : nat -> time.Time) (actions : list Action) (w : World) :
  run Parse lockText (started cfg storeOutcomes instants) actions = Some w ->
  (∀ key jobExecuteInfo,
     jobExecutingTable w !! key = Some jobExecuteInfo ->
     jobExecuteInfo ∈ G_executor w)
  ∧ (∀ ctx, ctx ∈ cancelled w ->
       ∃ jobExecuteInfo,
         jobExecuteInfo ∈ G_executor w
         ∧ Info_CancelCtx jobExecuteInfo = ctx).
Proof.
  intros Hrun.
  refine (run_invariant Parse lockText all_dispatched
            (fun w a w' => step_all_dispatched Parse lockText w w' a)
            _ _ _ Hrun _).
  apply set_timer_all_dispatched. split; [done |].
  intros ctx Hin. by inversion Hin.
Qed.

(** *** The records on their way *)

Lemma add_to_batch_pipeline (w : World) (batch : nat) (cur : list JobLog)
    (log : JobLog) (rest : list JobLog) :
  logBatch w = Some batch ->
  batches w !! batch = Some (mkLogBatch cur) ->
  concat (calls (logCollection (add_to_batch w batch log)))
  ++ open_logs (add_to_batch w batch log) ++ rest
  = concat (calls (logCollection w)) ++ cur ++ log :: rest.
Proof.
  intros E Hb.
  destruct (Z.lt_ge_cases (Z.of_nat (length cur + 1))
              (JobLogBatchSize (G_config w))) as [Hroom | Hfull].
  - rewrite (add_to_batch_room _ _ _ _ Hb Hroom). unfold open_logs.
    cbn [upd_batches logCollection logBatch batches]. rewrite E.
    rewrite list_lookup_alter_eq, Hb.
    cbn [fmap option_fmap option_map Logs]. by rewrite <- !app_assoc.
  - rewrite (add_to_batch_full _ _ _ _ Hb Hfull). unfold open_logs.
    destruct (commitTimer w);
      cbn [Timer_Stop upd_timers upd_logBatch upd_saved upd_logCollection
           upd_batches logCollection logBatch InsertMany fst calls];
      rewrite concat_app; cbn [concat]; rewrite app_nil_r;
      by rewrite <- !app_assoc.
Qed.

Lemma writeLoop_log_pipeline (w : World) (log : JobLog)
    (rest : list JobLog) :
  sink_consistent w ->
  concat (calls (logCollection (writeLoop_log w log)))
  ++ open_logs (writeLoop_log w log) ++ rest
  = concat (calls (logCollection w)) ++ open_logs w ++ log :: rest.
Proof.
  intros (_ & _ & Hopen). destruct (logBatch w) as [batch |] eqn:E.
  - destruct (Hopen _ eq_refl) as [Hlt _].
    apply lookup_lt_is_Some in Hlt as [[cur] Hb].
    rewrite (writeLoop_log_open _ _ _ E).
    rewrite (add_to_batch_pipeline _ _ cur) by done.
    unfold open_logs. by rewrite E, Hb.
  - rewrite (writeLoop_log_idle _ _ E).
    rewrite (add_to_batch_pipeline _ _ []); [| done |].
    + unfold open_logs. by rewrite E.
    + cbn [open_batch batches]. by rewrite lookup_app_r, Nat.sub_diag.
Qed.

Lemma writeLoop_timeout_pipeline (w : World) (timeoutBatch : nat) :
  sink_consistent w ->
  concat (calls (logCollection (writeLoop_timeout w timeoutBatch)))
  ++ open_logs (writeLoop_timeout w timeoutBatch)
  = concat (calls (logCollection w)) ++ open_logs w.
Proof.
  intros (_ & _ & Hopen). unfold writeLoop_timeout.
  case_bool_decide as Hne; [done |].
  assert (E : logBatch w = Some timeoutBatch).
  { destruct (decide (Some timeoutBatch = logBatch w)); [done |].
    by destruct Hne. }
  destruct (Hopen _ E) as [Hlt _].
  apply lookup_lt_is_Some in Hlt as [b Hb].
  rewrite (saveLogs_eq _ _ _ Hb). unfold open_logs.
  cbn [upd_logBatch upd_saved upd_logCollection logCollection logBatch
       InsertMany fst calls].
  rewrite E, Hb, concat_app. cbn [concat]. by rewrite !app_nil_r.
Qed.

(** The log sink's own actions move the records along and keep them all, in
    order. *)
Lemma sink_step_pipeline
    (Parse : string -> option Expression) (lockText : string)
    (w w' : World) (a : Action) :
  sink_action a ->
  step Parse lockText w a = Some w' ->
  sink_consistent w ->
  pipeline w' = pipeline w.
Proof.
  destruct a as [| | | c | t | i]; try done; intros _ Hstep Hc;
    cbn [step] in Hstep.
  - destruct c; cbn [writeLoop_turn] in Hstep.
    + unfold channel.recv in Hstep.
      destruct (channel.buf (logChan w)) as [| log rest] eqn:Ebuf; [done |].
      injection Hstep as <-. unfold pipeline.
      destruct (writeLoop_log_scheduler_side
                  (upd_logChan (λ _, channel.mkChan rest
                                       (channel.cap (logChan w))) w) log)
        as (_ & -> & _).
      cbn [upd_logChan logChan channel.buf].
      rewrite (writeLoop_log_pipeline (upd_logChan _ w)) by exact Hc.
      by rewrite Ebuf.
    + destruct (channel.recv (autoCommitChan w)) as [[b ch] |]; [| done].
      injection Hstep as <-. unfold pipeline.
      destruct (writeLoop_timeout_scheduler_side
                  (upd_autoCommitChan (λ _, ch) w) b) as (_ & -> & _).
      cbn [upd_autoCommitChan logChan]. rewrite !app_assoc. f_equal.
      by apply (writeLoop_timeout_pipeline (upd_autoCommitChan _ w)).
  - unfold timer_expires in Hstep.
    destruct (timers w !! t) as [tm |]; [| done].
    destruct (Timer_active tm); [| done]. by injection Hstep as <-.
  - unfold timer_sends in Hstep.
    destruct (sending w !! i) as [b |]; [| done].
    destruct (channel.send _ _); [| done]. by injection Hstep as <-.
Qed.

(** The scheduler's side only ever adds a record behind the others. *)
Lemma scheduler_step_pipeline
    (Parse : string -> option Expression) (lockText : string)
    (w w' : World) (a : Action) :
  ¬ sink_action a ->
  step Parse lockText w a = Some w' ->
  pipeline w' = pipeline w ∨ ∃ jobLog, pipeline w' = pipeline w ++ [jobLog].
Proof.
  intros Hside Hstep.
  assert (Hsink : sink_side w' = sink_side w).
  { apply (scheduler_actions_sink_side _ _ _ _ _) in Hstep as [? _];
      [done |]. by destruct a. }
  assert (Hsame : concat (calls (logCollection w')) = concat (calls (logCollection w))
                  ∧ open_logs w' = open_logs w).
  { unfold sink_side in Hsink. unfold open_logs.
    by injection Hsink as _ -> -> _ -> _ _ _. }
  destruct Hsame as [Hcalls Hopen]. unfold pipeline. rewrite Hcalls, Hopen.
  assert (Hbuf : channel.buf (logChan w') = channel.buf (logChan w)
                 ∨ ∃ jobLog, channel.buf (logChan w')
                             = channel.buf (logChan w) ++ [jobLog]).
  { destruct a as [jobEvent | jobResult | c order | c | t | i];
      try by destruct Hside.
    - cbn [step] in Hstep. unfold PushJobEvent in Hstep.
      destruct (channel.send _ _); [| done]. injection Hstep as <-.
      by left.
    - cbn [step] in Hstep. unfold PushJobResult in Hstep.
      destruct (channel.send _ _); [| done]. injection Hstep as <-.
      by left.
    - apply scheduler_turn_inv in Hstep as (w1 & -> & _ & Hw1).
      destruct (set_timer_sink_side order w1) as (_ & -> & _).
      destruct Hw1 as [-> | [Hevent | Hresult]]; [by left | |].
      + destruct Hevent as (jobEvent & ch & _ & ->).
        destruct (handleJobEvent_sink_side Parse
                    (upd_jobEventChan (λ _, ch) w) jobEvent) as (_ & -> & _).
        by left.
      + destruct Hresult as (jobResult & ch & _ & ->).
        unfold handleJobResult. case_bool_decide; [| by left].
        unfold Append, channel.send.
        cbn [upd_jobExecutingTable upd_jobResultChan logChan].
        destruct (channel.full (logChan w)); [by left |].
        right. eauto. }
  destruct Hbuf as [-> | [jobLog ->]]; [by left |].
  right. exists jobLog. by rewrite <- !app_assoc.
Qed.

(** X9: the log sink hands every record to the store once and in order.
    From any state the worker can reach, whatever the loop of the sink and
    its timers do, the records given to [InsertMany] so far, followed by
    those of the open batch and by those queued in the log channel, stay the
    same sequence: none is dropped, repeated or moved; and whatever else
    happens only adds records behind them. *)
Theorem sink_keeps_records_in_order
    (Parse : string -> option Expression) (lockText : string)
    (cfg : Config) (storeOutcomes : nat -> bool)
    (instants : nat -> time.Time) (actions later : list Action)
    (w w' : World) :
  run Parse lockText (started cfg storeOutcomes instants) actions = Some w ->
  run Parse lockText w later = Some w' ->
  pipeline w `prefix_of` pipeline w'
  ∧ (Forall sink_action later -> pipeline w' = pipeline w).
Proof.
  intros Hrun.
  destruct (run_sink_consistent _ _ _ _ _ Hrun
              (started_sink_consistent cfg storeOutcomes instants))
    as [Hc _].
  clear Hrun. revert w Hc.
  induction later as [| a later IH]; intros w Hc; cbn [run].
  - intros [= <-]. done.
  - destruct (step Parse lockText w a) as [w1 |] eqn:E; [| done].
    intros Hlater.
    destruct (step_sink_consistent _ _ _ _ _ E Hc) as [Hc1 _].
    destruct (IH _ Hc1 Hlater) as [Hprefix Hequal]. split.
    + etrans; [| exact Hprefix].
      destruct (decide (sink_action a)) as [Hsink | Hsched].
      * by rewrite (sink_step_pipeline _ _ _ _ _ Hsink E Hc).
      * destruct (scheduler_step_pipeline _ _ _ _ _ Hsched E)
          as [-> | [jobLog ->]]; [done |].
        by apply prefix_app_r.
    + intros [Hsink Hall]%Forall_cons. rewrite (Hequal Hall).
      by apply (sink_step_pipeline _ _ _ _ _ Hsink E Hc).
Qed.

(** *** The open batch *)

Lemma add_to_batch_sound (w : World) (batch : nat) (cur : list JobLog)
    (log : JobLog) :
  logBatch w = Some batch ->
  batches w !! batch = Some (mkLogBatch cur) ->
  timeout_pending batch w ->
  open_batch_sound (add_to_batch w batch log).
Proof.
  intros E Hb Hpending.
  destruct (Z.lt_ge_cases (Z.of_nat (length cur + 1))
              (JobLogBatchSize (G_config w))) as [Hroom | Hfull].
  - rewrite (add_to_batch_room _ _ _ _ Hb Hroom). intros batch'.
    cbn [upd_batches logBatch batches G_config]. rewrite E.
    intros [= <-]. split; [| exact Hpending].
    exists (cur ++ [log]). rewrite list_lookup_alter_eq, Hb.
    split_and!; [done | by destruct cur |].
    rewrite length_app. cbn [length]. lia.
  - rewrite (add_to_batch_full _ _ _ _ Hb Hfull). intros batch'.
    by destruct (commitTimer w).
Qed.

Lemma writeLoop_log_sound (w : World) (log : JobLog) :
  open_batch_sound w -> open_batch_sound (writeLoop_log w log).
Proof.
  intros Hsound. destruct (logBatch w) as [batch |] eqn:E.
  - destruct (Hsound _ E) as [(cur & Hb & _) Hpending].
    rewrite (writeLoop_log_open _ _ _ E).
    by apply (add_to_batch_sound _ _ cur).
  - rewrite (writeLoop_log_idle _ _ E).
    apply (add_to_batch_sound _ _ []); [done | |].
    + cbn [open_batch batches]. by rewrite lookup_app_r, Nat.sub_diag.
    + left. eexists (length (timers w)), _. cbn [open_batch timers].
      rewrite lookup_app_r, Nat.sub_diag by done. done.
Qed.

Lemma writeLoop_timeout_sound (w : World) (timeoutBatch : nat)
    (ch : channel.chan nat) :
  channel.recv (autoCommitChan w) = Some (timeoutBatch, ch) ->
  open_batch_sound w ->
  open_batch_sound
    (writeLoop_timeout (upd_autoCommitChan (fun _ => ch) w) timeoutBatch).
Proof.
  unfold channel.recv.
  destruct (channel.buf (autoCommitChan w)) as [| x rest] eqn:Ebuf; [done |].
  intros [= -> <-] Hsound. unfold writeLoop_timeout.
  cbn [upd_autoCommitChan logBatch]. case_bool_decide as Hne; [| done].
  intros batch E. cbn [upd_autoCommitChan logBatch] in E.
  destruct (Hsound _ E) as [Hcur Hpending]. split; [exact Hcur |].
  destruct Hpending as [Htimer | [Hsending | Hchan]];
    [by left | by right; left |].
  right. right. cbn [upd_autoCommitChan autoCommitChan channel.buf].
  rewrite Ebuf in Hchan. apply elem_of_cons in Hchan as [-> | Hin];
    [congruence | done].
Qed.

Lemma elem_of_delete_other (l : list nat) (i x b : nat) :
  l !! i = Some x -> x ≠ b -> b ∈ l -> b ∈ delete i l.
Proof.
  revert i. induction l as [| y l IH]; intros i Hi Hne Hin; [done |].
  destruct i as [| i]; cbn in *.
  - injection Hi as ->. by apply elem_of_cons in Hin as [-> | Hin].
  - apply elem_of_cons in Hin as [-> | Hin]; [apply list_elem_of_here |].
    apply list_elem_of_further. by apply IH.
Qed.

Lemma step_open_batch_sound
    (Parse : string -> option Expression) (lockText : string)
    (w w' : World) (a : Action) :
  step Parse lockText w a = Some w' ->
  open_batch_sound w -> open_batch_sound w'.
Proof.
  intros Hstep Hsound.
  destruct a as [jobEvent | jobResult | c order | c | t | i].
  1-3: apply scheduler_actions_sink_side in Hstep as [Hside Hcfg]; [| done];
       unfold sink_side in Hside; unfold open_batch_sound, timeout_pending;
       rewrite Hcfg; injection Hside as -> _ -> _ -> -> -> _; exact Hsound.
  - destruct c; cbn [step writeLoop_turn] in Hstep.
    + destruct (channel.recv (logChan w)) as [[log ch] |]; [| done].
      injection Hstep as <-.
      apply (writeLoop_log_sound (upd_logChan _ w)). exact Hsound.
    + destruct (channel.recv (autoCommitChan w)) as [[b ch] |] eqn:E;
        [| done].
      injection Hstep as <-. by apply writeLoop_timeout_sound.
  - cbn [step] in Hstep. unfold timer_expires in Hstep.
    destruct (timers w !! t) as [tm |] eqn:Et; [| done].
    destruct (Timer_active tm) eqn:Eactive; [| done].
    injection Hstep as <-. intros batch E.
    destruct (Hsound _ E) as [Hcur Hpending]. split; [exact Hcur |].
    unfold timeout_pending.
    cbn [upd_sending upd_timers timers sending autoCommitChan].
    destruct Hpending as [(t0 & tm0 & Ht0 & Hactive & Hbatch)
                         | [Hsending | Hchan]].
    + destruct (decide (t0 = t)) as [-> | Hne].
      * right. left. rewrite Et in Ht0. injection Ht0 as <-.
        rewrite <- Hbatch. apply elem_of_app. right. apply list_elem_of_here.
      * left. exists t0, tm0. by rewrite list_lookup_alter_ne.
    + right. left. apply elem_of_app. by left.
    + by right; right.
  - cbn [step] in Hstep. unfold timer_sends, channel.send in Hstep.
    destruct (sending w !! i) as [x |] eqn:Ei; [| done].
    destruct (channel.full _); [done |]. injection Hstep as <-.
    intros batch E. destruct (Hsound _ E) as [Hcur Hpending].
    split; [exact Hcur |]. unfold timeout_pending.
    cbn [upd_sending upd_autoCommitChan timers sending autoCommitChan
         channel.buf].
    destruct Hpending as [Htimer | [Hsending | Hchan]]; [by left | |].
    + destruct (decide (x = batch)) as [-> | Hne].
      * right. right. apply elem_of_app. right. apply list_elem_of_here.
      * right. left. by apply (elem_of_delete_other _ _ x).
    + right. right. apply elem_of_app. by left.
Qed.

Lemma run_open_batch_sound
    (Parse : string -> option Expression) (lockText : string)
    (cfg : Config) (storeOutcomes : nat -> bool)
    (instants : nat -> time.Time) (actions : list Action) (w : World) :
  run Parse lockText (started cfg storeOutcomes instants) actions = Some w ->
  open_batch_sound w.
Proof.
  intros Hrun.
  refine (run_invariant Parse lockText open_batch_sound
            (fun w a w' => step_open_batch_sound Parse lockText w w' a)
            _ _ _ Hrun _).
  apply (set_timer_invariant open_batch_sound); try done.
  intros w0 jobPlan Hsound.
  destruct (TryStartJob_sink_side w0 jobPlan) as (Hside & _ & Hcfg & _).
  unfold sink_side in Hside. unfold open_batch_sound, timeout_pending.
  rewrite Hcfg. by injection Hside as -> _ -> _ -> -> -> _.
Qed.

(** X10: the open batch is never empty and never full.  In every state the
    worker can reach, between two actions, a batch that is open holds at
    least one record and fewer than [JobLogBatchSize]. *)
Theorem open_batch_within_bounds
    (Parse : string -> option Expression) (lockText : string)
    (cfg : Config) (storeOutcomes : nat -> bool)
    (instants : nat -> time.Time) (actions : list Action) (w : World)
    (batch : nat) :
  run Parse lockText (started cfg storeOutcomes instants) actions = Some w ->
  logBatch w = Some batch ->
  (1 ≤ length (open_logs w))%nat
  ∧ Z.of_nat (length (open_logs w)) < JobLogBatchSize (G_config w).
Proof.
  intros Hrun E.
  destruct (run_open_batch_sound _ _ _ _ _ _ _ Hrun _ E)
    as [(cur & Hb & Hne & Hlt) _].
  unfold open_logs. rewrite E, Hb. cbn [Logs]. split; [| done].
  destruct cur; [done | cbn [length]; lia].
Qed.

(** X11: an open batch is never left without its timeout.  In every state the
    worker can reach, the timer of the open batch is still armed, or its
    goroutine stands at its send, or the batch's address is queued in
    [autoCommitChan]: the loop will be offered the timeout of the batch it
    has open. *)
Theorem open_batch_timeout_on_its_way
    (Parse : string -> option Expression) (lockText : string)
    (cfg : Config) (storeOutcomes : nat -> bool)
    (instants : nat -> time.Time) (actions : list Action) (w : World)
    (batch : nat) :
  run Parse lockText (started cfg storeOutcomes instants) actions = Some w ->
  logBatch w = Some batch ->
  (∃ t tm, timers w !! t = Some tm ∧ Timer_active tm = true
           ∧ Timer_batch tm = batch)
  ∨ batch ∈ sending w
  ∨ batch ∈ channel.buf (autoCommitChan w).
Proof.
  intros Hrun E.
  by destruct (run_open_batch_sound _ _ _ _ _ _ _ Hrun _ E) as [_ Hpending].
Qed.

(** *** A flush by timeout *)

(** X12: one record and then silence give one bulk write of that record.  On
    an idle sink with a batch size above one, when a record arrives, the
    batch's timer expires, its goroutine sends, and the loop takes the
    timeout, the loop has made exactly one bulk write, of that one record,
    and the batch is closed. *)
Theorem timeout_flush
    (Parse : string -> option Expression) (lockText : string)
    (cfg : Config) (storeOutcomes : nat -> bool)
    (instants : nat -> time.Time) (actions : list Action) (w : World)
    (log : JobLog) (rest : list JobLog) :
  run Parse lockText (started cfg storeOutcomes instants) actions = Some w ->
  logBatch w = None ->
  channel.buf (logChan w) = log :: rest ->
  1 < JobLogBatchSize (G_config w) ->
  sending w = [] ->
  channel.buf (autoCommitChan w) = [] ->
  ∃ w',
    run Parse lockText w
      [sink_turn case_logChan; runtime_expires (length (timers w));
       runtime_sends 0; sink_turn case_autoCommitChan] = Some w'
    ∧ calls (logCollection w') = calls (logCollection w) ++ [[log]]
    ∧ saved w' = saved w ++ [length (batches w)]
    ∧ logBatch w' = None
    ∧ channel.buf (logChan w') = rest
    ∧ channel.buf (autoCommitChan w') = [].
Proof.
  intros Hrun E Hbuf Hsize Hsending Hauto.
  destruct (run_channels_bounded _ _ _ _ _ _ _ Hrun)
    as (_ & _ & _ & [Hcap _]).
  clear Hrun. destruct w as [cfg0 ec pt et rc after lc ac coll lb ct bs ts
                             sd cx cn ex out clk sv].
  destruct lc as [lbuf lcap], ac as [abuf acap].
  cbn [logBatch logChan G_config sending autoCommitChan channel.buf
       channel.cap batches timers logCollection saved] in *.
  subst lb lbuf sd abuf acap.
  cbn [run step writeLoop_turn channel.recv channel.buf channel.cap logChan
       upd_logChan].
  rewrite writeLoop_log_idle by done.
  rewrite (add_to_batch_room _ _ [] log); cycle 1.
  { cbn [open_batch batches]. by rewrite lookup_app_r, Nat.sub_diag. }
  { cbn [length]. exact Hsize. }
  world_simpl. unfold timer_expires. world_simpl.
  rewrite lookup_app_r, Nat.sub_diag by done.
  cbn [lookup list_lookup Timer_active Timer_batch].
  unfold timer_sends. world_simpl. cbn [app lookup list_lookup].
  unfold channel.send, channel.full. cbn [channel.cap channel.buf length].
  rewrite bool_decide_eq_false_2 by lia.
  world_simpl. cbn [app channel.recv channel.buf channel.cap].
  unfold writeLoop_timeout. world_simpl.
  rewrite bool_decide_eq_false_2 by (intros Hne; by apply Hne).
  erewrite saveLogs_eq; cycle 1.
  { world_simpl.
    rewrite list_lookup_alter_eq, lookup_app_r, Nat.sub_diag by done.
    reflexivity. }
  eexists. split; [reflexivity |]. by split_and!.
Qed.

(** *** The bulk writes *)

Lemma add_to_batch_calls (w : World) (batch : nat) (cur : list JobLog)
    (log : JobLog) :
  batches w !! batch = Some (mkLogBatch cur) ->
  (Z.of_nat (length cur) < JobLogBatchSize (G_config w) ∨ cur = []) ->
  bulk_writes_sound w -> bulk_writes_sound (add_to_batch w batch log).
Proof.
  intros Hb Hcur Hsound.
  destruct (Z.lt_ge_cases (Z.of_nat (length cur + 1))
              (JobLogBatchSize (G_config w))) as [Hroom | Hfull].
  - by rewrite (add_to_batch_room _ _ _ _ Hb Hroom).
  - rewrite (add_to_batch_full _ _ _ _ Hb Hfull). unfold bulk_writes_sound.
    assert (Hnew : cur ++ [log] ≠ []
                   ∧ Z.of_nat (length (cur ++ [log]))
                     ≤ Z.max 1 (JobLogBatchSize (G_config w))).
    { split; [by destruct cur |]. rewrite length_app. cbn [length].
      destruct Hcur as [Hlt | ->]; cbn [length]; lia. }
    destruct (commitTimer w);
      cbn [Timer_Stop upd_timers upd_logBatch upd_saved upd_logCollection
           upd_batches logCollection G_config InsertMany fst calls];
      apply Forall_app; split; try done; by apply Forall_singleton.
Qed.

Lemma step_bulk_writes_sound
    (Parse : string -> option Expression) (lockText : string)
    (w w' : World) (a : Action) :
  step Parse lockText w a = Some w' ->
  sink_consistent w -> open_batch_sound w ->
  bulk_writes_sound w -> bulk_writes_sound w'.
Proof.
  intros Hstep Hc Hopen Hsound.
  destruct a as [jobEvent | jobResult | c order | c | t | i].
  1-3: apply scheduler_actions_sink_side in Hstep as [Hside Hcfg]; [| done];
       unfold sink_side in Hside; unfold bulk_writes_sound;
       rewrite Hcfg; injection Hside as _ -> _ _ _ _ _ _; exact Hsound.
  - destruct c; cbn [step writeLoop_turn] in Hstep.
    + destruct (channel.recv (logChan w)) as [[log ch] |]; [| done].
      injection Hstep as <-.
      destruct (logBatch w) as [batch |] eqn:E.
      * destruct (Hopen _ E) as [(cur & Hb & _ & Hlt) _].
        rewrite (writeLoop_log_open (upd_logChan _ w) batch) by exact E.
        apply (add_to_batch_calls (upd_logChan _ w) _ cur);
          [exact Hb | by left | exact Hsound].
      * rewrite (writeLoop_log_idle (upd_logChan _ w)) by exact E.
        apply (add_to_batch_calls _ _ []); [| by right | exact Hsound].
        cbn [open_batch upd_logChan batches].
        by rewrite lookup_app_r, Nat.sub_diag.
    + destruct (channel.recv (autoCommitChan w)) as [[b ch] |]; [| done].
      injection Hstep as <-. unfold writeLoop_timeout.
      cbn [upd_autoCommitChan logBatch]. case_bool_decide as Hne; [done |].
      assert (E : logBatch w = Some b).
      { destruct (decide (Some b = logBatch w)); [done |]. by destruct Hne. }
      destruct (Hopen _ E) as [(cur & Hb & Hcur & Hlt) _].
      rewrite (saveLogs_eq _ _ (mkLogBatch cur)) by exact Hb.
      unfold bulk_writes_sound.
      cbn [upd_logBatch upd_saved upd_logCollection upd_autoCommitChan
           logCollection G_config InsertMany fst calls Logs].
      apply Forall_app. split; [exact Hsound |].
      apply Forall_singleton. split; [done | lia].
  - cbn [step] in Hstep. unfold timer_expires in Hstep.
    destruct (timers w !! t) as [tm |]; [| done].
    destruct (Timer_active tm); [| done]. by injection Hstep as <-.
  - cbn [step] in Hstep. unfold timer_sends in Hstep.
    destruct (sending w !! i) as [b |]; [| done].
    destruct (channel.send _ _); [| done]. by injection Hstep as <-.
Qed.

(** X13: no bulk write is empty and none is larger than a batch.  In every
    state the worker can reach, each call of [InsertMany] made so far was
    given at least one record and at most [JobLogBatchSize] of them, or
    exactly one when that size is below one. *)
Theorem bulk_writes_within_bounds
    (Parse : string -> option Expression) (lockText : string)
    (cfg : Config) (storeOutcomes : nat -> bool)
    (instants : nat -> time.Time) (actions : list Action) (w : World)
    (docs : list JobLog) :
  run Parse lockText (started cfg storeOutcomes instants) actions = Some w ->
  docs ∈ calls (logCollection w) ->
  (1 ≤ length docs)%nat
  ∧ Z.of_nat (length docs) ≤ Z.max 1 (JobLogBatchSize (G_config w)).
Proof.
  intros Hrun Hin.
  cut (sink_consistent w ∧ open_batch_sound w ∧ bulk_writes_sound w).
  { intros (_ & _ & Hsound).
    destruct (proj1 (Forall_forall _ _) Hsound _ Hin) as [Hne Hle].
    split; [| done]. destruct docs; [done | cbn [length]; lia]. }
  refine (run_invariant Parse lockText
            (fun w => sink_consistent w ∧ open_batch_sound w
                      ∧ bulk_writes_sound w) _ _ _ _ Hrun _).
  - clear. intros w a w' Hstep (Hc & Hopen & Hsound). split_and!.
    + by apply (step_sink_consistent _ _ _ _ _ Hstep).
    + by apply (step_open_batch_sound _ _ _ _ _ Hstep).
    + by apply (step_bulk_writes_sound _ _ _ _ _ Hstep).
  - split_and!.
    + apply started_sink_consistent.
    + apply (run_open_batch_sound Parse lockText cfg storeOutcomes instants []).
      reflexivity.
    + apply (set_timer_invariant bulk_writes_sound); try done.
      * intros w0 jobPlan Hsound.
        destruct (TryStartJob_sink_side w0 jobPlan) as (Hside & _ & Hcfg & _).
        unfold sink_side in Hside. unfold bulk_writes_sound.
        rewrite Hcfg. by injection Hside as _ -> _ _ _ _ _ _.
      * apply Forall_nil_2.
Qed.

(** *** The stamps of a log record *)

Lemma UnixNano_in_range (t : time.Time) :
  in_int64 t -> time.UnixNano t = t.
Proof.
  unfold in_int64, time.UnixNano, time.wrap64. intros Hrange.
  rewrite Z.mod_small; lia.
Qed.

(** X14: the stamps of a log record are Unix milliseconds.  For a result that
    is logged, on a channel with room, the record queued carries the planned,
    dispatch, start and end instants divided by a million and truncated
    toward zero, when those instants are within the range of [UnixNano];
    and the end stamp is not before the start stamp when the end is not
    before the start. *)
Theorem handleJobResult_stamps_milliseconds
    (lockText : string) (w : World) (result : JobExecuteResult) :
  Result_Err result ≠ Some ERR_LOCK_ALREADY_REQUIRED ->
  channel.full (logChan w) = false ->
  in_int64 (Info_PlanTime (Result_ExecuteInfo result)) ->
  in_int64 (Info_RealTime (Result_ExecuteInfo result)) ->
  in_int64 (Result_StartTime result) ->
  in_int64 (Result_EndTime result) ->
  ∃ jobLog,
    channel.buf (logChan (handleJobResult lockText w result))
    = channel.buf (logChan w) ++ [jobLog]
    ∧ JobLog_PlanTime jobLog
      = Info_PlanTime (Result_ExecuteInfo result) ÷ 1000000
    ∧ JobLog_SchedulerTime jobLog
      = Info_RealTime (Result_ExecuteInfo result) ÷ 1000000
    ∧ JobLog_StartTime jobLog = Result_StartTime result ÷ 1000000
    ∧ JobLog_EndTime jobLog = Result_EndTime result ÷ 1000000
    ∧ (Result_StartTime result ≤ Result_EndTime result ->
       JobLog_StartTime jobLog ≤ JobLog_EndTime jobLog).
Proof.
  intros Herr Hroom Hplan Hreal Hstart Hend.
  unfold handleJobResult. rewrite bool_decide_eq_true_2 by done.
  unfold Append, channel.send.
  cbn [upd_jobExecutingTable logChan]. rewrite Hroom.
  cbn [upd_logChan logChan channel.buf].
  eexists. split; [reflexivity |].
  cbn [JobLog_PlanTime JobLog_SchedulerTime JobLog_StartTime JobLog_EndTime].
  rewrite !UnixNano_in_range by done.
  rewrite !Z.quot_quot by lia. change (1000 * 1000) with 1000000.
  split_and!; try done. intros Hle. by apply Z.quot_le_mono.
Qed.

(** *** What each loop leaves alone *)

(** X15: the two loops keep to their own state.  No step of the worker
    changes the configuration; a step of the log sink's loop or of its timers
    leaves the scheduler's channels, tables, timer, contexts, executor calls,
    output and clock as they are; and a step of the scheduler's loop or of
    its producers leaves the sink's timeout channel, store, open batch and
    timers as they are. *)
Theorem loops_keep_to_their_own
    (Parse : string -> option Expression) (lockText : string)
    (w w' : World) (a : Action) :
  step Parse lockText w a = Some w' ->
  G_config w' = G_config w
  ∧ (sink_action a -> scheduler_side w' = scheduler_side w)
  ∧ (¬ sink_action a -> sink_side w' = sink_side w).
Proof.
  intros Hstep.
  destruct a as [jobEvent | jobResult | c order | c | t | i].
  1-3: apply scheduler_actions_sink_side in Hstep as [Hs Hc]; [| done];
       split_and!; [exact Hc | intros [] | intros _; exact Hs].
  all: apply sink_actions_scheduler_side in Hstep as [Hs Hc]; [| done];
       split_and!; [exact Hc | intros _; exact Hs | intros Hn; by destruct Hn].
Qed.

(** *** Saving and deleting a job *)

(** X16: a DELETE undoes a SAVE.  After the SAVE event of a job and then the
    DELETE event of a job of the same name, the plan table is the one before
    without any plan under that name, whether the job's expression parses or
    not; the tracker, the cancelled contexts and the executor's calls are as
    before, so an execution under way is not stopped. *)
Theorem save_then_delete
    (Parse : string -> option Expression) (w : World)
    (name command cronExpr command' cronExpr' : string) :
  let saved_job := mkJobEvent JOB_EVENT_SAVE (mkJob name command cronExpr) in
  let deleted_job :=
    mkJobEvent JOB_EVENT_DELETE (mkJob name command' cronExpr') in
  let w' := handleJobEvent Parse (handleJobEvent Parse w saved_job)
              deleted_job in
  jobPlanTable w' = delete name (jobPlanTable w)
  ∧ jobPlanTable w' !! name = None
  ∧ jobExecutingTable w' = jobExecutingTable w
  ∧ cancelled w' = cancelled w
  ∧ G_executor w' = G_executor w.
Proof.
  cbn zeta.
  assert (Hdelete : ∀ w0 : World,
            let w1 := handleJobEvent Parse w0
                        (mkJobEvent JOB_EVENT_DELETE
                           (mkJob name command' cronExpr')) in
            jobPlanTable w1 = delete name (jobPlanTable w0)
            ∧ jobExecutingTable w1 = jobExecutingTable w0
            ∧ cancelled w1 = cancelled w0
            ∧ G_executor w1 = G_executor w0).
  { intros w0. cbn zeta. unfold handleJobEvent.
    cbn [Event_EventType Event_Job Job_Name].
    destruct (jobPlanTable w0 !! name) eqn:E.
    - done.
    - by rewrite delete_id. }
  destruct (Hdelete (handleJobEvent Parse w
                       (mkJobEvent JOB_EVENT_SAVE
                          (mkJob name command cronExpr))))
    as (-> & -> & -> & ->).
  rewrite lookup_delete_eq. clear Hdelete.
  unfold handleJobEvent. cbn [Event_EventType Event_Job Job_Name].
  rewrite time_Now_eq.
  destruct (BulidJobSchedulerPlan Parse _ _) as [jobSchedulerPlan |].
  - cbn [upd_jobPlanTable upd_clock jobPlanTable jobExecutingTable cancelled
         G_executor].
    by rewrite delete_insert_eq.
  - done.
Qed.

(** *** The properties on sample runs *)

Lemma dispatches_bounded_witness :
  (dispatches "backup" samples.dispatched
   + results_for "backup" (channel.buf (jobResultChan samples.dispatched))
   ≤ pushed "backup" samples.dispatch_run + 1)%nat.
Proof.
  apply (dispatches_bounded samples.parse "busy" samples.config
           (fun _ => true) samples.instants).
  vm_compute. reflexivity.
Defined.

Lemma one_plan_lookup (e : Expression) (key : string)
    (jobPlan : JobsSchedulerPlan) :
  jobPlanTable (samples.one_plan e) !! key = Some jobPlan ->
  jobPlan = mkPlan (samples.job "backup") e 0.
Proof.
  unfold samples.one_plan. cbn [upd_jobPlanTable jobPlanTable].
  intros [[_ <-] | [_ Hempty]]%lookup_insert_Some; [done |].
  unfold samples.idle, boot in Hempty. cbn [jobPlanTable] in Hempty.
  by rewrite lookup_empty in Hempty.
Qed.

Lemma TryScheduler_leaves_none_due_witness :
  let w := samples.one_plan samples.every_second in
  let w' := (TryScheduler ["backup"] w).1 in
  dom (jobPlanTable w') = dom (jobPlanTable w)
  ∧ (∀ key jobPlan,
       jobPlanTable w' !! key = Some jobPlan ->
       due (next_reading w) jobPlan = false)
  ∧ (∀ key jobPlan,
       jobPlanTable w !! key = Some jobPlan ->
       due (next_reading w) jobPlan = false ->
       jobPlanTable w' !! key = Some jobPlan).
Proof.
  apply (TryScheduler_leaves_none_due ["backup"]
           (samples.one_plan samples.every_second)).
  - apply (bool_decide_eq_true_1 (range_order _ _)). vm_compute. reflexivity.
  - intros key jobPlan ->%one_plan_lookup _. vm_compute. reflexivity.
Defined.

Lemma idle_scheduler_wakes_every_second_witness :
  schedulerAfter samples.logged = 1000000000.
Proof.
  apply (idle_scheduler_wakes_every_second samples.parse "busy"
           samples.config (fun _ => true) samples.instants
           samples.logged_run).
  - vm_compute. reflexivity.
  - vm_compute. reflexivity.
Defined.

Lemma scheduler_timer_positive_witness :
  0 < schedulerAfter samples.dispatched.
Proof.
  apply (scheduler_timer_positive samples.parse "busy" samples.config
           (fun _ => true) samples.instants samples.dispatch_run).
  - intros s e. unfold samples.parse. case_bool_decide; [| done].
    intros [= <-] t. unfold samples.every_second, time.Second.
    cbn [Next]. lia.
  - vm_compute. reflexivity.
Defined.

Lemma channels_hold_a_thousand_witness :
  channels_bounded samples.dispatched
  ∧ (∀ jobEvent,
       PushJobEvent samples.dispatched jobEvent = None
       <-> length (channel.buf (jobEventChan samples.dispatched)) = 1000%nat)
  ∧ (∀ jobResult,
       PushJobResult samples.dispatched jobResult = None
       <-> length (channel.buf (jobResultChan samples.dispatched)) = 1000%nat)
  ∧ (∀ jobLog,
       logChan (Append samples.dispatched jobLog) = logChan samples.dispatched
       <-> length (channel.buf (logChan samples.dispatched)) = 1000%nat).
Proof.
  apply (channels_hold_a_thousand samples.parse "busy" samples.config
           (fun _ => true) samples.instants samples.dispatch_run).
  vm_compute. reflexivity.
Defined.

Lemma TryScheduler_dispatches_due_witness :
  let w := samples.one_plan samples.every_second in
  let now := next_reading w in
  let w' := (TryScheduler ["backup"] w).1 in
  (∀ name jobExecuteInfo,
     jobExecutingTable w !! name = Some jobExecuteInfo ->
     jobExecutingTable w' !! name = Some jobExecuteInfo)
  ∧ (∀ name,
       jobExecutingTable w !! name = None ->
       is_Some (jobExecutingTable w' !! name)
       <-> ∃ key jobPlan,
             jobPlanTable w !! key = Some jobPlan
             ∧ due now jobPlan = true
             ∧ Job_Name (Plan_Job jobPlan) = name)
  ∧ (∀ name jobExecuteInfo,
       jobExecutingTable w !! name = None ->
       jobExecutingTable w' !! name = Some jobExecuteInfo ->
       ∃ key jobPlan,
         jobPlanTable w !! key = Some jobPlan
         ∧ due now jobPlan = true
         ∧ Info_Job jobExecuteInfo = Plan_Job jobPlan
         ∧ Info_PlanTime jobExecuteInfo = Plan_NextTime jobPlan
         ∧ Info_PlanTime jobExecuteInfo ≤ now)
  ∧ (∀ name,
       (dispatches name w' + idle_slot name w'
        = dispatches name w + idle_slot name w)%nat).
Proof.
  apply (TryScheduler_dispatches_due ["backup"]
           (samples.one_plan samples.every_second)).
  apply (bool_decide_eq_true_1 (range_order _ _)). vm_compute. reflexivity.
Defined.

Lemma result_frees_the_slot_witness :
  let w := samples.one_plan samples.every_second in
  let jobPlan := mkPlan (samples.job "backup") samples.every_second 0 in
  let w1 := TryStartJob w jobPlan in
  let w2 := handleJobResult "busy" w1 (samples.result "backup" None) in
  jobExecutingTable w2 = jobExecutingTable w
  ∧ dispatches "backup" w1 = S (dispatches "backup" w)
  ∧ dispatches "backup" (TryStartJob w1 jobPlan) = S (dispatches "backup" w)
  ∧ dispatches "backup" (TryStartJob w2 jobPlan)
    = S (S (dispatches "backup" w)).
Proof.
  apply (result_frees_the_slot "busy" (samples.one_plan samples.every_second)
           (mkPlan (samples.job "backup") samples.every_second 0)
           (samples.result "backup" None)).
  - vm_compute. reflexivity.
  - reflexivity.
Defined.

Lemma tracked_and_cancelled_were_dispatched_witness :
  (∀ key jobExecuteInfo,
     jobExecutingTable samples.dispatched !! key = Some jobExecuteInfo ->
     jobExecuteInfo ∈ G_executor samples.dispatched)
  ∧ (∀ ctx, ctx ∈ cancelled samples.dispatched ->
       ∃ jobExecuteInfo,
         jobExecuteInfo ∈ G_executor samples.dispatched
         ∧ Info_CancelCtx jobExecuteInfo = ctx).
Proof.
  apply (tracked_and_cancelled_were_dispatched samples.parse "busy"
           samples.config (fun _ => true) samples.instants
           samples.dispatch_run).
  vm_compute. reflexivity.
Defined.

Lemma sink_keeps_records_in_order_witness :
  pipeline samples.logged `prefix_of` pipeline samples.flushed
  ∧ (Forall sink_action (replicate 3 (sink_turn case_logChan)) ->
     pipeline samples.flushed = pipeline samples.logged).
Proof.
  apply (sink_keeps_records_in_order samples.parse "busy" samples.config
           (fun _ => true) samples.instants samples.logged_run
           (replicate 3 (sink_turn case_logChan))).
  - vm_compute. reflexivity.
  - vm_compute. reflexivity.
Defined.

Lemma open_batch_within_bounds_witness :
  (1 ≤ length (open_logs (samples.before_flush true)))%nat
  ∧ Z.of_nat (length (open_logs (samples.before_flush true)))
    < JobLogBatchSize (G_config (samples.before_flush true)).
Proof.
  apply (open_batch_within_bounds samples.parse "busy" samples.config
           (fun _ => true) samples.instants samples.timeout_run
           (samples.before_flush true) 0%nat).
  - vm_compute. reflexivity.
  - vm_compute. reflexivity.
Defined.

Lemma open_batch_timeout_on_its_way_witness :
  (∃ t tm, timers (samples.before_flush true) !! t = Some tm
           ∧ Timer_active tm = true ∧ Timer_batch tm = 0%nat)
  ∨ 0%nat ∈ sending (samples.before_flush true)
  ∨ 0%nat ∈ channel.buf (autoCommitChan (samples.before_flush true)).
Proof.
  apply (open_batch_timeout_on_its_way samples.parse "busy" samples.config
           (fun _ => true) samples.instants samples.timeout_run
           (samples.before_flush true) 0%nat).
  - vm_compute. reflexivity.
  - vm_compute. reflexivity.
Defined.

Lemma timeout_flush_witness :
  ∃ w',
    run samples.parse "busy" samples.one_result
      [sink_turn case_logChan;
       runtime_expires (length (timers samples.one_result));
       runtime_sends 0; sink_turn case_autoCommitChan] = Some w'
    ∧ calls (logCollection w')
      = calls (logCollection samples.one_result)
        ++ [[jobLog_of "busy" (samples.result "backup" None)]]
    ∧ saved w'
      = saved samples.one_result ++ [length (batches samples.one_result)]
    ∧ logBatch w' = None
    ∧ channel.buf (logChan w') = []
    ∧ channel.buf (autoCommitChan w') = [].
Proof.
  apply (timeout_flush samples.parse "busy" samples.config (fun _ => true)
           samples.instants samples.one_result_run samples.one_result
           (jobLog_of "busy" (samples.result "backup" None)) []).
  - vm_compute. reflexivity.
  - vm_compute. reflexivity.
  - vm_compute. reflexivity.
  - vm_compute. reflexivity.
  - vm_compute. reflexivity.
  - vm_compute. reflexivity.
Defined.

Lemma bulk_writes_within_bounds_witness :
  (1 ≤ length [jobLog_of "busy" (samples.result "backup" None)])%nat
  ∧ Z.of_nat (length [jobLog_of "busy" (samples.result "backup" None)])
    ≤ Z.max 1 (JobLogBatchSize (G_config (samples.after_flush true))).
Proof.
  apply (bulk_writes_within_bounds samples.parse "busy" samples.config
           (fun _ => true) samples.instants
           (samples.timeout_run ++ [sink_turn case_autoCommitChan])
           (samples.after_flush true)).
  - vm_compute. reflexivity.
  - vm_compute. apply list_elem_of_here.
Defined.

Lemma handleJobResult_stamps_milliseconds_witness :
  ∃ jobLog,
    channel.buf
      (logChan (handleJobResult "busy" samples.idle
                  (samples.result "backup" None)))
    = channel.buf (logChan samples.idle) ++ [jobLog]
    ∧ JobLog_PlanTime jobLog = 1000000000 ÷ 1000000
    ∧ JobLog_SchedulerTime jobLog = 1000250000 ÷ 1000000
    ∧ JobLog_StartTime jobLog = 1000300000 ÷ 1000000
    ∧ JobLog_EndTime jobLog = 1000900000 ÷ 1000000
    ∧ (1000300000 ≤ 1000900000 ->
       JobLog_StartTime jobLog ≤ JobLog_EndTime jobLog).
Proof.
  apply (handleJobResult_stamps_milliseconds "busy" samples.idle
           (samples.result "backup" None)).
  - discriminate.
  - vm_compute. reflexivity.
  - unfold in_int64. cbn. lia.
  - unfold in_int64. cbn. lia.
  - unfold in_int64. cbn. lia.
  - unfold in_int64. cbn. lia.
Defined.

Lemma loops_keep_to_their_own_witness :
  G_config (samples.after_flush true) = G_config (samples.before_flush true)
  ∧ (sink_action (sink_turn case_autoCommitChan) ->
     scheduler_side (samples.after_flush true)
     = scheduler_side (samples.before_flush true))
  ∧ (¬ sink_action (sink_turn case_autoCommitChan) ->
     sink_side (samples.after_flush true)
     = sink_side (samples.before_flush true)).
Proof.
  apply (loops_keep_to_their_own samples.parse "busy").
  vm_compute. reflexivity.
Defined.
